(** * LoyOpt: a shallow embedding of the option parser of [LoyOpt.h]

    The development follows the header top-down: the status enumeration, the
    tagged union [Val] with the C++ conversions [clamp] relies on, the
    descriptor [OptionBase] with its constructors, and the parser
    [OptionParser] with its constructor (the tokenizer), [Parse] and the two
    queries over unparsed arguments.

    Conventions.
    - A [std::string] and a NUL-terminated [char*] are both a [string]: the
      characters before the terminator, so [strlen] is [String.length].
    - Fixed-width integers are carried by [Z]; every conversion to such a
      type writes its wrap-around out.
    - [float] and [double] are IEEE 754 binary32 and binary64 values, carried
      by the standard library's [spec_float] in canonical form.
    - A computation that does not return normally (an exception such as
      [std::bad_variant_access], or undefined behaviour such as [args[0]] on
      an empty vector) is [None].
    - The lines written to [cout] under [LOYOPTION_VERBOSE] and the help
      text are output only and are left out. *)

From Stdlib Require Import ZArith String Ascii List Bool Lia.
From Stdlib Require Import Floats.SpecFloat.
From stdpp Require Import base option list.

Local Open Scope string_scope.

(** ** Status of a descriptor ([OptionBase::Status]) *)

Inductive Status : Set :=
| NotParsed
| NotFound
| ValueInvalid
| ValueNotFound
| ClampedMax
| ClampedMin
| Parsed.

Definition Status_code (s : Status) : Z :=
  match s with
  | NotParsed => 0 | NotFound => 1 | ValueInvalid => 2 | ValueNotFound => 3
  | ClampedMax => 4 | ClampedMin => 5 | Parsed => 6
  end.

Definition Status_eqb (a b : Status) : bool := (Status_code a =? Status_code b)%Z.

(** ** Arithmetic types and their conversions *)

Module Arith.

(** The arithmetic alternatives of [Val]. *)
Inductive Scalar : Set := Tbool | Tint32 | Tuint32 | Tint64 | Tfloat | Tdouble.

Definition carrier (T : Scalar) : Type :=
  match T with
  | Tbool => bool
  | Tint32 | Tuint32 | Tint64 => Z
  | Tfloat | Tdouble => spec_float
  end.

Definition wrap_unsigned (w z : Z) : Z := (z mod 2 ^ w)%Z.
Definition wrap_signed (w z : Z) : Z :=
  ((z + 2 ^ (w - 1)) mod 2 ^ w - 2 ^ (w - 1))%Z.

(** Precision and exponent bound of the two binary formats. *)
Definition prec (T : Scalar) : Z := match T with Tfloat => 24 | _ => 53 end%Z.
Definition emax (T : Scalar) : Z := match T with Tfloat => 128 | _ => 1024 end%Z.

(** Round a binary float to the format of [T] (to nearest, ties to even);
    exact, and a change of representation only, when the value fits. *)
Definition round_to (T : Scalar) (f : spec_float) : spec_float :=
  match f with
  | S754_finite s m e => binary_round (prec T) (emax T) s m e
  | _ => f
  end.

(** Integer part of a binary float (truncation toward zero). *)
Definition trunc (f : spec_float) : Z :=
  match f with
  | S754_finite s m e =>
      let a := match e with
               | Zneg k => Z.shiftr (Zpos m) (Zpos k)
               | _ => Z.shiftl (Zpos m) e
               end in
      if s then Z.opp a else a
  | _ => 0%Z
  end.

(** A value of any arithmetic type, with its type forgotten. *)
Inductive num : Type := Int (z : Z) | Flt (f : spec_float).

Definition to_num (T : Scalar) : carrier T -> num :=
  match T with
  | Tbool => fun b : bool => Int (if b then 1 else 0)
  | Tint32 | Tuint32 | Tint64 => fun z : Z => Int z
  | Tfloat | Tdouble => fun f : spec_float => Flt f
  end.

Definition is_zero (f : spec_float) : bool :=
  match f with S754_zero _ => true | _ => false end.

(** Conversion to [T], implicit or by a cast [(T)x].  A float outside the
    range of an integer target has no defined result in C++; the embedding
    truncates and wraps there, and no instantiation that [Parse] reaches
    converts a float to an integer. *)
Definition cast (T : Scalar) : num -> carrier T :=
  match T with
  | Tbool => fun x => match x with
                      | Int z => negb (z =? 0)%Z
                      | Flt f => negb (is_zero f)
                      end
  | Tint32 => fun x => match x with
                       | Int z => wrap_signed 32 z
                       | Flt f => wrap_signed 32 (trunc f)
                       end
  | Tuint32 => fun x => match x with
                        | Int z => wrap_unsigned 32 z
                        | Flt f => wrap_unsigned 32 (trunc f)
                        end
  | Tint64 => fun x => match x with
                       | Int z => wrap_signed 64 z
                       | Flt f => wrap_signed 64 (trunc f)
                       end
  | Tfloat => fun x => match x with
                       | Int z => binary_normalize 24 128 z 0 false
                       | Flt f => round_to Tfloat f
                       end
  | Tdouble => fun x => match x with
                        | Int z => binary_normalize 53 1024 z 0 false
                        | Flt f => round_to Tdouble f
                        end
  end.

Definition convert (U T : Scalar) (x : carrier U) : carrier T :=
  cast T (to_num U x).

(** Integer promotion, then the usual arithmetic conversions: the type in
    which [u < t] is evaluated for [u : U] and [t : T] (and the type of
    [c ? u : t]). *)
Definition promote (T : Scalar) : Scalar :=
  match T with Tbool => Tint32 | _ => T end.

Definition common (U T : Scalar) : Scalar :=
  match promote U, promote T with
  | Tdouble, _ | _, Tdouble => Tdouble
  | Tfloat, _ | _, Tfloat => Tfloat
  | Tint64, _ | _, Tint64 => Tint64
  | Tuint32, _ | _, Tuint32 => Tuint32
  | _, _ => Tint32
  end.

(** [x < y] at one arithmetic type. *)
Definition lt (T : Scalar) : carrier T -> carrier T -> bool :=
  match T with
  | Tbool => fun x y : bool => negb x && y
  | Tint32 | Tuint32 | Tint64 => Z.ltb
  | Tfloat | Tdouble => SFltb
  end.

(** [std::numeric_limits<T>::lowest()] and [::max()]. *)
Definition lowest (T : Scalar) : carrier T :=
  match T with
  | Tbool => false
  | Tint32 => (- 2 ^ 31)%Z
  | Tuint32 => 0%Z
  | Tint64 => (- 2 ^ 63)%Z
  | Tfloat => SFopp (SFmax_float 24 128)
  | Tdouble => SFopp (SFmax_float 53 1024)
  end.

Definition max_value (T : Scalar) : carrier T :=
  match T with
  | Tbool => true
  | Tint32 => (2 ^ 31 - 1)%Z
  | Tuint32 => (2 ^ 32 - 1)%Z
  | Tint64 => (2 ^ 63 - 1)%Z
  | Tfloat => SFmax_float 24 128
  | Tdouble => SFmax_float 53 1024
  end.

(** The values a [T] can hold. *)
Definition in_range (T : Scalar) : carrier T -> Prop :=
  match T with
  | Tbool => fun _ => True
  | Tint32 => fun z : Z => (lowest Tint32 <= z <= max_value Tint32)%Z
  | Tuint32 => fun z : Z => (lowest Tuint32 <= z <= max_value Tuint32)%Z
  | Tint64 => fun z : Z => (lowest Tint64 <= z <= max_value Tint64)%Z
  | Tfloat => fun f : spec_float => valid_binary 24 128 f = true
  | Tdouble => fun f : spec_float => valid_binary 53 1024 f = true
  end.

End Arith.
Export Arith.

(** ** The tagged union [OptionBase::Val] *)

(** [variant<bool, string, int32_t, uint32_t, int64_t, float, double>] *)
Inductive Val : Type :=
| VBool (b : bool)
| VString (s : string)
| VInt32 (z : Z)
| VUInt32 (z : Z)
| VInt64 (z : Z)
| VFloat (f : spec_float)
| VDouble (d : spec_float).

(** [v.index()] *)
Definition index (v : Val) : nat :=
  match v with
  | VBool _ => 0 | VString _ => 1 | VInt32 _ => 2 | VUInt32 _ => 3
  | VInt64 _ => 4 | VFloat _ => 5 | VDouble _ => 6
  end.

(** [std::get<T>(v)]; [None] is [std::bad_variant_access]. *)
Definition get (T : Scalar) (v : Val) : option (carrier T) :=
  match T, v with
  | Tbool, VBool b => Some b
  | Tint32, VInt32 z => Some z
  | Tuint32, VUInt32 z => Some z
  | Tint64, VInt64 z => Some z
  | Tfloat, VFloat f => Some f
  | Tdouble, VDouble d => Some d
  | _, _ => None
  end.

(** Assignment of a [T] to the variant: it then holds alternative [T]. *)
Definition inj (T : Scalar) : carrier T -> Val :=
  match T with
  | Tbool => VBool
  | Tint32 => VInt32
  | Tuint32 => VUInt32
  | Tint64 => VInt64
  | Tfloat => VFloat
  | Tdouble => VDouble
  end.

(** The values an alternative can hold. *)
Definition Val_ok (v : Val) : Prop :=
  match v with
  | VBool _ | VString _ => True
  | VInt32 z => in_range Tint32 z
  | VUInt32 z => in_range Tuint32 z
  | VInt64 z => in_range Tint64 z
  | VFloat f => in_range Tfloat f
  | VDouble d => in_range Tdouble d
  end.

(** ** The descriptor [OptionBase] *)

(** [matched_name] points at [sts_str[7]] (the empty string) until a name
    matches, then at [name] or at [alt_name]. *)
Inductive MatchedName : Set := no_match | by_name | by_alt_name.

Record OptionBase : Type := mkOption {
  status : Status;
  name : string;
  alt_name : string;
  matched_name : MatchedName;
  base : Z;
  default_val : Val;
  value : Val;
  min : Val;
  max : Val;
  HelpLines : list string
}.

Definition set_status (s : Status) (o : OptionBase) : OptionBase :=
  mkOption s (name o) (alt_name o) (matched_name o) (base o)
           (default_val o) (value o) (min o) (max o) (HelpLines o).

Definition set_value (v : Val) (o : OptionBase) : OptionBase :=
  mkOption (status o) (name o) (alt_name o) (matched_name o) (base o)
           (default_val o) v (min o) (max o) (HelpLines o).

Definition set_matched_name (m : MatchedName) (o : OptionBase) : OptionBase :=
  mkOption (status o) (name o) (alt_name o) m (base o)
           (default_val o) (value o) (min o) (max o) (HelpLines o).

Definition IsNameExist (o : OptionBase) : bool :=
  negb (Status_eqb (status o) NotParsed) && negb (Status_eqb (status o) NotFound).

Definition IsValueUpdated (o : OptionBase) : bool :=
  Status_eqb (status o) Parsed || Status_eqb (status o) ClampedMax
  || Status_eqb (status o) ClampedMin.

Definition GetStatus (o : OptionBase) : Status := status o.
Definition GetName (o : OptionBase) : string := name o.
Definition GetAltName (o : OptionBase) : string := alt_name o.
Definition GetLastMatchedName (o : OptionBase) : string :=
  match matched_name o with
  | no_match => ""
  | by_name => name o
  | by_alt_name => alt_name o
  end.
Definition Base (o : OptionBase) : Z := base o.
Definition Value (T : Scalar) (o : OptionBase) : option (carrier T) := get T (value o).
Definition SetValue (T : Scalar) (val : carrier T) (o : OptionBase) : OptionBase :=
  set_value (inj T val) o.

(** [clamp<U, T>]: the status it assigns and the value it returns.  Both
    comparisons and the conditional expression are evaluated in the common
    type of [U] and [T]; the result is cast back to [T]. *)
Definition clamp (U T : Scalar) (val : carrier U) (min max : carrier T)
  : Status * carrier T :=
  let C := common U T in
  let v := convert U C val in
  let lo := convert T C min in
  let hi := convert T C max in
  (if lt C v lo then ClampedMin else if lt C hi v then ClampedMax else Parsed,
   convert C T (if lt C v lo then lo else if lt C hi v then hi else v)).

Arguments clamp : simpl never.

(** [update_numeric_value_n_status<U>(val)] *)
Definition update_numeric_value_n_status (U : Scalar) (val : carrier U)
    (o : OptionBase) : option OptionBase :=
  let clamped (T : Scalar) : option OptionBase :=
    lo ← get T (min o);
    hi ← get T (max o);
    let c := clamp U T val lo hi in
    Some (set_value (inj T c.2) (set_status c.1 o)) in
  match index (value o) with
  | 2 => clamped Tint32
  | 3 => clamped Tuint32
  | 4 => clamped Tint64
  | 5 => clamped Tfloat
  | 6 => clamped Tdouble
  | _ => Some (set_status Parsed (set_value (inj U val) o))
  end.

(** [NameMatch]: the answer and the descriptor afterwards. *)
Definition NameMatch (o : OptionBase) (nm : string) : bool * OptionBase :=
  if String.eqb (name o) nm then (true, set_matched_name by_name o)
  else if String.eqb (alt_name o) nm then (true, set_matched_name by_alt_name o)
  else (false, o).

(** *** Constructors of [Option<T>] *)

(** [Option<bool>(name, alt_name)] *)
Definition Option_bool (name alt_name : string) : OptionBase :=
  mkOption NotParsed name alt_name no_match 10
           (VBool false) (VBool false)
           (VBool (lowest Tbool)) (VBool (max_value Tbool)) [].

(** [Option<string>(default_val, name, alt_name)];
    [numeric_limits<string>] is the primary template, whose members return
    [string()]. *)
Definition Option_string (default_val name alt_name : string) : OptionBase :=
  mkOption NotParsed name alt_name no_match 10
           (VString default_val) (VString default_val)
           (VString "") (VString "") [].

(** [base < 2 ? 2 : base > 36 ? 36 : base] *)
Definition clamp_base (base : Z) : Z :=
  (if base <? 2 then 2 else if 36 <? base then 36 else base)%Z.

(** The numeric constructors, for [T] one of [int32_t], [uint32_t],
    [int64_t], [float], [double] (the first also serves [string], see
    [Option_string]): default; default and range; default and base;
    default, base and range. *)
Definition Option_default (T : Scalar) (default_val : carrier T)
    (name alt_name : string) : OptionBase :=
  mkOption NotParsed name alt_name no_match 10
           (inj T default_val) (inj T default_val)
           (inj T (lowest T)) (inj T (max_value T)) [].

Definition Option_range (T : Scalar) (default_val min max : carrier T)
    (name alt_name : string) : OptionBase :=
  mkOption NotParsed name alt_name no_match 10
           (inj T default_val) (inj T default_val)
           (inj T min) (inj T max) [].

Definition Option_base (T : Scalar) (default_val : carrier T) (base : Z)
    (name alt_name : string) : OptionBase :=
  mkOption NotParsed name alt_name no_match (clamp_base base)
           (inj T default_val) (inj T default_val)
           (inj T (lowest T)) (inj T (max_value T)) [].

Definition Option_base_range (T : Scalar) (default_val : carrier T) (base : Z)
    (min max : carrier T) (name alt_name : string) : OptionBase :=
  mkOption NotParsed name alt_name no_match (clamp_base base)
           (inj T default_val) (inj T default_val)
           (inj T min) (inj T max) [].

(** What every constructor establishes and [Parse] keeps: the base is one
    [strtoll] accepts, and the bounds hold the alternative of the value,
    with values of that type. *)
Record wf (o : OptionBase) : Prop := mk_wf {
  wf_base : (2 <= base o <= 36)%Z;
  wf_min : index (min o) = index (value o);
  wf_max : index (max o) = index (value o);
  wf_min_ok : Val_ok (min o);
  wf_max_ok : Val_ok (max o)
}.

(** ** The C library's [strtoll] (ISO C 7.22.1.4, "C" locale)

    The result is the converted value and the number of characters up to
    the end pointer; [None] for a base the standard does not define. *)

Module Libc.

Definition isspace (c : ascii) : bool :=
  let n := nat_of_ascii c in
  Nat.eqb n 32 || (Nat.leb 9 n && Nat.leb n 13).

Definition digit_value (c : ascii) : option Z :=
  let n := Z.of_nat (nat_of_ascii c) in
  (if (48 <=? n) && (n <=? 57) then Some (n - 48)
   else if (97 <=? n) && (n <=? 122) then Some (n - 87)
   else if (65 <=? n) && (n <=? 90) then Some (n - 55)
   else None)%Z.

Fixpoint skip_space (s : string) : nat * string :=
  match s with
  | String c s' =>
      if isspace c then let '(n, r) := skip_space s' in (S n, r) else (0, s)
  | EmptyString => (0, s)
  end.

(** The longest run of digits of base [b], accumulated onto [acc]. *)
Fixpoint digits (b : Z) (s : string) (acc : Z) : Z * nat :=
  match s with
  | String c s' =>
      match digit_value c with
      | Some d =>
          if (d <? b)%Z
          then let '(v, n) := digits b s' (acc * b + d)%Z in (v, S n)
          else (acc, 0)
      | None => (acc, 0)
      end
  | EmptyString => (acc, 0)
  end.

Definition LLONG_MIN : Z := (- 2 ^ 63)%Z.
Definition LLONG_MAX : Z := (2 ^ 63 - 1)%Z.

Definition saturate (z : Z) : Z := Z.max LLONG_MIN (Z.min LLONG_MAX z).

Definition is_x (c : ascii) : bool := Ascii.eqb c "x" || Ascii.eqb c "X".

Definition strtoll (nptr : string) (base : Z) : option (Z * nat) :=
  if ((base =? 0) || ((2 <=? base) && (base <=? 36)))%Z then
    let '(ws, s1) := skip_space nptr in
    let '(neg, sg, s2) :=
      match s1 with
      | String "-" r => (true, 1, r)
      | String "+" r => (false, 1, r)
      | _ => (false, 0, s1)
      end in
    let '(b, pfx, s3) :=
      match s2 with
      | String "0" (String x r) =>
          if ((base =? 0) || (base =? 16))%Z && is_x x then (16%Z, 2, r)
          else if (base =? 0)%Z then (8%Z, 0, s2)
          else (base, 0, s2)
      | String "0" EmptyString => (if (base =? 0)%Z then 8%Z else base, 0, s2)
      | _ => (if (base =? 0)%Z then 10%Z else base, 0, s2)
      end in
    let '(v, n) := digits b s3 0 in
    match n with
    | 0 =>
        (* no digits: nothing is converted, except that a bare [0x] is
           the number [0] followed by [x] *)
        Some (0%Z, if Nat.eqb pfx 2 then ws + sg + 1 else 0)
    | _ => Some (saturate (if neg then - v else v)%Z, ws + sg + pfx + n)
    end
  else None.

Definition is_nan (f : spec_float) : bool :=
  match f with S754_nan => true | _ => false end.

End Libc.
Export Libc.

(** ** The parser [OptionParser] *)

(** [pair<bool, string>]: the flag is true once the argument has been dealt
    with. *)
Abbreviation Arg := (bool * string)%type.

Record OptionParser : Type := mkParser {
  args : list Arg;
  exec_name : string
}.

(** [s[k]] for [k <= strlen(s)]: the terminator reads as NUL. *)
Definition char_at (s : string) (k : nat) : ascii :=
  match String.get k s with Some c => c | None => zero end.

Definition is_digit (c : ascii) : bool :=
  Nat.leb 48 (nat_of_ascii c) && Nat.leb (nat_of_ascii c) 57.

(** [get_exec_name]: [last_sep s n] is [i + 1] when the downward loop from
    [i = n - 1] stops. *)
Fixpoint last_sep (s : string) (n : nat) : nat :=
  match n with
  | 0 => 0
  | S i =>
      if Ascii.eqb (char_at s i) "/" || Ascii.eqb (char_at s i) "\"
      then S i
      else last_sep s i
  end.

Definition get_exec_name (args : list Arg) : option string :=
  a ← args !! 0;
  let s := a.2 in
  let k := last_sep s (String.length s) in
  Some (String.substring k (String.length s - k) s).

(** *** The constructor: the tokenizer *)

(** The test that makes [argv[i]] a run of merged one-letter options. *)
Definition is_merged (a : string) : bool :=
  Ascii.eqb (char_at a 0) "-" && Nat.leb 3 (String.length a)
  && negb (Ascii.eqb (char_at a 1) "-") && negb (Ascii.eqb (char_at a 1) "." )
  && negb (is_digit (char_at a 1)).

(** The inner loop, [n] iterations from index [j]. *)
Fixpoint push_letters (a : string) (n j : nat) (args : list Arg) : list Arg :=
  match n with
  | 0 => args
  | S n' =>
      push_letters a n' (S j)
        (args ++ [(false, String "-" (String (char_at a j) EmptyString))])
  end.

(** One iteration of the outer loop. *)
Definition push_arg (args : list Arg) (a : string) : list Arg :=
  if is_merged a
  then push_letters a (String.length a - 1) 1 args
  else args ++ [(false, a)].

(** [OptionParser(argc, argv)], for [argv] the first [argc] strings.  With
    no argument at all, [args[0]] is outside the vector. *)
Definition OptionParser_new (argv : list string) : option OptionParser :=
  let args := foldl push_arg [] argv in
  a ← args !! 0;
  let args := <[0 := (true, a.2)]> args in
  exec ← get_exec_name args;
  Some (mkParser args exec).

Definition NumArgs (p : OptionParser) : nat := length (args p).
Definition ExecName (p : OptionParser) : string := exec_name p.

(** *** [Parse] *)

Section Parse.

(** The C library's [strtod]: the converted value and the number of
    characters up to the end pointer.  Decimal-to-binary conversion is the
    library's business; the parser is embedded over any such function. *)
Variable strtod : string -> spec_float * nat.

Definition deal_integer (opt : OptionBase) (val_str : string)
  : option OptionBase :=
  '(val, s_end) ← strtoll val_str (base opt);
  if Nat.ltb s_end (String.length val_str)
  then Some (set_status ValueInvalid opt)
  else update_numeric_value_n_status Tint64 val opt.

Definition deal_floating (opt : OptionBase) (val_str : string)
  : option OptionBase :=
  let '(val, s_end) := strtod val_str in
  if Nat.ltb s_end (String.length val_str) || is_nan val
  then Some (set_status ValueInvalid opt)
  else update_numeric_value_n_status Tdouble val opt.

(** The body of [if(opt.NameMatch(a.second))], entered at index [i] with
    [a = args[i]]; every path through it leaves the loop.  The test
    [i + 1 < args.size()] is the lookup of [args[i + 1]]. *)
Definition Parse_matched (type i : nat) (a : Arg) (args : list Arg)
    (opt : OptionBase) : option (list Arg * OptionBase) :=
  let args := <[i := (true, a.2)]> args in
  if Nat.eqb 0 type then
    opt' ← update_numeric_value_n_status Tbool true opt;
    Some (args, opt')
  else
    match args !! S i with
    | Some v =>
        let args := <[S i := (true, v.2)]> args in
        if Nat.eqb 1 type then
          Some (args, set_status Parsed (set_value (VString v.2) opt))
        else if Nat.leb 2 type && Nat.leb type 4 then
          opt' ← deal_integer opt v.2;
          Some (args, opt')
        else
          opt' ← deal_floating opt v.2;
          Some (args, opt')
    | None => Some (args, set_status ValueNotFound opt)
    end.

(** The [for] loop, with at most [n] iterations left; the result carries
    the index [i] at which the loop was left. *)
Fixpoint Parse_loop (n i type : nat) (args : list Arg) (opt : OptionBase)
  : option (nat * list Arg * OptionBase) :=
  match n with
  | 0 => Some (i, args, opt)
  | S n' =>
      match args !! i with
      | None => Some (i, args, opt)
      | Some a =>
          let '(m, opt1) := NameMatch opt a.2 in
          if m then
            '(args', opt') ← Parse_matched type i a args opt1;
            Some (i, args', opt')
          else Parse_loop n' (S i) type args opt1
      end
  end.

(** [Parse(opt)]: the status returned, the parser and the descriptor
    afterwards. *)
Definition Parse (p : OptionParser) (opt : OptionBase)
  : option (Status * OptionParser * OptionBase) :=
  let type := index (value opt) in
  '(i, args', opt') ← Parse_loop (length (args p)) 0 type (args p) opt;
  let opt'' :=
    if Nat.eqb i (length args') then set_status NotFound opt' else opt' in
  Some (status opt'', mkParser args' (exec_name p), opt'').

End Parse.

(** *** Queries over the unparsed arguments *)

(** A [const] member function reads the parser; called on a parser it gives
    its result and the parser afterwards. *)
Definition const_method (A : Type) : Type := OptionParser -> A.

Definition call {A : Type} (m : const_method A) (p : OptionParser)
  : A * OptionParser := (m p, p).

Fixpoint first_unparsed (args : list Arg) : string :=
  match args with
  | a :: rest => if negb a.1 then a.2 else first_unparsed rest
  | [] => ""
  end.

Definition FirstUnparsedArg : const_method string :=
  fun p => first_unparsed (args p).

Fixpoint push_unparsed (args : list Arg) (rtn : list string) : list string :=
  match args with
  | a :: rest => push_unparsed rest (if negb a.1 then rtn ++ [a.2] else rtn)
  | [] => rtn
  end.

Definition GetAllUnparsedArgs : const_method (list string) :=
  fun p => push_unparsed (args p) [].

(** ** A [strtod] for running the parser

    Decimal and hexadecimal literals, infinities and NaNs in the "C" locale,
    rounded to nearest.  The theorems below hold for every [strtod]; this one
    serves the examples. *)

Module Strtod.

Definition string_drop (n : nat) (s : string) : string :=
  String.substring n (String.length s - n) s.

Definition to_lower (c : ascii) : ascii :=
  let n := nat_of_ascii c in
  if Nat.leb 65 n && Nat.leb n 90 then ascii_of_nat (n + 32) else c.

(** [pat], in lower case, is a prefix of [s] up to case. *)
Fixpoint prefix_ci (pat s : string) : bool :=
  match pat, s with
  | EmptyString, _ => true
  | String p pat', String c s' => Ascii.eqb p (to_lower c) && prefix_ci pat' s'
  | _, _ => false
  end.

Definition sign_of (s : string) : bool * nat * string :=
  match s with
  | String "-" r => (true, 1, r)
  | String "+" r => (false, 1, r)
  | _ => (false, 0, s)
  end.

(** An exponent part introduced by [mark]: its value and its length, [0]
    when there is none. *)
Definition exponent (mark : ascii) (s : string) : Z * nat :=
  match s with
  | String c r =>
      if Ascii.eqb (to_lower c) mark then
        let '(neg, sg, r') := sign_of r in
        let '(v, n) := digits 10 r' 0 in
        match n with
        | 0 => (0%Z, 0)
        | _ => (if neg then (- v)%Z else v, 1 + sg + n)
        end
      else (0%Z, 0)
  | EmptyString => (0%Z, 0)
  end.

(** The length of [(n-char-sequence)] after [nan], [0] when absent. *)
Fixpoint nan_chars (s : string) : option nat :=
  match s with
  | String ")" _ => Some 1
  | String c r =>
      if Ascii.eqb c "_" || match digit_value c with Some _ => true | None => false end
      then k ← nan_chars r; Some (S k)
      else None
  | EmptyString => None
  end.

Definition nan_payload (s : string) : nat :=
  match s with
  | String "(" r => match nan_chars r with Some k => S k | None => 0 end
  | _ => 0
  end.

(** [m * 2 ^ e] and [m * 10 ^ e] as a binary64. *)
Definition of_binary (neg : bool) (m e : Z) : spec_float :=
  binary_normalize 53 1024 (if neg then - m else m)%Z e neg.

Definition of_decimal (neg : bool) (m e : Z) : spec_float :=
  match m with
  | Z0 => S754_zero neg
  | _ =>
      if (0 <=? e)%Z then of_binary neg (m * 10 ^ e)%Z 0
      else
        let '(q, e', l) := SFdiv_core_binary 53 1024 m 0 (10 ^ (- e))%Z 0 in
        binary_round_aux 53 1024 neg q e' l
  end.

(** Digits, an optional point and more digits, in base [b]: the digits
    read as one integer, the number of digits before and after the point,
    and the length of the point. *)
Definition mantissa (b : Z) (s : string) : Z * nat * nat * nat :=
  let '(ip, n1) := digits b s 0 in
  match string_drop n1 s with
  | String "." r => let '(m, n2) := digits b r ip in (m, n1, n2, 1)
  | _ => (ip, n1, 0, 0)
  end.

Definition strtod (nptr : string) : spec_float * nat :=
  let '(ws, s1) := skip_space nptr in
  let '(neg, sg, s2) := sign_of s1 in
  let decimal :=
    let '(m, n1, n2, dot) := mantissa 10 s2 in
    match n1 + n2 with
    | 0 => (S754_zero false, 0)
    | _ =>
        let '(e, ne) := exponent "e" (string_drop (n1 + dot + n2) s2) in
        (of_decimal neg m (e - Z.of_nat n2), ws + sg + n1 + dot + n2 + ne)
    end in
  if prefix_ci "infinity" s2 then (S754_infinity neg, ws + sg + 8)
  else if prefix_ci "inf" s2 then (S754_infinity neg, ws + sg + 3)
  else if prefix_ci "nan" s2
  then (S754_nan, ws + sg + 3 + nan_payload (string_drop 3 s2))
  else if prefix_ci "0x" s2 then
    let '(m, n1, n2, dot) := mantissa 16 (string_drop 2 s2) in
    match n1 + n2 with
    | 0 => decimal
    | _ =>
        let '(e, ne) := exponent "p" (string_drop (2 + n1 + dot + n2) s2) in
        (of_binary neg m (e - 4 * Z.of_nat n2),
         ws + sg + 2 + n1 + dot + n2 + ne)
    end
  else decimal.

End Strtod.

(** * What the specification says, in the terms of the embedding

    The definitions below follow the specification's words; the theorems
    compare them with the code above. *)

(** The token's text is one of the two names of the descriptor. *)
Definition names (o : OptionBase) (t : string) : Prop :=
  t = name o \/ t = alt_name o.

#[global] Instance names_dec o t : Decision (names o t).
Proof.
  unfold names.
  destruct (String.string_dec t (name o)); [left; auto|].
  destruct (String.string_dec t (alt_name o)); [left; auto|].
  right; intros [?|?]; contradiction.
Defined.

(** The first token, in index order, whose text is one of the names; the
    consumed flags play no part. *)
Definition first_occurrence (o : OptionBase) (args : list Arg)
  : option (nat * Arg) :=
  list_find (fun a : Arg => names o a.2) args.

(** Which of the two names a matching text is. *)
Definition which_name (o : OptionBase) (t : string) : MatchedName :=
  if String.eqb (name o) t then by_name else by_alt_name.

(** A merged short-flag cluster: length at least 3, a single leading [-],
    and a second character that is not [-], [.] or a decimal digit. *)
Definition spec_is_cluster (a : string) : bool :=
  match a with
  | String c0 (String c (String _ _)) =>
      Ascii.eqb c0 "-"
      && negb (Ascii.eqb c "-") && negb (Ascii.eqb c ".") && negb (is_digit c)
  | _ => false
  end.

(** One [-]-prefixed one-character token per character after the leading
    [-]. *)
Definition flag_token (c : ascii) : string := String "-" (String c EmptyString).

Definition spec_split (a : string) : list string :=
  match a with
  | String _ rest => flag_token <$> list_ascii_of_string rest
  | EmptyString => []
  end.

Definition spec_expand (a : string) : list string :=
  if spec_is_cluster a then spec_split a else [a].

(** The rule applied to every token except index 0, which is kept. *)
Definition spec_tokenize (argv : list string) : list string :=
  match argv with
  | exe :: rest => exe :: (rest ≫= spec_expand)
  | [] => []
  end.

(** The texts and the flags of a token list. *)
Definition texts (args : list Arg) : list string := args.*2.
Definition flags (args : list Arg) : list bool := args.*1.

(** The integer alternatives of [Val]. *)
Definition is_integer_kind (v : Val) : Prop := 2 <= index v <= 4.
Definition is_floating_kind (v : Val) : Prop := 5 <= index v <= 6.

(** The mathematical value of an integer alternative. *)
Definition int_value (v : Val) : option Z :=
  match v with
  | VInt32 z | VUInt32 z | VInt64 z => Some z
  | _ => None
  end.

(** The clamping rule on mathematical integers: below [lo] the status is
    [ClampedMin] and the value [lo]; above [hi], [ClampedMax] and [hi];
    otherwise [Parsed] and the value itself. *)
Definition int_clamp (v lo hi : Z) : Status * Z :=
  (if v <? lo then ClampedMin else if hi <? v then ClampedMax else Parsed,
   if v <? lo then lo else if hi <? v then hi else v)%Z.

(** The clamping rule on binary64 values, with the IEEE comparisons. *)
Definition double_clamp (v lo hi : spec_float) : Status * spec_float :=
  (if SFltb v lo then ClampedMin else if SFltb hi v then ClampedMax else Parsed,
   if SFltb v lo then lo else if SFltb hi v then hi else v).

(** The clamping rule for a float descriptor: the comparisons are made in
    [double], with the bounds widened; the value kept is narrowed to
    [float]. *)
Definition float_clamp (v lo hi : spec_float) : Status * spec_float :=
  let lo' := convert Tfloat Tdouble lo in
  let hi' := convert Tfloat Tdouble hi in
  (if SFltb v lo' then ClampedMin else if SFltb hi' v then ClampedMax else Parsed,
   if SFltb v lo' then lo else if SFltb hi' v then hi
   else convert Tdouble Tfloat v).

(** The value of a binary float in units of [2 ^ -1074], the smallest
    positive double: an integer for every float and double.  The infinities
    lie beyond every number. *)
Definition huge : Z := (2 ^ 2200)%Z.

Definition scaled (f : spec_float) : Z :=
  match f with
  | S754_zero _ | S754_nan => 0
  | S754_infinity s => if s then - huge else huge
  | S754_finite s m e => (if s then -1 else 1) * (Zpos m * 2 ^ (e + 1074))
  end%Z.

(** The formats the development covers: [float] and [double]. *)
Definition format_ok (p em : Z) : Prop :=
  (0 < p /\ -1074 <= emin p em /\ 2 <= em <= 1024)%Z.

(** A double that is a number: neither an infinity nor a NaN. *)
Definition is_finite (f : spec_float) : bool :=
  match f with
  | S754_zero _ | S754_finite _ _ _ => true
  | S754_infinity _ | S754_nan => false
  end.

(** The indices a descriptor claims in a token list: the first occurrence
    of one of its names, and the token after it when the descriptor takes a
    value and that token exists. *)
Definition claimed (o : OptionBase) (l : list Arg) : list nat :=
  match first_occurrence o l with
  | None => []
  | Some (i, _) =>
      if Nat.eqb 0 (index (value o)) then [i]
      else if Nat.ltb (S i) (length l) then [i; S i] else [i]
  end.

(** The token list with the tokens at the indices [ks] marked consumed. *)
Definition mark (ks : list nat) (l : list Arg) : list Arg :=
  imap (fun k (a : Arg) => (a.1 || bool_decide (k ∈ ks), a.2)) l.

(** A path separator, as [get_exec_name] tests it. *)
Definition is_sep (c : ascii) : bool := Ascii.eqb c "/" || Ascii.eqb c "\".

(** * The demonstration program [testLoyOpt.cc]

    Its descriptors, the loop of [main] that parses each of them in turn,
    and the command line of its "typical test case". *)

Module Test.

Definition opt_help := Option_bool "-?" "--help".
Definition opt_bool_a := Option_bool "-a" "".
Definition opt_bool_b := Option_bool "-b" "--bool_b".
Definition opt_string_c := Option_string "./path/file_c" "-c" "".
Definition opt_string_d := Option_string "a string for d" "-d" "--string_d".
Definition opt_int32_e := Option_default Tint32 0%Z "-e" "".
Definition opt_int32_f := Option_default Tint32 0%Z "--int32_f" "".
Definition opt_int32_g := Option_range Tint32 50%Z 0%Z 100%Z "-g" "--int32_g".
Definition opt_int32_h := Option_base Tint32 0%Z 16 "-h" "--int32_h".
Definition opt_int32_i :=
  Option_base_range Tint32 0%Z 16 0%Z 65535%Z "--int32_i" "".
Definition opt_uint32_j :=
  Option_range Tuint32 150%Z 100%Z 200%Z "-j" "--uint32_j".
Definition opt_int64_k :=
  Option_range Tint64 0%Z (-10000000000)%Z 10000000000%Z "--int64_k" "".
Definition opt_float_l := Option_default Tfloat (S754_zero false) "-l" "--float_l".
Definition opt_float_m :=
  Option_range Tfloat (S754_zero false)
    (convert Tint32 Tfloat (-10)%Z) (convert Tint32 Tfloat 100%Z)
    "--float_m" "".
Definition opt_double_n :=
  Option_default Tdouble (S754_zero false) "-n" "--double_n".

Definition options : list OptionBase :=
  [opt_help; opt_bool_a; opt_bool_b; opt_string_c; opt_string_d;
   opt_int32_e; opt_int32_f; opt_int32_g; opt_int32_h; opt_int32_i;
   opt_uint32_j; opt_int64_k; opt_float_l; opt_float_m; opt_double_n].

(** [for(OptionBase *o : options) op.Parse( *o );] *)
Fixpoint ParseAll (strtod : string -> spec_float * nat) (op : OptionParser)
    (os : list OptionBase) : option (OptionParser * list OptionBase) :=
  match os with
  | [] => Some (op, [])
  | o :: rest =>
      '(_, op1, o1) ← Parse strtod op o;
      '(op2, rest') ← ParseAll strtod op1 rest;
      Some (op2, o1 :: rest')
  end.

Definition argv : list string :=
  ["./test_loyopt"; "-?"; "-ab"; "-c"; "~/Documents/Work Files/foo.txt";
   "--string_d_typo"; "--int32_f"; "123456"; "-g"; "1000"; "-h"; "0xa5A5";
   "--int32_i"; "0x5x5x"; "-j"; "-10"; "--float_l"; "3.1416"; "opps"; "-n"].

(** The parser the constructor builds from [argv]. *)
Definition op : OptionParser :=
  mkParser
    [(true, "./test_loyopt"); (false, "-?"); (false, "-a"); (false, "-b");
     (false, "-c"); (false, "~/Documents/Work Files/foo.txt");
     (false, "--string_d_typo"); (false, "--int32_f"); (false, "123456");
     (false, "-g"); (false, "1000"); (false, "-h"); (false, "0xa5A5");
     (false, "--int32_i"); (false, "0x5x5x"); (false, "-j"); (false, "-10");
     (false, "--float_l"); (false, "3.1416"); (false, "opps"); (false, "-n")]
    "test_loyopt".

(** What the comment at the end of [testLoyOpt.cc] reports for each
    descriptor: status, matched name and value. *)
Definition report (o : OptionBase) : Status * string * Val :=
  (status o, GetLastMatchedName o, value o).

Definition expected : list (Status * string * Val) :=
  [(Parsed, "-?", VBool true); (Parsed, "-a", VBool true);
   (Parsed, "-b", VBool true);
   (Parsed, "-c", VString "~/Documents/Work Files/foo.txt");
   (NotFound, "", VString "a string for d");
   (NotFound, "", VInt32 0); (Parsed, "--int32_f", VInt32 123456);
   (ClampedMax, "-g", VInt32 100); (Parsed, "-h", VInt32 42405);
   (ValueInvalid, "--int32_i", VInt32 0);
   (ClampedMin, "-j", VUInt32 100); (NotFound, "", VInt64 0);
   (Parsed, "--float_l", VFloat (S754_finite false 13176825 (-22)));
   (NotFound, "", VFloat (S754_zero false));
   (ValueNotFound, "-n", VDouble (S754_zero false))].

(** [main]: construct the parser, parse every descriptor, then ask for
    the unparsed arguments. *)
Definition main (strtod : string -> spec_float * nat) (argv : list string)
    (os : list OptionBase)
  : option (list (Status * string * Val) * list string * string) :=
  match OptionParser_new argv with
  | Some op =>
      match ParseAll strtod op os with
      | Some (op', os') =>
          Some (map report os', GetAllUnparsedArgs op', FirstUnparsedArg op')
      | None => None
      end
  | None => None
  end.

(** Parsers used in the examples below. *)

(** [-g] followed by its lower bound. *)
Definition op_bound : OptionParser :=
  mkParser [(true, "prog"); (false, "-g"); (false, "0")] "prog".

(** [-e] followed by the empty string. *)
Definition op_empty : OptionParser :=
  mkParser [(true, "prog"); (false, "-e"); (false, "")] "prog".

(** [-a] already consumed, as the value of [-c]; a second [-a] later. *)
Definition op_consumed : OptionParser :=
  mkParser [(true, "prog"); (true, "-c"); (true, "-a"); (false, "-a")] "prog".

(** A program invoked under the name [-a]. *)
Definition op_named_a : OptionParser :=
  mkParser [(true, "-a"); (false, "x"); (false, "-a")] "-a".

(** [--float_m] followed by a number below its range. *)
Definition op_float : OptionParser :=
  mkParser [(true, "prog"); (false, "--float_m"); (false, "-20")] "prog".

(** [-n] followed by an infinity. *)
Definition op_inf : OptionParser :=
  mkParser [(true, "prog"); (false, "-n"); (false, "inf")] "prog".

End Test.

(** * Theorems *)

(** ** The name comparison *)

Lemma NameMatch_names o t :
  names o t -> NameMatch o t = (true, set_matched_name (which_name o t) o).
Proof.
  unfold NameMatch, which_name, names.
  destruct (String.eqb_spec (name o) t) as [E|E]; [reflexivity|].
  destruct (String.eqb_spec (alt_name o) t) as [E'|E']; [reflexivity|].
  intros [->| ->]; congruence.
Qed.

Lemma NameMatch_other o t : ~ names o t -> NameMatch o t = (false, o).
Proof.
  unfold NameMatch, names. intros H.
  destruct (String.eqb_spec (name o) t) as [E|E]; [destruct H; auto|].
  destruct (String.eqb_spec (alt_name o) t) as [E'|E']; [destruct H; auto|].
  reflexivity.
Qed.

(** ** The descriptor under [update_numeric_value_n_status] *)

Lemma update_numeric_value_n_status_total U val o :
  index (min o) = index (value o) -> index (max o) = index (value o) ->
  is_Some (update_numeric_value_n_status U val o).
Proof.
  unfold update_numeric_value_n_status. intros Hmin Hmax.
  destruct (value o), (min o), (max o); simplify_eq/=; eauto.
Qed.

Lemma clamp_status U T val lo hi :
  (clamp U T val lo hi).1 = ClampedMin \/
  (clamp U T val lo hi).1 = ClampedMax \/
  (clamp U T val lo hi).1 = Parsed.
Proof.
  unfold clamp; simpl.
  repeat match goal with |- context [if ?c then _ else _] => destruct c end; auto.
Qed.

(** It leaves one of the three statuses of an updated value, and touches
    nothing but status and value. *)
Lemma update_numeric_value_n_status_frame U val o o' :
  update_numeric_value_n_status U val o = Some o' ->
  (status o' = ClampedMin \/ status o' = ClampedMax \/ status o' = Parsed) /\
  name o' = name o /\ alt_name o' = alt_name o /\
  matched_name o' = matched_name o /\ base o' = base o /\
  default_val o' = default_val o /\ min o' = min o /\ max o' = max o.
Proof.
  unfold update_numeric_value_n_status. intros H.
  assert (forall T,
    (get T (min o) ≫= λ lo, get T (max o) ≫= λ hi,
       let c := clamp U T val lo hi in
       Some (set_value (inj T c.2) (set_status c.1 o))) = Some o' ->
    (status o' = ClampedMin \/ status o' = ClampedMax \/ status o' = Parsed) /\
    name o' = name o /\ alt_name o' = alt_name o /\
    matched_name o' = matched_name o /\ base o' = base o /\
    default_val o' = default_val o /\ min o' = min o /\ max o' = max o) as HT.
  { intros T HT.
    destruct (get T (min o)) as [lo|]; [|done].
    destruct (get T (max o)) as [hi|]; [|done].
    pose proof (clamp_status U T val lo hi) as Hs.
    simplify_eq/=. auto 10. }
  destruct (index (value o)) as [|[|[|[|[|[|[|k]]]]]]]; eauto;
    simplify_eq/=; auto 10.
Qed.

(** On a boolean descriptor the call [update_numeric_value_n_status(true)]
    takes the [default] case. *)
Lemma update_numeric_value_n_status_bool o :
  index (value o) = 0 ->
  update_numeric_value_n_status Tbool true o =
  Some (set_status Parsed (set_value (VBool true) o)).
Proof. unfold update_numeric_value_n_status. by intros ->. Qed.

(** *** Integer descriptors *)

Lemma wrap_signed_id w z :
  (0 < w)%Z -> (- 2 ^ (w - 1) <= z < 2 ^ (w - 1))%Z -> wrap_signed w z = z.
Proof.
  intros Hw Hz. unfold wrap_signed.
  assert (2 ^ w = 2 * 2 ^ (w - 1))%Z as E.
  { rewrite <- Z.pow_succ_r by lia. f_equal. lia. }
  rewrite Z.mod_small; lia.
Qed.

Lemma wrap_unsigned_id w z : (0 <= z < 2 ^ w)%Z -> wrap_unsigned w z = z.
Proof. intros Hz. unfold wrap_unsigned. by rewrite Z.mod_small. Qed.

Lemma int_clamp_cases v lo hi :
  (int_clamp v lo hi).2 = lo \/ (int_clamp v lo hi).2 = hi \/
  ((lo <= v <= hi)%Z /\ (int_clamp v lo hi).2 = v).
Proof.
  unfold int_clamp; simpl.
  destruct (Z.ltb_spec v lo); auto.
  destruct (Z.ltb_spec hi v); auto.
Qed.

(** For a 64-bit value and bounds of an integer type [T], the conversions
    in [clamp] lose nothing: it is the rule on mathematical integers. *)
Lemma clamp_integer T (val : Z) (lo hi : carrier T) l h :
  in_range Tint64 val ->
  in_range T lo -> in_range T hi ->
  to_num T lo = Int l -> to_num T hi = Int h ->
  T <> Tbool ->
  (clamp Tint64 T val lo hi).1 = (int_clamp val l h).1 /\
  to_num T (clamp Tint64 T val lo hi).2 = Int (int_clamp val l h).2.
Proof.
  intros Hv Hlo Hhi El Eh HT.
  pose proof (int_clamp_cases val l h) as Hc.
  destruct T; try done; simpl in *; simplify_eq/=;
    unfold clamp, convert, int_clamp in *; simpl in *;
    rewrite !(wrap_signed_id 64) by lia;
    (split; [done|]); f_equal;
    (apply wrap_signed_id || apply wrap_unsigned_id); lia.
Qed.

(** *** Double descriptors *)

(** Rounding a value to the format it is canonical in changes nothing. *)
Lemma binary_round_valid prec emax s m e :
  bounded prec emax m e = true ->
  binary_round prec emax s m e = S754_finite s m e.
Proof.
  unfold bounded, canonical_mantissa. intros H.
  apply andb_true_iff in H as [Hc He]. apply Z.eqb_eq in Hc.
  unfold binary_round. rewrite Hc.
  unfold shl_align. rewrite Z.sub_diag.
  unfold binary_round_aux, shr_fexp. cbn [Zdigits2 shr_record_of_loc].
  rewrite Hc, Z.sub_diag. cbn [shr shr_m loc_of_shr_record round_nearest_even].
  cbn [Zdigits2]. rewrite Hc, Z.sub_diag. cbn [shr shr_m].
  by rewrite He.
Qed.

Lemma round_to_valid T f :
  valid_binary (prec T) (emax T) f = true -> round_to T f = f.
Proof. destruct f; try done. simpl. apply binary_round_valid. Qed.

Lemma SFcompare_antisym f1 f2 :
  SFcompare f2 f1 = CompOpp <$> SFcompare f1 f2.
Proof.
  destruct f1 as [s1|s1| |s1 m1 e1], f2 as [s2|s2| |s2 m2 e2]; simpl; try done;
    try (by destruct s1, s2); try (by destruct s1); try (by destruct s2).
  f_equal. destruct s1, s2; try done;
    rewrite (Z.compare_antisym e1 e2);
    destruct (e1 ?= e2)%Z; simpl; try done;
    by rewrite (Pos.compare_cont_antisym m1 m2 Eq).
Qed.

Lemma SFcompare_refl f : is_nan f = false -> SFcompare f f = Some Eq.
Proof.
  destruct f as [s|s| |s m e]; simpl; try done; try (by destruct s).
  intros _. rewrite Z.compare_refl, Pos.compare_cont_refl. by destruct s.
Qed.

Lemma SFcompare_not_nan f1 f2 :
  is_nan f1 = false -> is_nan f2 = false -> is_Some (SFcompare f1 f2).
Proof. destruct f1, f2; simpl; try done; eauto. Qed.

Lemma SFleb_not_nan f1 f2 :
  SFleb f1 f2 = true -> is_nan f1 = false /\ is_nan f2 = false.
Proof. unfold SFleb. by destruct f1, f2. Qed.

Lemma SFleb_refl f : is_nan f = false -> SFleb f f = true.
Proof. intros H. unfold SFleb. by rewrite SFcompare_refl. Qed.

(** For numbers, [not (a < b)] is [b <= a]. *)
Lemma SFltb_false_SFleb a b :
  is_nan a = false -> is_nan b = false -> SFltb a b = false -> SFleb b a = true.
Proof.
  intros Ha Hb. unfold SFltb, SFleb. rewrite (SFcompare_antisym a b).
  destruct (SFcompare_not_nan a b Ha Hb) as [c ->]. by destruct c.
Qed.

Lemma clamp_double (v lo hi : spec_float) :
  in_range Tdouble v -> in_range Tdouble lo -> in_range Tdouble hi ->
  clamp Tdouble Tdouble v lo hi = double_clamp v lo hi.
Proof.
  simpl. intros Hv Hlo Hhi. unfold clamp, convert, double_clamp. simpl.
  rewrite !(round_to_valid Tdouble) by done.
  f_equal. apply (round_to_valid Tdouble).
  by repeat match goal with |- context [if ?c then _ else _] => destruct c end.
Qed.

(** *** Float descriptors

    [clamp] compares a [double] with the bounds of a [float] descriptor
    widened to [double], and narrows what it keeps to [float].  Widening is
    exact and narrowing rounds to a nearest [float], so the value kept lies
    within the bounds.  The numbers are compared through [scaled]. *)

Section FloatNumbers.

Local Open Scope Z_scope.


Lemma digits2_pos_bounds m :
  2 ^ (Zpos (digits2_pos m) - 1) <= Zpos m < 2 ^ Zpos (digits2_pos m).
Proof.
  induction m as [m IH|m IH|]; cbn [digits2_pos].
  - rewrite Pos2Z.inj_succ, Z.pow_succ_r by lia.
    replace (Z.succ (Zpos (digits2_pos m)) - 1) with (Z.succ (Zpos (digits2_pos m) - 1)) by lia.
    rewrite Z.pow_succ_r by lia. lia.
  - rewrite Pos2Z.inj_succ, Z.pow_succ_r by lia.
    replace (Z.succ (Zpos (digits2_pos m)) - 1) with (Z.succ (Zpos (digits2_pos m) - 1)) by lia.
    rewrite Z.pow_succ_r by lia. lia.
  - simpl. lia.
Qed.

Lemma pow2_pos x : 0 <= x -> 0 < 2 ^ x.
Proof. intros. by apply Z.pow_pos_nonneg. Qed.

Lemma pow2_le a b : 0 <= a <= b -> 2 ^ a <= 2 ^ b.
Proof. intros. apply Z.pow_le_mono_r; lia. Qed.

Lemma pow2_lt a b : 0 <= a < b -> 2 ^ a < 2 ^ b.
Proof. intros. apply Z.pow_lt_mono_r; lia. Qed.

Lemma pow2_add a b : 0 <= a -> 0 <= b -> 2 ^ (a + b) = 2 ^ a * 2 ^ b.
Proof. intros. by apply Z.pow_add_r. Qed.

Lemma float_format : format_ok 24 128.
Proof. unfold format_ok, emin. lia. Qed.

Lemma double_format : format_ok 53 1024.
Proof. unfold format_ok, emin. lia. Qed.

Lemma bounded_facts p em m e :
  bounded p em m e = true ->
  Zpos (digits2_pos m) <= p /\ emin p em <= e /\ e <= em - p /\
  (emin p em < e -> Zpos (digits2_pos m) = p) /\
  fexp p em (Zpos (digits2_pos m) + e) = e.
Proof.
  unfold bounded, canonical_mantissa, fexp. intros H.
  apply andb_true_iff in H as [Hc He].
  apply Z.eqb_eq in Hc. apply Z.leb_le in He. lia.
Qed.

Lemma bounded_scaled p em m e :
  format_ok p em -> bounded p em m e = true ->
  0 < Zpos m * 2 ^ (e + 1074) < 2 ^ (em + 1074).
Proof.
  intros (Hp & Hmin & Hem) (Hd & He1 & He2 & _)%bounded_facts.
  pose proof (digits2_pos_bounds m) as [_ Hm].
  pose proof (pow2_pos (e + 1074) ltac:(lia)).
  split; [lia|].
  apply Z.lt_le_trans with (2 ^ p * 2 ^ (e + 1074)).
  - apply Z.mul_lt_mono_pos_r; [done|].
    eapply Z.lt_le_trans; [exact Hm|]. apply pow2_le. lia.
  - rewrite <- pow2_add by lia. apply pow2_le. lia.
Qed.

Lemma bounded_scaled_lt p em m1 e1 m2 e2 :
  format_ok p em ->
  bounded p em m1 e1 = true -> bounded p em m2 e2 = true ->
  e1 < e2 ->
  Zpos m1 * 2 ^ (e1 + 1074) < Zpos m2 * 2 ^ (e2 + 1074).
Proof.
  intros (Hp & Hmin & Hem) (Hd1 & He1 & _)%bounded_facts (_ & _ & _ & Hd2 & _)%bounded_facts Hlt.
  pose proof (digits2_pos_bounds m1) as [_ Hm1].
  pose proof (digits2_pos_bounds m2) as [Hm2 _].
  rewrite Hd2 in Hm2 by lia.
  apply Z.lt_le_trans with (2 ^ p * 2 ^ (e1 + 1074)).
  - apply Z.mul_lt_mono_pos_r; [apply pow2_pos; lia|].
    eapply Z.lt_le_trans; [exact Hm1|]. apply pow2_le. lia.
  - replace (2 ^ p * 2 ^ (e1 + 1074)) with (2 ^ (p - 1) * 2 ^ (e1 + 1 + 1074)).
    + apply Z.mul_le_mono_nonneg; [apply Z.lt_le_incl, pow2_pos; lia|done| |].
      * apply Z.lt_le_incl, pow2_pos; lia.
      * apply pow2_le. lia.
    + rewrite <- !pow2_add by lia. f_equal. lia.
Qed.

Lemma bounded_scaled_huge p em m e :
  format_ok p em -> bounded p em m e = true -> Zpos m * 2 ^ (e + 1074) < huge.
Proof.
  intros Hf H. pose proof (bounded_facts _ _ _ _ H) as (_ & ? & ? & _).
  destruct Hf as (Hp & Hmin & Hem).
  apply bounded_scaled in H; [|done]. eapply Z.lt_le_trans; [apply H|].
  unfold huge. apply pow2_le. lia.
Qed.

Ltac cmp :=
  f_equal; symmetry;
  first [apply Z.compare_eq_iff; lia | apply Z.compare_gt_iff; lia
        | apply Z.compare_lt_iff; lia].

(** On the numbers of one format, [SFcompare] is the order of the values. *)
Lemma SFcompare_scaled p em a b :
  format_ok p em ->
  valid_binary p em a = true -> valid_binary p em b = true ->
  is_nan a = false -> is_nan b = false ->
  SFcompare a b = Some (scaled a ?= scaled b).
Proof.
  intros Hf. assert (0 < huge) as Hh by (apply pow2_pos; lia).
  destruct a as [sa|sa| |sa ma ea], b as [sb|sb| |sb mb eb]; try done;
    cbn [valid_binary SFcompare scaled]; intros Ha Hb _ _;
    try (pose proof (bounded_scaled _ _ _ _ Hf Ha); pose proof (bounded_scaled_huge _ _ _ _ Hf Ha));
    try (pose proof (bounded_scaled _ _ _ _ Hf Hb); pose proof (bounded_scaled_huge _ _ _ _ Hf Hb)).
  1-7: by repeat match goal with s : bool |- _ => destruct s end; cmp.
  destruct sa, sb; [|cmp|cmp|].
  - destruct (Z.compare_spec ea eb) as [->|Hlt|Hgt].
    + rewrite Pos.compare_cont_spec. cbn [Pos.switch_Eq].
      change (ma ?= mb)%positive with (Zpos ma ?= Zpos mb).
      pose proof (bounded_facts _ _ _ _ Hb) as (_ & ? & _); destruct Hf as (? & ? & ?).
      pose proof (pow2_pos (eb + 1074) ltac:(lia)) as Hpos.
      destruct (Z.compare_spec (Zpos ma) (Zpos mb)) as [E|E|E]; cbn [CompOpp];
        f_equal; symmetry;
        first [apply Z.compare_eq_iff; nia | apply Z.compare_gt_iff; nia
              | apply Z.compare_lt_iff; nia].
    + pose proof (bounded_scaled_lt _ _ _ _ _ _ Hf Ha Hb Hlt). cmp.
    + pose proof (bounded_scaled_lt _ _ _ _ _ _ Hf Hb Ha Hgt). cmp.
  - destruct (Z.compare_spec ea eb) as [->|Hlt|Hgt].
    + rewrite Pos.compare_cont_spec. cbn [Pos.switch_Eq].
      change (ma ?= mb)%positive with (Zpos ma ?= Zpos mb).
      pose proof (bounded_facts _ _ _ _ Hb) as (_ & ? & _); destruct Hf as (? & ? & ?).
      pose proof (pow2_pos (eb + 1074) ltac:(lia)) as Hpos.
      destruct (Z.compare_spec (Zpos ma) (Zpos mb)) as [E|E|E];
        f_equal; symmetry;
        first [apply Z.compare_eq_iff; nia | apply Z.compare_gt_iff; nia
              | apply Z.compare_lt_iff; nia].
    + pose proof (bounded_scaled_lt _ _ _ _ _ _ Hf Ha Hb Hlt). cmp.
    + pose proof (bounded_scaled_lt _ _ _ _ _ _ Hf Hb Ha Hgt). cmp.
Qed.


(** *** Shifting and rounding *)
Lemma iter_pos_nat {A} (f : A -> A) p x :
  SpecFloat.iter_pos f p x = Nat.iter (Pos.to_nat p) f x.
Proof.
  revert x. induction p as [p IH|p IH|]; intros x; cbn [SpecFloat.iter_pos].
  - rewrite !IH, Pos2Nat.inj_xI.
    replace (S (2 * Pos.to_nat p))%nat with (Pos.to_nat p + S (Pos.to_nat p))%nat by lia.
    by rewrite Nat.iter_add, Nat.iter_succ_r.
  - rewrite !IH, Pos2Nat.inj_xO.
    replace (2 * Pos.to_nat p)%nat with (Pos.to_nat p + Pos.to_nat p)%nat by lia.
    by rewrite Nat.iter_add.
  - done.
Qed.

Lemma shr_1_spec m r s :
  0 <= m -> shr_1 (Build_shr_record m r s) = Build_shr_record (m / 2) (Z.odd m) (r || s).
Proof.
  intros Hm. destruct m as [|[q|q|]|q]; try done; cbn [shr_1 Z.odd]; f_equal.
  - rewrite Pos2Z.inj_xI. apply Z.div_unique with 1; lia.
  - rewrite Pos2Z.inj_xO. apply Z.div_unique with 0; lia.
Qed.

Lemma iter_shr_1 n M :
  0 <= M ->
  exists r s,
    Nat.iter n shr_1 (Build_shr_record M false false)
    = Build_shr_record (M / 2 ^ Z.of_nat n) r s /\
    (r || s = false <-> M mod 2 ^ Z.of_nat n = 0).
Proof.
  intros HM. induction n as [|n (r & s & E & Hrs)].
  - exists false, false. change (Nat.iter 0 shr_1 ?x) with x. change (Z.of_nat 0) with 0. split; [by rewrite Z.div_1_r|].
    by rewrite Z.mod_1_r.
  - rewrite Nat.iter_succ, E.
    pose proof (pow2_pos (Z.of_nat n) ltac:(lia)) as Hpos.
    assert (0 <= M / 2 ^ Z.of_nat n) as Hq by (apply Z.div_pos; lia).
    rewrite shr_1_spec by done.
    eexists _, _. split.
    + f_equal. rewrite Nat2Z.inj_succ, Z.pow_succ_r by lia.
      rewrite Z.div_div by lia. f_equal. lia.
    + rewrite Nat2Z.inj_succ, Z.pow_succ_r by lia.
      replace (2 * 2 ^ Z.of_nat n) with (2 ^ Z.of_nat n * 2) by lia.
      rewrite Z.rem_mul_r by lia.
      pose proof (Z.mod_pos_bound M (2 ^ Z.of_nat n) Hpos).
      pose proof (Z.mod_pos_bound (M / 2 ^ Z.of_nat n) 2 ltac:(lia)).
      rewrite orb_false_iff, Hrs. rewrite (Zmod_odd (M / 2 ^ Z.of_nat n)).
      destruct (Z.odd _); split; intros; try lia; nia.
Qed.

Lemma shr_spec M E n :
  0 <= M -> 0 <= n ->
  exists r s,
    shr (Build_shr_record M false false) E n
    = (Build_shr_record (M / 2 ^ n) r s, E + n) /\
    (r || s = false <-> M mod 2 ^ n = 0).
Proof.
  intros HM Hn. destruct n as [|k|k]; [| |lia].
  - exists false, false. cbn [shr]. rewrite Z.div_1_r, Z.add_0_r, Z.mod_1_r. done.
  - cbn [shr]. rewrite iter_pos_nat.
    destruct (iter_shr_1 (Pos.to_nat k) M HM) as (r & s & E1 & Hrs).
    rewrite positive_nat_Z in *. exists r, s. by rewrite E1.
Qed.

Lemma round_nearest_even_bounds m r s :
  m <= round_nearest_even m (loc_of_shr_record (Build_shr_record m r s)) <= m + 1 /\
  (r || s = false ->
   round_nearest_even m (loc_of_shr_record (Build_shr_record m r s)) = m).
Proof.
  destruct r, s; cbn; try destruct (Z.even m); split; try done; lia.
Qed.

Lemma digits2_pos_unique m k :
  2 ^ (k - 1) <= Zpos m < 2 ^ k -> Zpos (digits2_pos m) = k.
Proof.
  intros [H1 H2]. pose proof (digits2_pos_bounds m) as [H3 H4].
  assert (0 < k).
  { destruct (Z.lt_trichotomy k 0) as [?|[->|?]]; [|simpl in H2; lia|done].
    rewrite Z.pow_neg_r in H2; lia. }
  destruct (Z.lt_trichotomy (Zpos (digits2_pos m)) k) as [?|[?|?]]; [|done|].
  - pose proof (pow2_le (Zpos (digits2_pos m)) (k - 1) ltac:(lia)). lia.
  - pose proof (pow2_le k (Zpos (digits2_pos m) - 1) ltac:(lia)). lia.
Qed.

Lemma shr_nonpos mrs e n : n <= 0 -> shr mrs e n = (mrs, e).
Proof. destruct n; [done|lia|done]. Qed.

Lemma pow2_lt_inv a b : 0 <= b -> 2 ^ a < 2 ^ b -> a < b.
Proof.
  intros Hb H. destruct (Z.lt_ge_cases a b) as [|Hge]; [done|].
  pose proof (pow2_le b a ltac:(lia)). lia.
Qed.


(** The second half of [binary_round_aux]: a rounded mantissa [m1] at the
    exponent [e1] of the format is renormalised when the rounding carried,
    and tested against the largest exponent. *)
Lemma binary_round_aux_renormalise p em s m1 e1 r :
  format_ok p em ->
  0 <= m1 <= 2 ^ p -> emin p em <= e1 ->
  (emin p em < e1 -> 2 ^ (p - 1) <= m1) ->
  r = (let '(mrs, e) := shr_fexp p em m1 e1 loc_Exact in
       match shr_m mrs with
       | Z0 => S754_zero s
       | Zpos m => if Z.leb e (em - p) then S754_finite s m e else S754_infinity s
       | Zneg _ => S754_nan
       end) ->
  (m1 = 0 /\ r = S754_zero s) \/
  (exists m e, r = S754_finite s m e /\ bounded p em m e = true /\
               Zpos m * 2 ^ (e + 1074) = m1 * 2 ^ (e1 + 1074)) \/
  (r = S754_infinity s /\ 2 ^ (em + 1074) <= m1 * 2 ^ (e1 + 1074)).
Proof.
  intros (Hp & Hmin & Hem) [H0 Hle] He1 Hnorm ->. unfold shr_fexp. cbn [shr_record_of_loc].
  assert (emin p em <= em - p) as Hrange by (unfold emin; lia).
  destruct m1 as [|m|m]; [| |lia].
  - left. split; [done|]. cbn [Zdigits2]. rewrite shr_nonpos; [done|].
    unfold fexp. lia.
  - right. cbn [Zdigits2].
    pose proof (digits2_pos_bounds m) as [Hd1 Hd2].
    assert (overflow : forall m' e', 
              Zpos m' * 2 ^ (e' + 1074) = Zpos m * 2 ^ (e1 + 1074) ->
              2 ^ (p - 1) <= Zpos m' -> em - p < e' ->
              2 ^ (em + 1074) <= Z.pos m * 2 ^ (e1 + 1074)).
    { intros m' e' <- Hm' He'.
      replace (em + 1074) with (p - 1 + (em - p + 1 + 1074)) by lia.
      rewrite pow2_add by lia.
      apply Z.mul_le_mono_nonneg; [apply Z.lt_le_incl, pow2_pos; lia|done| |].
      - apply Z.lt_le_incl, pow2_pos; lia.
      - apply pow2_le. lia. }
    destruct (Z.eq_dec (Zpos m) (2 ^ p)) as [Em|Hne].
    + (* the rounding carried *)
      assert (Zpos (digits2_pos m) = p + 1) as Hd.
      { apply digits2_pos_unique. rewrite Em.
        replace (p + 1 - 1) with p by lia. split; [lia|]. apply pow2_lt. lia. }
      rewrite Hd.
      replace (fexp p em (p + 1 + e1) - e1) with 1 by (unfold fexp; lia).
      cbn [shr SpecFloat.iter_pos]. rewrite shr_1_spec by lia. cbn [shr_m].
      assert (Zpos m / 2 = 2 ^ (p - 1)) as Ehalf.
      { rewrite Em. replace p with (Z.succ (p - 1)) at 1 by lia.
        rewrite Z.pow_succ_r by lia. rewrite Z.mul_comm, Z.div_mul; lia. }
      rewrite Ehalf.
      pose proof (pow2_pos (p - 1) ltac:(lia)) as Hpos.
      assert (exists m', Zpos m' = 2 ^ (p - 1)) as [m' Em']
        by (destruct (2 ^ (p - 1)); [lia|by eauto|lia]).
      rewrite <- Em'.
      assert (Zpos m' * 2 ^ (e1 + 1 + 1074) = Zpos m * 2 ^ (e1 + 1074)) as Eval.
      { rewrite Em, Em', <- !pow2_add by lia. f_equal. lia. }
      destruct (Z.leb_spec (e1 + 1) (em - p)) as [Hfin|Hinf].
      * left. exists m', (e1 + 1). split; [done|]. split; [|done].
        unfold bounded, canonical_mantissa.
        assert (Zpos (digits2_pos m') = p) as ->.
        { apply digits2_pos_unique. rewrite Em'. split; [lia|]. apply pow2_lt. lia. }
        apply andb_true_iff. split; [apply Z.eqb_eq; unfold fexp; lia|apply Z.leb_le; lia].
      * right. split; [done|]. apply (overflow m' (e1 + 1)); [done|lia|lia].
    + (* no carry *)
      assert (Zpos (digits2_pos m) <= p) as Hd.
      { assert (Zpos (digits2_pos m) - 1 < p); [|lia].
        apply pow2_lt_inv; [lia|]. lia. }
      rewrite shr_nonpos by (unfold fexp; lia). cbn [shr_m].
      destruct (Z.leb_spec e1 (em - p)) as [Hfin|Hinf].
      * left. exists m, e1. split; [done|]. split; [|done].
        unfold bounded, canonical_mantissa.
        apply andb_true_iff. split; [|apply Z.leb_le; lia].
        apply Z.eqb_eq. unfold fexp.
        destruct (Z.eq_dec e1 (emin p em)) as [->|Hn]; [lia|].
        assert (p - 1 < Zpos (digits2_pos m)); [|lia].
        apply pow2_lt_inv; [lia|]. specialize (Hnorm ltac:(lia)). lia.
      * right. split; [done|]. apply (overflow m e1); [done| |lia].
        apply Hnorm. lia.
Qed.


(** Rounding a number of a wider format: the mantissa is shifted right to
    the exponent [e1] of the format, rounded to [m1], one of the two
    integers around the shifted value (and that value itself when the shift
    is exact), and renormalised. *)
Lemma binary_round_narrow p em s M E :
  format_ok p em ->
  -1074 <= E -> E <= fexp p em (Zpos (digits2_pos M) + E) ->
  let e1 := fexp p em (Zpos (digits2_pos M) + E) in
  let q := Zpos M / 2 ^ (e1 - E) in
  exists m1,
    q <= m1 <= q + 1 /\ (Zpos M mod 2 ^ (e1 - E) = 0 -> m1 = q) /\
    ((m1 = 0 /\ binary_round p em s M E = S754_zero s) \/
     (exists m e, binary_round p em s M E = S754_finite s m e /\
                  bounded p em m e = true /\
                  Zpos m * 2 ^ (e + 1074) = m1 * 2 ^ (e1 + 1074)) \/
     (binary_round p em s M E = S754_infinity s /\
      2 ^ (em + 1074) <= m1 * 2 ^ (e1 + 1074))).
Proof.
  intros Hf HE Hle e1 q. pose proof Hf as (Hp & Hmin & Hem).
  destruct (shr_spec (Zpos M) E (e1 - E)) as (r & s' & E1 & Hrs); [lia|lia|].
  pose proof (round_nearest_even_bounds q r s') as [Hb Hex].
  set (m1 := round_nearest_even q _) in *.
  exists m1. split; [done|]. split; [by intros; apply Hex, Hrs|].
  assert (binary_round p em s M E =
          (let '(mrs, e) := shr_fexp p em m1 e1 loc_Exact in
           match shr_m mrs with
           | Z0 => S754_zero s
           | Zpos m =>
               if Z.leb e (em - p) then S754_finite s m e else S754_infinity s
           | Zneg _ => S754_nan
           end)) as HR.
  { unfold binary_round, shl_align. fold e1.
    assert (match e1 - E with Zneg d => (Pos.iter xO M d, e1) | _ => (M, E) end
            = (M, E)) as -> by (destruct (e1 - E) eqn:En; try done; lia).
    unfold binary_round_aux, shr_fexp at 1. cbn [Zdigits2 shr_record_of_loc].
    fold e1. rewrite E1. cbn [shr_m]. fold q.
    by replace (E + (e1 - E)) with e1 by lia. }
  pose proof (pow2_pos (e1 - E) ltac:(lia)) as HN.
  pose proof (digits2_pos_bounds M) as [HM1 HM2].
  assert (0 <= q) as Hq0 by (apply Z.div_pos; lia).
  assert (emin p em <= e1) as He1 by (unfold e1, fexp; lia).
  apply (binary_round_aux_renormalise p em s m1 e1); [done| |done| |exact HR].
  - split; [lia|].
    assert (q < 2 ^ p); [|lia].
    apply Z.div_lt_upper_bound; [done|].
    rewrite <- pow2_add by lia.
    eapply Z.lt_le_trans; [exact HM2|]. apply pow2_le.
    unfold e1, fexp. lia.
  - intros Hnorm. assert (2 ^ (p - 1) <= q); [|lia].
    apply Z.div_le_lower_bound; [done|].
    rewrite <- pow2_add by lia.
    eapply Z.le_trans; [|exact HM1]. apply pow2_le.
    unfold e1, fexp in *. lia.
Qed.

(** No number of the format lies strictly between the two candidates, so
    the rounded value is on the same side of every number of the format as
    the value rounded. *)
Lemma round_order p em M E m1 mg eg :
  format_ok p em ->
  -1074 <= E -> E <= fexp p em (Zpos (digits2_pos M) + E) ->
  let e1 := fexp p em (Zpos (digits2_pos M) + E) in
  let q := Zpos M / 2 ^ (e1 - E) in
  q <= m1 <= q + 1 -> (Zpos M mod 2 ^ (e1 - E) = 0 -> m1 = q) ->
  bounded p em mg eg = true ->
  let D := Zpos M * 2 ^ (E + 1074) in
  let K := m1 * 2 ^ (e1 + 1074) in
  let G := Zpos mg * 2 ^ (eg + 1074) in
  (G <= D -> G <= K) /\ (D <= G -> K <= G).
Proof.
  intros (Hp & Hmin & Hem) HE Hle e1 q Hm1 Hex Hg D K G.
  pose proof (bounded_facts p em _ _ Hg) as (Hdg & Heg & _).
  assert (emin p em <= e1) as He1 by (unfold e1, fexp; lia).
  pose proof (pow2_pos (e1 - E) ltac:(lia)) as HN.
  pose proof (pow2_pos (E + 1074) ltac:(lia)) as HB.
  pose proof (Z.div_mod (Zpos M) (2 ^ (e1 - E)) ltac:(lia)) as HMq.
  pose proof (Z.mod_pos_bound (Zpos M) (2 ^ (e1 - E)) HN) as Hr.
  fold q in HMq.
  assert (2 ^ (e1 + 1074) = 2 ^ (e1 - E) * 2 ^ (E + 1074)) as HU
    by (rewrite <- pow2_add by lia; f_equal; lia).
  assert (0 <= q) as Hq0 by (apply Z.div_pos; lia).
  subst D K G. rewrite HU.
  set (N := 2 ^ (e1 - E)) in *. set (B := 2 ^ (E + 1074)) in *.
  set (r := Zpos M mod N) in *.
  destruct (Z.le_gt_cases e1 eg) as [Hge|Hlt].
  - assert (2 ^ (eg + 1074) = 2 ^ (eg - e1) * (N * B)) as ->.
    { rewrite <- HU, <- pow2_add by lia. f_equal. lia. }
    pose proof (pow2_pos (eg - e1) ltac:(lia)) as HT.
    set (T := 2 ^ (eg - e1)) in *.
    set (k := Zpos mg * T).
    replace (Zpos mg * (T * (N * B))) with (k * N * B) by (unfold k; lia).
    rewrite HMq.
    split; intros H.
    + assert (k <= q); [|nia].
      assert (k * N < (q + 1) * N); [|nia]. nia.
    + destruct (Z.eq_dec r 0) as [Hr0|Hr0].
      * rewrite (Hex Hr0). nia.
      * assert (q + 1 <= k); [|nia].
        assert (q * N < k * N); [|nia]. nia.
  - assert (e1 = Zpos (digits2_pos M) + E - p) as He1' by (unfold e1, fexp in *; lia).
    pose proof (digits2_pos_bounds M) as [HM1 _].
    pose proof (digits2_pos_bounds mg) as [_ Hmg].
    assert (2 ^ (p - 1) <= q) as Hq.
    { apply Z.div_le_lower_bound; [done|]. unfold N.
      rewrite <- pow2_add by lia.
      eapply Z.le_trans; [|exact HM1]. apply pow2_le. lia. }
    assert (Zpos mg * 2 ^ (eg + 1074) < 2 ^ (p - 1) * (N * B)) as HG.
    { apply Z.lt_le_trans with (2 ^ p * 2 ^ (eg + 1074)).
      - apply Z.mul_lt_mono_pos_r; [apply pow2_pos; lia|].
        eapply Z.lt_le_trans; [exact Hmg|]. apply pow2_le. lia.
      - rewrite <- HU, <- !pow2_add by lia. apply pow2_le. lia. }
    pose proof (pow2_pos (p - 1) ltac:(lia)) as HP.
    assert (0 < N * B) as HNB by lia.
    rewrite HMq. split; intros H; nia.
Qed.


(** *** [float] and [double] *)

Lemma bounded_scaled_inj p em m1 e1 m2 e2 :
  format_ok p em ->
  bounded p em m1 e1 = true -> bounded p em m2 e2 = true ->
  Zpos m1 * 2 ^ (e1 + 1074) = Zpos m2 * 2 ^ (e2 + 1074) ->
  m1 = m2 /\ e1 = e2.
Proof.
  intros Hf H1 H2 E.
  destruct (Z.lt_trichotomy e1 e2) as [Hlt|[->|Hlt]].
  - pose proof (bounded_scaled_lt p em _ _ _ _ Hf H1 H2 Hlt). lia.
  - split; [|done]. destruct Hf as (? & ? & ?).
    pose proof (bounded_facts p em _ _ H2) as (_ & ? & _).
    pose proof (pow2_pos (e2 + 1074) ltac:(lia)).
    apply Z.mul_reg_r in E; [|lia]. by injection E.
  - pose proof (bounded_scaled_lt p em _ _ _ _ Hf H2 H1 Hlt). lia.
Qed.

Lemma pos_iter_xO m d : Zpos (Pos.iter xO m d) = Zpos m * 2 ^ Zpos d.
Proof.
  induction d as [|d IH] using Pos.peano_ind.
  - simpl. lia.
  - rewrite Pos.iter_succ, Pos2Z.inj_xO, IH, Pos2Z.inj_succ, Z.pow_succ_r; lia.
Qed.

Lemma binary_round_aux_valid prec emax s m e :
  bounded prec emax m e = true ->
  binary_round_aux prec emax s (Zpos m) e loc_Exact = S754_finite s m e.
Proof.
  intros H. pose proof (binary_round_valid prec emax s m e H) as E.
  unfold bounded, canonical_mantissa in H.
  apply andb_true_iff in H as [Hc _]. apply Z.eqb_eq in Hc.
  unfold binary_round, shl_align in E. by rewrite Hc, Z.sub_diag in E.
Qed.

(** Widening a [float] to [double] is exact. *)
Lemma widen_float f :
  valid_binary 24 128 f = true ->
  valid_binary 53 1024 (round_to Tdouble f) = true /\
  scaled (round_to Tdouble f) = scaled f /\
  is_nan (round_to Tdouble f) = is_nan f.
Proof.
  destruct f as [s|s| |s m e]; try done. cbn [valid_binary round_to prec emax].
  intros H.
  pose proof (bounded_facts 24 128 m e H) as (Hd & He & He' & _).
  unfold emin in He.
  pose proof (digits2_pos_bounds m) as [Hm1 Hm2].
  set (dm := Zpos (digits2_pos m)) in *.
  assert (0 < dm) as Hdm by (unfold dm; lia).
  unfold binary_round, shl_align. fold dm.
  replace (fexp 53 1024 (dm + e)) with (dm + e - 53) by (unfold fexp, emin; lia).
  destruct (dm + e - 53 - e) as [|d|d] eqn:Ed; [lia|lia|].
  assert (Zpos d = 53 - dm) as Hdd by lia.
  pose proof (pos_iter_xO m d) as Em'.
  set (m' := Pos.iter xO m d) in *.
  pose proof (pow2_pos (Zpos d) ltac:(lia)) as Hpd.
  assert (bounded 53 1024 m' (dm + e - 53) = true) as Hb.
  { unfold bounded, canonical_mantissa.
    assert (Zpos (digits2_pos m') = 53) as ->.
    { apply digits2_pos_unique. rewrite Em'. split.
      - replace (53 - 1) with (dm - 1 + Zpos d) by lia.
        rewrite pow2_add by lia. nia.
      - replace 53 with (dm + Zpos d) at 1 by lia.
        rewrite pow2_add by lia. nia. }
    apply andb_true_iff. split; [apply Z.eqb_eq|apply Z.leb_le]; unfold fexp, emin; lia. }
  rewrite binary_round_aux_valid by done.
  split; [done|]. split; [|done]. cbn [scaled]. f_equal.
  rewrite Em', <- Z.mul_assoc. f_equal.
  rewrite <- pow2_add by lia. f_equal. lia.
Qed.

Lemma narrow_precondition M E :
  bounded 53 1024 M E = true ->
  -1074 <= E /\ E <= fexp 24 128 (Zpos (digits2_pos M) + E).
Proof.
  intros H. pose proof (bounded_facts 53 1024 M E H) as (Hd & He & _ & Hn & _).
  unfold fexp, emin in *. lia.
Qed.

(** Narrowing a [double] to [float] gives a [float]. *)
Lemma round_to_float_valid d :
  valid_binary 53 1024 d = true ->
  valid_binary 24 128 (round_to Tfloat d) = true /\
  is_nan (round_to Tfloat d) = is_nan d.
Proof.
  destruct d as [s|s| |s M E]; try done. cbn [valid_binary round_to prec emax].
  intros H. destruct (narrow_precondition M E H) as [HE Hle].
  destruct (binary_round_narrow 24 128 s M E float_format HE Hle)
    as (m1 & _ & _ & [[_ ->]|[(m & e & -> & Hb & _)|[-> _]]]); done.
Qed.

(** Narrowing keeps the rounded value on the same side of every [float] as
    the value it rounds. *)
Lemma round_to_float_order d g :
  valid_binary 53 1024 d = true -> is_nan d = false ->
  valid_binary 24 128 g = true -> is_nan g = false ->
  (scaled g <= scaled d -> scaled g <= scaled (round_to Tfloat d)) /\
  (scaled d <= scaled g -> scaled (round_to Tfloat d) <= scaled g).
Proof.
  destruct d as [s|s| |s M E]; try done. cbn [valid_binary round_to prec emax].
  intros H _ Hg Hng. destruct (narrow_precondition M E H) as [HE Hle].
  pose proof (bounded_scaled 53 1024 _ _ double_format H) as HD.
  pose proof (bounded_scaled_huge 53 1024 _ _ double_format H) as HDh.
  assert (0 < huge) as Hh by (apply pow2_pos; lia).
  destruct (binary_round_narrow 24 128 s M E float_format HE Hle)
    as (m1 & Hm1 & Hex & Hcases).
  assert (forall mg eg, bounded 24 128 mg eg = true ->
            let G := Zpos mg * 2 ^ (eg + 1074) in
            let K := m1 * 2 ^ (fexp 24 128 (Zpos (digits2_pos M) + E) + 1074) in
            0 < G < 2 ^ (128 + 1074) /\
            (G <= Zpos M * 2 ^ (E + 1074) -> G <= K) /\
            (Zpos M * 2 ^ (E + 1074) <= G -> K <= G)) as Hord.
  { intros mg eg Hb. split; [by apply (bounded_scaled 24 128 _ _ float_format)|].
    by apply (round_order 24 128 _ _ _ _ _ float_format). }
  set (K := m1 * 2 ^ (fexp 24 128 (Zpos (digits2_pos M) + E) + 1074)) in *.
  set (D := Zpos M * 2 ^ (E + 1074)) in *.
  assert (2 ^ (128 + 1074) <= huge) as Hbig by (apply pow2_le; lia).
  destruct Hcases as [[E0 ->]|[(m & e & -> & Hb & EK)|[-> HK]]];
    destruct g as [sg|sg| |sg mg eg]; try done; cbn [scaled valid_binary] in *;
    try (destruct (Hord _ _ Hg) as (HG & Ho1 & Ho2); fold D in Ho1, Ho2;
         set (G := Zpos mg * 2 ^ (eg + 1074)) in *);
    try (pose proof (bounded_scaled 24 128 _ _ float_format Hb);
         pose proof (bounded_scaled_huge 24 128 _ _ float_format Hb);
         rewrite EK in *);
    try (assert (K = 0) as HK0 by (unfold K; lia); rewrite HK0 in *);
    repeat match goal with s : bool |- _ => destruct s end; lia.
Qed.

(** A [float] widened to [double] and narrowed again is itself. *)
Lemma round_trip_float f :
  valid_binary 24 128 f = true -> round_to Tfloat (round_to Tdouble f) = f.
Proof.
  intros Hf. destruct (widen_float f Hf) as (Hv & Es & En).
  destruct f as [s|s| |s m e]; try done.
  cbn [round_to prec emax] in *.
  pose proof (bounded_scaled 24 128 _ _ float_format Hf) as HG.
  pose proof (bounded_scaled_huge 24 128 _ _ float_format Hf) as HGh.
  destruct (binary_round 53 1024 s m e) as [s'|s'| |s' M E] eqn:Ew;
    cbn [valid_binary scaled round_to prec emax is_nan] in *;
    [destruct s; lia|destruct s, s'; lia|done|].
  destruct (narrow_precondition M E Hv) as [HE Hle].
  destruct (binary_round_narrow 24 128 s' M E float_format HE Hle)
    as (m1 & Hm1 & Hex & Hcases).
  destruct (round_order 24 128 M E m1 m e float_format HE Hle Hm1 Hex Hf) as [Ho1 Ho2].
  assert (s' = s) as ->.
  { pose proof (bounded_scaled 53 1024 _ _ double_format Hv).
    destruct s, s'; try done; lia. }
  assert (Zpos M * 2 ^ (E + 1074) = Zpos m * 2 ^ (e + 1074)) as ED
    by (destruct s; lia).
  rewrite ED in *. specialize (Ho1 ltac:(lia)). specialize (Ho2 ltac:(lia)).
  destruct Hcases as [[E0 _]|[(m2 & e2 & -> & Hb & EK)|[_ HK]]].
  - rewrite E0 in *. lia.
  - destruct (bounded_scaled_inj 24 128 m2 e2 m e float_format Hb Hf) as [-> ->]; [lia|done].
  - lia.
Qed.

Lemma SFltb_scaled p em a b :
  format_ok p em ->
  valid_binary p em a = true -> valid_binary p em b = true ->
  is_nan a = false -> is_nan b = false ->
  SFltb a b = bool_decide (scaled a < scaled b).
Proof.
  intros Hf Ha Hb Hna Hnb. unfold SFltb.
  rewrite (SFcompare_scaled p em a b) by done.
  destruct (Z.compare_spec (scaled a) (scaled b));
    symmetry; first [apply bool_decide_eq_true|apply bool_decide_eq_false]; lia.
Qed.

Lemma SFleb_scaled p em a b :
  format_ok p em ->
  valid_binary p em a = true -> valid_binary p em b = true ->
  is_nan a = false -> is_nan b = false ->
  SFleb a b = bool_decide (scaled a <= scaled b).
Proof.
  intros Hf Ha Hb Hna Hnb. unfold SFleb.
  rewrite (SFcompare_scaled p em a b) by done.
  destruct (Z.compare_spec (scaled a) (scaled b));
    symmetry; first [apply bool_decide_eq_true|apply bool_decide_eq_false]; lia.
Qed.

(** The value a float descriptor stores lies within its bounds. *)
Lemma float_clamp_bounds d lo hi :
  valid_binary 53 1024 d = true -> is_nan d = false ->
  valid_binary 24 128 lo = true -> valid_binary 24 128 hi = true ->
  SFleb lo hi = true ->
  SFleb lo (float_clamp d lo hi).2 = true /\
  SFleb (float_clamp d lo hi).2 hi = true.
Proof.
  intros Hd Hnd Hlo Hhi Hle.
  destruct (SFleb_not_nan _ _ Hle) as [Hnlo Hnhi].
  unfold float_clamp, convert. cbn [to_num cast snd].
  destruct (widen_float lo Hlo) as (Hvlo & Eslo & Enlo).
  destruct (widen_float hi Hhi) as (Hvhi & Eshi & Enhi).
  rewrite Hnlo in Enlo. rewrite Hnhi in Enhi.
  rewrite (SFltb_scaled 53 1024 d _ double_format) by done.
  rewrite (SFltb_scaled 53 1024 _ d double_format) by done.
  rewrite Eslo, Eshi.
  destruct (bool_decide_reflect (scaled d < scaled lo)) as [|H1].
  { split; [by apply SFleb_refl|done]. }
  destruct (bool_decide_reflect (scaled hi < scaled d)) as [|H2].
  { split; [done|by apply SFleb_refl]. }
  destruct (round_to_float_valid d Hd) as [Hvr Enr]. rewrite Hnd in Enr.
  destruct (round_to_float_order d lo Hd Hnd Hlo Hnlo) as [Ho _].
  destruct (round_to_float_order d hi Hd Hnd Hhi Hnhi) as [_ Ho'].
  rewrite !(SFleb_scaled 24 128 _ _ float_format) by done.
  split; apply bool_decide_eq_true; lia.
Qed.

(** What [clamp] computes for a float descriptor. *)
Lemma float_clamp_clamped d lo hi :
  valid_binary 24 128 lo = true -> valid_binary 24 128 hi = true ->
  round_to Tfloat (if SFltb d (round_to Tdouble lo) then round_to Tdouble lo
                   else if SFltb (round_to Tdouble hi) d then round_to Tdouble hi
                   else d)
  = (float_clamp d lo hi).2.
Proof.
  intros Hlo Hhi. unfold float_clamp, convert. cbn [to_num cast snd].
  destruct (SFltb d _); [by apply round_trip_float|].
  destruct (SFltb _ d); [by apply round_trip_float|done].
Qed.

(** The clamping rule in full, for a double that is a number and bounds
    [lo <= hi]. *)
Lemma double_clamp_spec d lo hi :
  valid_binary 53 1024 d = true -> is_nan d = false ->
  valid_binary 53 1024 lo = true -> valid_binary 53 1024 hi = true ->
  SFleb lo hi = true ->
  SFleb lo (double_clamp d lo hi).2 = true /\
  SFleb (double_clamp d lo hi).2 hi = true /\
  ((double_clamp d lo hi).1 = ClampedMin <-> SFltb d lo = true) /\
  ((double_clamp d lo hi).1 = ClampedMax <-> SFltb hi d = true) /\
  ((double_clamp d lo hi).1 = Parsed <->
   SFleb lo d = true /\ SFleb d hi = true) /\
  ((double_clamp d lo hi).1 = ClampedMin -> (double_clamp d lo hi).2 = lo) /\
  ((double_clamp d lo hi).1 = ClampedMax -> (double_clamp d lo hi).2 = hi) /\
  ((double_clamp d lo hi).1 = Parsed -> (double_clamp d lo hi).2 = d).
Proof.
  intros Hd Hnd Hlo Hhi Hle.
  destruct (SFleb_not_nan _ _ Hle) as [Hnlo Hnhi].
  revert Hle. unfold double_clamp. cbn [fst snd].
  rewrite !(SFltb_scaled 53 1024 _ _ double_format) by done.
  rewrite !(SFleb_scaled 53 1024 _ _ double_format) by done.
  intros Hle%bool_decide_eq_true.
  destruct (bool_decide_reflect (scaled d < scaled lo)) as [H1|H1];
    [|destruct (bool_decide_reflect (scaled hi < scaled d)) as [H2|H2]];
    repeat match goal with
           | |- context [SFleb ?a ?b] =>
               rewrite (SFleb_scaled 53 1024 a b double_format) by done
           end;
    rewrite ?bool_decide_eq_true;
    split_and!; try (split; intros); try done; try lia.
  all: try (match goal with H : _ /\ _ |- _ => destruct H end);
    first [lia | exfalso; lia | split; lia].
Qed.

(** The same for a float descriptor: the comparisons are those of the
    double with the widened bounds, the stored value is a [float] within
    the bounds. *)
Lemma float_clamp_spec d lo hi :
  valid_binary 53 1024 d = true -> is_nan d = false ->
  valid_binary 24 128 lo = true -> valid_binary 24 128 hi = true ->
  SFleb lo hi = true ->
  let lo' := convert Tfloat Tdouble lo in
  let hi' := convert Tfloat Tdouble hi in
  SFleb lo (float_clamp d lo hi).2 = true /\
  SFleb (float_clamp d lo hi).2 hi = true /\
  ((float_clamp d lo hi).1 = ClampedMin <-> SFltb d lo' = true) /\
  ((float_clamp d lo hi).1 = ClampedMax <-> SFltb hi' d = true) /\
  ((float_clamp d lo hi).1 = Parsed <->
   SFleb lo' d = true /\ SFleb d hi' = true) /\
  ((float_clamp d lo hi).1 = ClampedMin -> (float_clamp d lo hi).2 = lo) /\
  ((float_clamp d lo hi).1 = ClampedMax -> (float_clamp d lo hi).2 = hi) /\
  ((float_clamp d lo hi).1 = Parsed ->
   (float_clamp d lo hi).2 = convert Tdouble Tfloat d).
Proof.
  intros Hd Hnd Hlo Hhi Hle lo' hi'.
  destruct (float_clamp_bounds d lo hi Hd Hnd Hlo Hhi Hle) as [Hb1 Hb2].
  split; [done|]. split; [done|]. clear Hb1 Hb2.
  destruct (SFleb_not_nan _ _ Hle) as [Hnlo Hnhi].
  destruct (widen_float lo Hlo) as (Hvlo & Eslo & Enlo).
  destruct (widen_float hi Hhi) as (Hvhi & Eshi & Enhi).
  rewrite Hnlo in Enlo. rewrite Hnhi in Enhi.
  revert Hle. rewrite (SFleb_scaled 24 128 _ _ float_format) by done.
  intros Hle%bool_decide_eq_true.
  unfold float_clamp. subst lo' hi'. unfold convert. cbn [to_num cast fst snd].
  rewrite !(SFltb_scaled 53 1024 _ _ double_format) by done.
  rewrite !(SFleb_scaled 53 1024 _ _ double_format) by done.
  rewrite Eslo, Eshi.
  destruct (bool_decide_reflect (scaled d < scaled lo)) as [H1|H1];
    [|destruct (bool_decide_reflect (scaled hi < scaled d)) as [H2|H2]];
    repeat match goal with
           | |- context [SFleb ?a ?b] =>
               rewrite (SFleb_scaled 53 1024 a b double_format) by done
           end;
    rewrite ?bool_decide_eq_true;
    split_and!; try (split; intros); try done; try lia.
  all: try (match goal with H : _ /\ _ |- _ => destruct H end);
    first [lia | exfalso; lia | split; lia].
Qed.

End FloatNumbers.

Lemma clamp_float (v lo hi : spec_float) :
  in_range Tdouble v -> in_range Tfloat lo -> in_range Tfloat hi ->
  clamp Tdouble Tfloat v lo hi = float_clamp v lo hi.
Proof.
  simpl. intros Hv Hlo Hhi. unfold clamp, convert, float_clamp.
  cbn [common promote to_num cast lt fst snd].
  rewrite (round_to_valid Tdouble v) by done.
  f_equal. rewrite float_clamp_clamped by done.
  unfold float_clamp, convert. by cbn [to_num cast snd].
Qed.

(** ** [strtoll] *)

(** For a base a descriptor can hold, [strtoll] converts to a [long long]. *)
Lemma strtoll_defined s b :
  (2 <= b <= 36)%Z ->
  exists v n, strtoll s b = Some (v, n) /\ in_range Tint64 v.
Proof.
  intros Hb. unfold strtoll.
  replace ((b =? 0) || ((2 <=? b) && (b <=? 36)))%Z with true
    by (symmetry; apply orb_true_iff; right; apply andb_true_iff; lia).
  assert (in_range Tint64 0%Z) as H0 by (simpl; lia).
  assert (forall z, in_range Tint64 (saturate z)) as Hs
    by (intros z; unfold saturate, LLONG_MIN, LLONG_MAX; simpl; lia).
  repeat match goal with
         | |- context [let '(_, _) := ?x in _] => destruct x
         | |- context [match ?x with _ => _ end] => destruct x
         end; eauto.
Qed.

(** The empty string: nothing is converted, the value is [0] and the end
    pointer is the start. *)
Lemma strtoll_empty b : (2 <= b <= 36)%Z -> strtoll "" b = Some (0%Z, 0).
Proof.
  intros Hb. unfold strtoll.
  replace ((b =? 0) || ((2 <=? b) && (b <=? 36)))%Z with true
    by (symmetry; apply orb_true_iff; right; apply andb_true_iff; lia).
  simpl. by destruct (b =? 0)%Z.
Qed.

(** ** The scan of [Parse] *)

Section ParseFacts.

Variable strtod : string -> spec_float * nat.

Lemma Parse_matched_length type i a args o args' o' :
  Parse_matched strtod type i a args o = Some (args', o') ->
  length args' = length args.
Proof.
  unfold Parse_matched. intros H.
  destruct (Nat.eqb 0 type).
  - destruct (update_numeric_value_n_status Tbool true o); simplify_eq/=.
    by rewrite length_insert.
  - destruct (<[i:=(true, a.2)]> args !! S i) as [v|].
    + assert (length (<[S i:=(true, v.2)]> (<[i:=(true, a.2)]> args)) = length args)
        as L by (by rewrite !length_insert).
      destruct (Nat.eqb 1 type); [by simplify_eq/=|].
      destruct (Nat.leb 2 type && Nat.leb type 4).
      * destruct (deal_integer o v.2); by simplify_eq/=.
      * destruct (deal_floating strtod o v.2); by simplify_eq/=.
    + simplify_eq/=. by rewrite length_insert.
Qed.

(** The loop stops at the first token from [i] on whose text is one of the
    names, whatever its flag; it runs to the end when there is none. *)
Lemma Parse_loop_first n i type args o :
  i <= length args -> length args <= i + n ->
  Parse_loop strtod n i type args o =
  match first_occurrence o (drop i args) with
  | Some (k, a) =>
      '(args', o') ← Parse_matched strtod type (i + k) a args
                       (set_matched_name (which_name o a.2) o);
      Some (i + k, args', o')
  | None => Some (length args, args, o)
  end.
Proof.
  unfold first_occurrence.
  revert i. induction n as [|n IH]; intros i Hi Hn; simpl.
  - assert (i = length args) as -> by lia.
    by rewrite drop_all.
  - destruct (args !! i) as [a|] eqn:Ha.
    + rewrite (drop_S _ _ _ Ha). simpl.
      destruct (decide (names o a.2)) as [Hm|Hm].
      * rewrite (NameMatch_names _ _ Hm). simpl. by rewrite Nat.add_0_r.
      * rewrite (NameMatch_other _ _ Hm).
        apply lookup_lt_Some in Ha.
        rewrite IH by lia.
        destruct (list_find _ (drop (S i) args)) as [[k b]|]; simpl; [|done].
        by rewrite Nat.add_succ_r.
    + apply lookup_ge_None in Ha.
      assert (i = length args) as -> by lia.
      by rewrite drop_all.
Qed.

(** [Parse] in one equation: find the first occurrence, then run the body
    of the match there. *)
Lemma Parse_first p o :
  Parse strtod p o =
  match first_occurrence o (args p) with
  | Some (i, a) =>
      '(args', o') ← Parse_matched strtod (index (value o)) i a (args p)
                       (set_matched_name (which_name o a.2) o);
      Some (status o', mkParser args' (exec_name p), o')
  | None => Some (NotFound, p, set_status NotFound o)
  end.
Proof.
  unfold Parse. rewrite Parse_loop_first by (simpl; lia).
  rewrite drop_0.
  destruct (first_occurrence o (args p)) as [[i a]|] eqn:Hf; simpl.
  - destruct (Parse_matched _ _ _ _ _ _) as [[args' o']|] eqn:Hm; simpl; [|done].
    apply Parse_matched_length in Hm.
    apply list_find_Some in Hf as (Hl%lookup_lt_Some & _).
    destruct (Nat.eqb_spec i (length args')); [lia|done].
  - rewrite Nat.eqb_refl. by destruct p.
Qed.

(** *** The body of the match, case by case *)

Lemma Parse_matched_bool i a args o :
  index (value o) = 0 ->
  Parse_matched strtod (index (value o)) i a args o =
  Some (<[i := (true, a.2)]> args, set_status Parsed (set_value (VBool true) o)).
Proof.
  intros E. unfold Parse_matched. rewrite E. simpl.
  by rewrite update_numeric_value_n_status_bool.
Qed.

Lemma Parse_matched_last type i a args o :
  type <> 0 -> length args <= S i ->
  Parse_matched strtod type i a args o =
  Some (<[i := (true, a.2)]> args, set_status ValueNotFound o).
Proof.
  intros Ht Hl. unfold Parse_matched.
  destruct (Nat.eqb_spec 0 type) as [|_]; [lia|].
  rewrite lookup_ge_None_2; [done|]. by rewrite length_insert.
Qed.

Lemma Parse_matched_value type i a args o g v :
  type <> 0 -> args !! S i = Some (g, v) ->
  Parse_matched strtod type i a args o =
  let args' := <[S i := (true, v)]> (<[i := (true, a.2)]> args) in
  if Nat.eqb 1 type then
    Some (args', set_status Parsed (set_value (VString v) o))
  else if Nat.leb 2 type && Nat.leb type 4 then
    o' ← deal_integer o v; Some (args', o')
  else
    o' ← deal_floating strtod o v; Some (args', o').
Proof.
  intros Ht Hv. unfold Parse_matched.
  destruct (Nat.eqb_spec 0 type) as [|_]; [lia|].
  rewrite list_lookup_insert_ne by lia. by rewrite Hv.
Qed.

(** *** [Parse] returns *)

Lemma wf_set_matched_name m o : wf o -> wf (set_matched_name m o).
Proof. by intros []. Qed.

Lemma deal_integer_total o v : wf o -> is_Some (deal_integer o v).
Proof.
  intros Hwf. unfold deal_integer.
  destruct (strtoll_defined v (base o) (wf_base _ Hwf)) as (x & n & -> & _).
  simpl. destruct (Nat.ltb n (String.length v)); [by eauto|].
  apply update_numeric_value_n_status_total; apply Hwf.
Qed.

Lemma deal_floating_total o v : wf o -> is_Some (deal_floating strtod o v).
Proof.
  intros Hwf. unfold deal_floating.
  destruct (strtod v) as [d n].
  destruct (Nat.ltb n (String.length v) || is_nan d); [by eauto|].
  apply update_numeric_value_n_status_total; apply Hwf.
Qed.

Lemma Parse_matched_total type i a args o :
  wf o -> is_Some (Parse_matched strtod type i a args o).
Proof.
  intros Hwf. unfold Parse_matched.
  destruct (Nat.eqb 0 type).
  - destruct (update_numeric_value_n_status_total Tbool true o) as [o' ->];
      [apply Hwf..|]. by eauto.
  - destruct (_ !! S i) as [v|]; [|by eauto].
    destruct (Nat.eqb 1 type); [by eauto|].
    destruct (Nat.leb 2 type && Nat.leb type 4).
    + destruct (deal_integer_total o v.2 Hwf) as [o' ->]. by eauto.
    + destruct (deal_floating_total o v.2 Hwf) as [o' ->]. by eauto.
Qed.

Lemma Parse_total p o : wf o -> is_Some (Parse strtod p o).
Proof.
  intros Hwf. rewrite Parse_first.
  destruct (first_occurrence o (args p)) as [[i a]|]; [|by eauto].
  destruct (Parse_matched_total (index (value o)) i a (args p)
              (set_matched_name (which_name o a.2) o)) as [[args' o'] ->];
    [by apply wf_set_matched_name|]. by eauto.
Qed.

(** *** The status after the body of the match *)

Lemma deal_integer_frame o v o' :
  deal_integer o v = Some o' ->
  status o' <> NotParsed /\ status o' <> NotFound /\
  matched_name o' = matched_name o /\ name o' = name o /\
  alt_name o' = alt_name o /\ default_val o' = default_val o.
Proof.
  unfold deal_integer. intros H.
  destruct (strtoll v (base o)) as [[x n]|]; [|done]. simpl in H.
  destruct (Nat.ltb n (String.length v)); [by simplify_eq/=|].
  apply update_numeric_value_n_status_frame in H. intuition congruence.
Qed.

Lemma deal_floating_frame o v o' :
  deal_floating strtod o v = Some o' ->
  status o' <> NotParsed /\ status o' <> NotFound /\
  matched_name o' = matched_name o /\ name o' = name o /\
  alt_name o' = alt_name o /\ default_val o' = default_val o.
Proof.
  unfold deal_floating. intros H.
  destruct (strtod v) as [d n].
  destruct (Nat.ltb n (String.length v) || is_nan d); [by simplify_eq/=|].
  apply update_numeric_value_n_status_frame in H. intuition congruence.
Qed.

Lemma Parse_matched_frame type i a args o args' o' :
  Parse_matched strtod type i a args o = Some (args', o') ->
  status o' <> NotParsed /\ status o' <> NotFound /\
  matched_name o' = matched_name o /\ name o' = name o /\
  alt_name o' = alt_name o /\ default_val o' = default_val o.
Proof.
  unfold Parse_matched. intros H.
  destruct (Nat.eqb 0 type).
  - destruct (update_numeric_value_n_status Tbool true o) as [o1|] eqn:E;
      simplify_eq/=.
    apply update_numeric_value_n_status_frame in E. intuition congruence.
  - destruct (_ !! S i) as [v|]; [|by simplify_eq/=].
    destruct (Nat.eqb 1 type); [by simplify_eq/=|].
    destruct (Nat.leb 2 type && Nat.leb type 4).
    + destruct (deal_integer o v.2) as [o1|] eqn:E; simplify_eq/=.
      by apply deal_integer_frame in E.
    + destruct (deal_floating strtod o v.2) as [o1|] eqn:E; simplify_eq/=.
      by apply deal_floating_frame in E.
Qed.

(** The tokens the body of the match touches: [i], and [i + 1] at most. *)
Lemma Parse_matched_args type i a args o args' o' :
  Parse_matched strtod type i a args o = Some (args', o') ->
  args' = <[i := (true, a.2)]> args \/
  exists v, args !! S i = Some v /\
            args' = <[S i := (true, v.2)]> (<[i := (true, a.2)]> args).
Proof.
  unfold Parse_matched. intros H.
  destruct (Nat.eqb 0 type).
  - destruct (update_numeric_value_n_status Tbool true o); simplify_eq/=; auto.
  - rewrite list_lookup_insert_ne in H by lia.
    destruct (args !! S i) as [v|]; [|simplify_eq/=; auto].
    right. exists v. split; [done|].
    destruct (Nat.eqb 1 type); [by simplify_eq/=|].
    destruct (Nat.leb 2 type && Nat.leb type 4).
    + destruct (deal_integer o v.2); by simplify_eq/=.
    + destruct (deal_floating strtod o v.2); by simplify_eq/=.
Qed.

(** *** From the first occurrence to the result of [Parse] *)

Lemma first_occurrence_Some o (args : list Arg) i a :
  first_occurrence o args = Some (i, a) <->
  args !! i = Some a /\ names o a.2 /\
  forall j b, j < i -> args !! j = Some b -> ~ names o b.2.
Proof.
  unfold first_occurrence. rewrite list_find_Some.
  split; intros (H1 & H2 & H3); (split; [done|split; [done|]]);
    intros j b ? ?; eapply H3; eauto.
Qed.

Lemma first_occurrence_None o (args : list Arg) :
  first_occurrence o args = None <->
  forall j b, args !! j = Some b -> ~ names o b.2.
Proof.
  unfold first_occurrence. rewrite list_find_None, Forall_lookup. naive_solver.
Qed.

Lemma Parse_no_occurrence p o :
  first_occurrence o (args p) = None ->
  Parse strtod p o = Some (NotFound, p, set_status NotFound o).
Proof. intros Hf. by rewrite Parse_first, Hf. Qed.

Lemma GetLastMatchedName_which o t v s :
  names o t ->
  GetLastMatchedName
    (set_status s (set_value v (set_matched_name (which_name o t) o))) = t.
Proof.
  unfold GetLastMatchedName, which_name, names. simpl.
  destruct (String.eqb_spec (name o) t); [done|]. intros [->| ->]; congruence.
Qed.

Lemma Parse_status_stored p o st p' o' :
  Parse strtod p o = Some (st, p', o') ->
  st = status o' /\ status o' <> NotParsed.
Proof.
  rewrite Parse_first.
  destruct (first_occurrence o (args p)) as [[i a]|].
  - destruct (Parse_matched _ _ _ _ _ _) as [[args1 o1]|] eqn:E; [|done].
    intros [= <- <- <-].
    by apply Parse_matched_frame in E as (? & _).
  - by intros [= <- <- <-].
Qed.

(** ** C8: [Parse] never leaves [NotParsed], and returns the status *)

(** C8.  For every descriptor and token list: [Parse] returns (for every
    descriptor a constructor can build), and whenever it returns, the
    descriptor's status is not [NotParsed] — it is one of the other six —
    and the value returned is the status stored in the descriptor. *)
Theorem Parse_returns_stored_status p o :
  (wf o -> is_Some (Parse strtod p o)) /\
  forall st p' o',
    Parse strtod p o = Some (st, p', o') ->
    status o' <> NotParsed /\ st = status o' /\
    (status o' = NotFound \/ status o' = ValueInvalid \/
     status o' = ValueNotFound \/ status o' = ClampedMax \/
     status o' = ClampedMin \/ status o' = Parsed).
Proof.
  split; [apply Parse_total|].
  intros st p' o' E.
  destruct (Parse_status_stored _ _ _ _ _ E) as [-> Hne].
  split; [done|]. split; [done|].
  destruct (status o'); tauto.
Qed.

(** ** C6: boolean descriptors *)

(** C6.  For every boolean descriptor: when one of its names occurs, at
    first index [i], [Parse] gives [Parsed] with value [true] and changes
    the token list at index [i] only, so the following token is not marked
    consumed; when neither name occurs, it gives [NotFound], leaves parser
    and value as they were, and a freshly constructed boolean descriptor
    holds [false]. *)
Theorem Parse_boolean p o b :
  value o = VBool b ->
  (exists st p' o',
     Parse strtod p o = Some (st, p', o') /\ st = status o' /\
     match first_occurrence o (args p) with
     | Some (i, a) =>
         st = Parsed /\ value o' = VBool true /\
         args p' = <[i := (true, a.2)]> (args p) /\
         args p' !! S i = args p !! S i /\
         GetLastMatchedName o' = a.2
     | None => st = NotFound /\ value o' = VBool b /\ p' = p
     end) /\
  forall nm alt, value (Option_bool nm alt) = VBool false.
Proof.
  intros Hv. split; [|done].
  rewrite Parse_first.
  destruct (first_occurrence o (args p)) as [[i a]|] eqn:Hf.
  - apply first_occurrence_Some in Hf as (_ & Hn & _).
    change (index (value o)) with
      (index (value (set_matched_name (which_name o a.2) o))).
    rewrite Parse_matched_bool by (simpl; by rewrite Hv). simpl.
    eexists _, _, _. split; [done|]. simpl.
    split_and!; try done.
    + by rewrite list_lookup_insert_ne by lia.
    + by apply (GetLastMatchedName_which o a.2 (VBool true) Parsed).
  - eexists _, _, _. split; [done|]. by simpl.
Qed.

(** *** The value token of a numeric descriptor *)

Lemma deal_integer_invalid o v x n :
  strtoll v (base o) = Some (x, n) -> n < String.length v ->
  deal_integer o v = Some (set_status ValueInvalid o).
Proof.
  intros E Hn. unfold deal_integer. rewrite E. simpl.
  by destruct (Nat.ltb_spec n (String.length v)); [|lia].
Qed.

Lemma deal_integer_converted o v x n :
  strtoll v (base o) = Some (x, n) -> String.length v <= n ->
  deal_integer o v = update_numeric_value_n_status Tint64 x o.
Proof.
  intros E Hn. unfold deal_integer. rewrite E. simpl.
  by destruct (Nat.ltb_spec n (String.length v)); [lia|].
Qed.

Lemma deal_floating_invalid o v :
  (strtod v).2 < String.length v \/ is_nan (strtod v).1 = true ->
  deal_floating strtod o v = Some (set_status ValueInvalid o).
Proof.
  unfold deal_floating. destruct (strtod v) as [d n]. simpl. intros H.
  destruct (Nat.ltb_spec n (String.length v)); [done|].
  destruct H as [H| ->]; [lia|done].
Qed.

(** An integer descriptor holds integer bounds, and the update with a
    64-bit value is the clamping rule on mathematical integers. *)
Lemma update_integer o x :
  wf o -> is_integer_kind (value o) -> in_range Tint64 x ->
  exists lo hi o',
    int_value (min o) = Some lo /\ int_value (max o) = Some hi /\
    update_numeric_value_n_status Tint64 x o = Some o' /\
    status o' = (int_clamp x lo hi).1 /\
    int_value (value o') = Some (int_clamp x lo hi).2 /\
    index (value o') = index (value o).
Proof.
  intros [_ Hmin Hmax Hlo Hhi] Hk Hx.
  unfold is_integer_kind, update_numeric_value_n_status in *.
  destruct (value o); cbn -[clamp int_clamp] in *; try lia;
    destruct (min o) as [| |lo|lo|lo| |]; try discriminate Hmin;
    destruct (max o) as [| |hi|hi|hi| |]; try discriminate Hmax;
    exists lo, hi; eexists; (split; [done|]); (split; [done|]);
    (split; [done|]); cbn -[clamp int_clamp].
  - destruct (clamp_integer Tint32 x lo hi lo hi) as [E1 E2]; try done.
    split; [exact E1|]. split; [|done]. f_equal. by injection E2.
  - destruct (clamp_integer Tuint32 x lo hi lo hi) as [E1 E2]; try done.
    split; [exact E1|]. split; [|done]. f_equal. by injection E2.
  - destruct (clamp_integer Tint64 x lo hi lo hi) as [E1 E2]; try done.
    split; [exact E1|]. split; [|done]. f_equal. by injection E2.
Qed.

Lemma integer_kind_type o :
  is_integer_kind (value o) ->
  index (value o) <> 0 /\ Nat.eqb 1 (index (value o)) = false /\
  Nat.leb 2 (index (value o)) && Nat.leb (index (value o)) 4 = true.
Proof.
  unfold is_integer_kind. intros H.
  destruct (index (value o)) as [|[|[|[|[|k]]]]]; simpl; try lia; done.
Qed.

Lemma floating_kind_type o :
  is_floating_kind (value o) ->
  index (value o) <> 0 /\ Nat.eqb 1 (index (value o)) = false /\
  Nat.leb 2 (index (value o)) && Nat.leb (index (value o)) 4 = false.
Proof.
  unfold is_floating_kind. intros H.
  destruct (index (value o)) as [|[|[|[|[|[|[|k]]]]]]]; simpl; try lia; done.
Qed.

(** [Parse] on a descriptor that takes a value, when a token follows the
    first occurrence of its name. *)
Lemma Parse_with_value p o i f t g v :
  index (value o) <> 0 ->
  first_occurrence o (args p) = Some (i, (f, t)) ->
  args p !! S i = Some (g, v) ->
  Parse strtod p o =
  let o1 := set_matched_name (which_name o t) o in
  o' ← (if Nat.eqb 1 (index (value o)) then
          Some (set_status Parsed (set_value (VString v) o1))
        else if Nat.leb 2 (index (value o)) && Nat.leb (index (value o)) 4
        then deal_integer o1 v
        else deal_floating strtod o1 v);
  Some (status o',
        mkParser (<[S i := (true, v)]> (<[i := (true, t)]> (args p)))
                 (exec_name p),
        o').
Proof.
  intros Ht Hf Hv. rewrite Parse_first, Hf.
  rewrite (Parse_matched_value _ _ _ _ _ g v) by done.
  cbv zeta. cbn [snd value set_matched_name].
  destruct (Nat.eqb 1 (index (value o))); [done|].
  destruct (Nat.leb 2 (index (value o)) && Nat.leb (index (value o)) 4).
  - by destruct (deal_integer _ v).
  - by destruct (deal_floating _ _ v).
Qed.

(** ** C5: the value token of a non-boolean descriptor *)

(** C5.  For every non-boolean descriptor whose name first occurs at
    index [i]: when no token follows (the occurrence is the last token),
    [Parse] gives [ValueNotFound], leaves value and default as they were
    and marks token [i] only; when a token follows, that token is marked
    consumed whatever the outcome of the conversion. *)
Theorem Parse_value_token p o i f t :
  wf o -> index (value o) <> 0 ->
  first_occurrence o (args p) = Some (i, (f, t)) ->
  exists st p' o',
    Parse strtod p o = Some (st, p', o') /\ st = status o' /\
    match args p !! S i with
    | None =>
        S i = length (args p) /\ st = ValueNotFound /\
        value o' = value o /\ default_val o' = default_val o /\
        args p' = <[i := (true, t)]> (args p)
    | Some (g, v) =>
        args p' !! S i = Some (true, v) /\ args p' !! i = Some (true, t)
    end.
Proof.
  intros Hwf Ht Hf.
  pose proof Hf as (Hi%lookup_lt_Some & _)%first_occurrence_Some.
  destruct (args p !! S i) as [[g v]|] eqn:Hv.
  - pose proof (Parse_total p o Hwf) as [[[st p'] o'] E].
    exists st, p', o'. split; [done|].
    rewrite (Parse_with_value _ _ _ _ _ _ _ Ht Hf Hv) in E.
    apply bind_Some in E as (o1 & _ & [= <- <- <-]). simpl.
    apply lookup_lt_Some in Hv.
    split; [done|]. split.
    + by rewrite list_lookup_insert_eq by (by rewrite length_insert).
    + rewrite list_lookup_insert_ne by lia.
      by rewrite list_lookup_insert_eq.
  - apply lookup_ge_None in Hv.
    rewrite Parse_first, Hf.
    rewrite Parse_matched_last by (done || lia). simpl.
    eexists _, _, _. split; [done|]. simpl. split_and!; try done. lia.
Qed.

(** ** C4: malformed numeric literals *)

(** C4.  For every numeric descriptor whose name first occurs at index
    [i] and is followed by a value token [v]: if the descriptor is of an
    integer kind and [strtoll] stops before the end of [v], or it is of a
    floating kind and [strtod] stops before the end of [v] or yields NaN,
    then [Parse] gives [ValueInvalid] and the stored value is the one
    before the call. *)
Theorem Parse_malformed_literal p o i f t g v :
  wf o ->
  first_occurrence o (args p) = Some (i, (f, t)) ->
  args p !! S i = Some (g, v) ->
  (is_integer_kind (value o) /\
   exists x n, strtoll v (base o) = Some (x, n) /\ n < String.length v) \/
  (is_floating_kind (value o) /\
   ((strtod v).2 < String.length v \/ is_nan (strtod v).1 = true)) ->
  exists p' o',
    Parse strtod p o = Some (ValueInvalid, p', o') /\
    status o' = ValueInvalid /\ value o' = value o /\
    default_val o' = default_val o.
Proof.
  intros Hwf Hf Hv [[Hk (x & n & Hx & Hn)]|[Hk Hbad]].
  - destruct (integer_kind_type _ Hk) as (Ht & E1 & E2).
    rewrite (Parse_with_value _ _ _ _ _ _ _ Ht Hf Hv). cbv zeta.
    rewrite E1, E2.
    rewrite (deal_integer_invalid _ _ x n) by done. simpl.
    by eexists _, _.
  - destruct (floating_kind_type _ Hk) as (Ht & E1 & E2).
    rewrite (Parse_with_value _ _ _ _ _ _ _ Ht Hf Hv). cbv zeta.
    rewrite E1, E2.
    rewrite deal_floating_invalid by done. simpl.
    by eexists _, _.
Qed.

(** [Parse] on an integer descriptor whose value token [strtoll] converts
    in full: the clamping rule applied to the converted value. *)
Lemma Parse_integer_converted p o i f t g v x n :
  wf o -> is_integer_kind (value o) ->
  first_occurrence o (args p) = Some (i, (f, t)) ->
  args p !! S i = Some (g, v) ->
  strtoll v (base o) = Some (x, n) -> String.length v <= n ->
  exists lo hi p' o',
    int_value (min o) = Some lo /\ int_value (max o) = Some hi /\
    Parse strtod p o = Some (status o', p', o') /\
    status o' = (int_clamp x lo hi).1 /\
    int_value (value o') = Some (int_clamp x lo hi).2 /\
    index (value o') = index (value o).
Proof.
  intros Hwf Hk Hf Hv Hx Hn.
  destruct (integer_kind_type _ Hk) as (Ht & E1 & E2).
  rewrite (Parse_with_value _ _ _ _ _ _ _ Ht Hf Hv). cbv zeta.
  rewrite E1, E2.
  rewrite (deal_integer_converted _ _ x n) by done.
  destruct (strtoll_defined v (base o) (wf_base _ Hwf))
    as (x' & n' & Hx' & Hr).
  assert (x' = x) as -> by congruence.
  destruct (update_integer (set_matched_name (which_name o t) o) x)
    as (lo & hi & o' & Hlo & Hhi & -> & Hs & Hval & Hidx);
    [by apply wf_set_matched_name|done|done|].
  exists lo, hi. eexists _, o'. by simpl.
Qed.

(** ** C9: the empty string as an integer value *)

(** C9.  For every integer-kind descriptor whose name first occurs at
    index [i] and is followed by the empty string: [strtoll] converts
    nothing and returns [0] with the end pointer at the start, which is
    not before the end of the empty token; so [Parse] does not give
    [ValueInvalid]: status and stored value are those of clamping [0]
    against the bounds. *)
Theorem Parse_empty_integer_literal p o i f t g :
  wf o -> is_integer_kind (value o) ->
  first_occurrence o (args p) = Some (i, (f, t)) ->
  args p !! S i = Some (g, "") ->
  strtoll "" (base o) = Some (0%Z, 0) /\
  exists lo hi p' o',
    int_value (min o) = Some lo /\ int_value (max o) = Some hi /\
    Parse strtod p o = Some (status o', p', o') /\
    status o' <> ValueInvalid /\
    (status o' = Parsed \/ status o' = ClampedMin \/ status o' = ClampedMax) /\
    status o' = (int_clamp 0 lo hi).1 /\
    int_value (value o') = Some (int_clamp 0 lo hi).2 /\
    index (value o') = index (value o).
Proof.
  intros Hwf Hk Hf Hv.
  pose proof (strtoll_empty (base o) (wf_base _ Hwf)) as H0.
  split; [done|].
  destruct (Parse_integer_converted p o i f t g "" 0%Z 0)
    as (lo & hi & p' & o' & Hlo & Hhi & HP & Hs & Hval & Hidx); try done.
  exists lo, hi, p', o'. split_and!; try done.
  - rewrite Hs. unfold int_clamp; simpl.
    by repeat match goal with |- context [if ?c then _ else _] => destruct c end.
  - rewrite Hs. unfold int_clamp; simpl.
    repeat match goal with |- context [if ?c then _ else _] => destruct c end;
      auto.
Qed.

(** *** The integer kinds *)

(** The clamping rule on mathematical integers, for a value token that
    [strtoll] converts in full to [x]. *)
Lemma Parse_clamps_integer p o i f t g v x n lo hi :
  wf o -> is_integer_kind (value o) ->
  int_value (min o) = Some lo -> int_value (max o) = Some hi ->
  (lo <= hi)%Z ->
  first_occurrence o (args p) = Some (i, (f, t)) ->
  args p !! S i = Some (g, v) ->
  strtoll v (base o) = Some (x, n) -> String.length v <= n ->
  exists stored p' o',
    Parse strtod p o = Some (status o', p', o') /\
    int_value (value o') = Some stored /\
    index (value o') = index (value o) /\
    (lo <= stored <= hi)%Z /\
    (status o' = ClampedMin <-> (x < lo)%Z) /\
    (status o' = ClampedMax <-> (hi < x)%Z) /\
    (status o' = Parsed <-> (lo <= x <= hi)%Z) /\
    (status o' = ClampedMin -> stored = lo) /\
    (status o' = ClampedMax -> stored = hi) /\
    (status o' = Parsed -> stored = x).
Proof.
  intros Hwf Hk Hlo Hhi Hle Hf Hv Hx Hn.
  destruct (Parse_integer_converted p o i f t g v x n)
    as (lo' & hi' & p' & o' & Hlo' & Hhi' & HP & Hs & Hval & Hidx); try done.
  assert (lo' = lo) as -> by congruence.
  assert (hi' = hi) as -> by congruence.
  exists (int_clamp x lo hi).2, p', o'.
  split; [done|]. split; [done|]. split; [done|].
  rewrite Hs. unfold int_clamp; simpl.
  destruct (Z.ltb_spec x lo); [|destruct (Z.ltb_spec hi x)];
    split_and!; try (split; intros); first [lia | done].
Qed.

(** *** The double kind *)

Lemma update_double o x :
  wf o -> index (value o) = 6 -> in_range Tdouble x ->
  exists lo hi,
    min o = VDouble lo /\ max o = VDouble hi /\
    update_numeric_value_n_status Tdouble x o =
    Some (set_value (VDouble (double_clamp x lo hi).2)
            (set_status (double_clamp x lo hi).1 o)).
Proof.
  intros [_ Hmin Hmax Hlo Hhi] Hk Hx.
  unfold update_numeric_value_n_status. rewrite Hk in *.
  destruct (min o) as [| | | | | |lo]; try discriminate Hmin.
  destruct (max o) as [| | | | | |hi]; try discriminate Hmax.
  exists lo, hi. split; [done|]. split; [done|].
  cbn -[clamp double_clamp]. by rewrite clamp_double.
Qed.

(** The double kind: the clamping rule with IEEE comparisons, for a value
    token that [strtod] converts in full to a number [d]. *)
Lemma Parse_clamps_double p o i f t g v d n lo hi :
  wf o -> index (value o) = 6 ->
  min o = VDouble lo -> max o = VDouble hi -> SFleb lo hi = true ->
  first_occurrence o (args p) = Some (i, (f, t)) ->
  args p !! S i = Some (g, v) ->
  strtod v = (d, n) -> String.length v <= n ->
  is_nan d = false -> in_range Tdouble d ->
  exists stored p' o',
    Parse strtod p o = Some (status o', p', o') /\
    value o' = VDouble stored /\
    SFleb lo stored = true /\ SFleb stored hi = true /\
    (status o' = ClampedMin <-> SFltb d lo = true) /\
    (status o' = ClampedMax <-> SFltb hi d = true) /\
    (status o' = Parsed <-> SFleb lo d = true /\ SFleb d hi = true) /\
    (status o' = ClampedMin -> stored = lo) /\
    (status o' = ClampedMax -> stored = hi) /\
    (status o' = Parsed -> stored = d).
Proof.
  intros Hwf Hk Hlo Hhi Hle Hf Hv Hd Hn Hnan Hr.
  assert (is_floating_kind (value o)) as Hfk
    by (unfold is_floating_kind; lia).
  destruct (floating_kind_type _ Hfk) as (Ht & E1 & E2).
  rewrite (Parse_with_value _ _ _ _ _ _ _ Ht Hf Hv). cbv zeta.
  rewrite E1, E2. unfold deal_floating. rewrite Hd.
  destruct (Nat.ltb_spec n (String.length v)) as [|_]; [lia|].
  rewrite Hnan. cbn [orb].
  destruct (update_double (set_matched_name (which_name o t) o) d)
    as (lo' & hi' & Hlo' & Hhi' & ->);
    [by apply wf_set_matched_name|done|done|].
  simpl in Hlo', Hhi'.
  assert (lo' = lo) as -> by congruence.
  assert (hi' = hi) as -> by congruence.
  assert (in_range Tdouble lo) as Hrlo
    by (pose proof (wf_min_ok _ Hwf) as H; by rewrite Hlo in H).
  assert (in_range Tdouble hi) as Hrhi
    by (pose proof (wf_max_ok _ Hwf) as H; by rewrite Hhi in H).
  eexists _, _, _. split; [done|]. cbn -[double_clamp].
  split; [done|]. by apply double_clamp_spec.
Qed.

(** *** The float kind *)

Lemma update_float o x :
  wf o -> index (value o) = 5 -> in_range Tdouble x ->
  exists lo hi,
    min o = VFloat lo /\ max o = VFloat hi /\
    update_numeric_value_n_status Tdouble x o =
    Some (set_value (VFloat (float_clamp x lo hi).2)
            (set_status (float_clamp x lo hi).1 o)).
Proof.
  intros [_ Hmin Hmax Hlo Hhi] Hk Hx.
  unfold update_numeric_value_n_status. rewrite Hk in *.
  destruct (min o) as [| | | | |lo|]; try discriminate Hmin.
  destruct (max o) as [| | | | |hi|]; try discriminate Hmax.
  exists lo, hi. split; [done|]. split; [done|].
  cbn -[clamp float_clamp]. by rewrite clamp_float.
Qed.

(** The float kind: the value token is converted to a [double] [d]; it is
    compared, as a double, with the bounds widened to [double]; what is
    stored is a bound or [d] narrowed to [float]. *)
Lemma Parse_clamps_float p o i f t g v d n lo hi :
  wf o -> index (value o) = 5 ->
  min o = VFloat lo -> max o = VFloat hi -> SFleb lo hi = true ->
  first_occurrence o (args p) = Some (i, (f, t)) ->
  args p !! S i = Some (g, v) ->
  strtod v = (d, n) -> String.length v <= n ->
  is_nan d = false -> in_range Tdouble d ->
  exists stored p' o',
    Parse strtod p o = Some (status o', p', o') /\
    value o' = VFloat stored /\
    SFleb lo stored = true /\ SFleb stored hi = true /\
    (status o' = ClampedMin <->
     SFltb d (convert Tfloat Tdouble lo) = true) /\
    (status o' = ClampedMax <->
     SFltb (convert Tfloat Tdouble hi) d = true) /\
    (status o' = Parsed <->
     SFleb (convert Tfloat Tdouble lo) d = true /\
     SFleb d (convert Tfloat Tdouble hi) = true) /\
    (status o' = ClampedMin -> stored = lo) /\
    (status o' = ClampedMax -> stored = hi) /\
    (status o' = Parsed -> stored = convert Tdouble Tfloat d).
Proof.
  intros Hwf Hk Hlo Hhi Hle Hf Hv Hd Hn Hnan Hr.
  assert (is_floating_kind (value o)) as Hfk
    by (unfold is_floating_kind; lia).
  destruct (floating_kind_type _ Hfk) as (Ht & E1 & E2).
  rewrite (Parse_with_value _ _ _ _ _ _ _ Ht Hf Hv). cbv zeta.
  rewrite E1, E2. unfold deal_floating. rewrite Hd.
  destruct (Nat.ltb_spec n (String.length v)) as [|_]; [lia|].
  rewrite Hnan. cbn [orb].
  destruct (update_float (set_matched_name (which_name o t) o) d)
    as (lo' & hi' & Hlo' & Hhi' & ->);
    [by apply wf_set_matched_name|done|done|].
  simpl in Hlo', Hhi'.
  assert (lo' = lo) as -> by congruence.
  assert (hi' = hi) as -> by congruence.
  assert (in_range Tfloat lo) as Hrlo
    by (pose proof (wf_min_ok _ Hwf) as H; by rewrite Hlo in H).
  assert (in_range Tfloat hi) as Hrhi
    by (pose proof (wf_max_ok _ Hwf) as H; by rewrite Hhi in H).
  eexists _, _, _. split; [done|]. cbn -[float_clamp convert].
  split; [done|]. by apply float_clamp_spec.
Qed.

(** ** C2: clamping *)

(** C2, as the code has it.  For every numeric descriptor (an integer
    kind, [float] or [double]) with bounds [lo <= hi] whose value token
    converts in full to [x]: the stored value lies in [[lo, hi]]; the status
    is [ClampedMin] exactly when [x < lo], and then the stored value is
    [lo]; it is [ClampedMax] exactly when [hi < x], and then the stored
    value is [hi]; otherwise, exactly when [lo <= x <= hi], it is [Parsed]
    and the stored value is [x], narrowed to [float] for a float
    descriptor.  A stored value equal to a bound does not tell the status:
    [x] may be the bound itself.  For the floating kinds [x] is the double
    [strtod] returns, a number and not NaN, the order is that of the IEEE
    comparisons, and a float descriptor's bounds are compared as
    doubles. *)
Theorem Parse_clamps p o i f t g v :
  wf o ->
  first_occurrence o (args p) = Some (i, (f, t)) ->
  args p !! S i = Some (g, v) ->
  (forall x n lo hi,
     is_integer_kind (value o) ->
     int_value (min o) = Some lo -> int_value (max o) = Some hi ->
     (lo <= hi)%Z ->
     strtoll v (base o) = Some (x, n) -> String.length v <= n ->
     exists stored p' o',
       Parse strtod p o = Some (status o', p', o') /\
       int_value (value o') = Some stored /\
       index (value o') = index (value o) /\
       (lo <= stored <= hi)%Z /\
       (status o' = ClampedMin <-> (x < lo)%Z) /\
       (status o' = ClampedMax <-> (hi < x)%Z) /\
       (status o' = Parsed <-> (lo <= x <= hi)%Z) /\
       (status o' = ClampedMin -> stored = lo) /\
       (status o' = ClampedMax -> stored = hi) /\
       (status o' = Parsed -> stored = x)) /\
  (forall d n lo hi,
     index (value o) = 6 ->
     min o = VDouble lo -> max o = VDouble hi -> SFleb lo hi = true ->
     strtod v = (d, n) -> String.length v <= n ->
     is_nan d = false -> in_range Tdouble d ->
     exists stored p' o',
       Parse strtod p o = Some (status o', p', o') /\
       value o' = VDouble stored /\
       SFleb lo stored = true /\ SFleb stored hi = true /\
       (status o' = ClampedMin <-> SFltb d lo = true) /\
       (status o' = ClampedMax <-> SFltb hi d = true) /\
       (status o' = Parsed <-> SFleb lo d = true /\ SFleb d hi = true) /\
       (status o' = ClampedMin -> stored = lo) /\
       (status o' = ClampedMax -> stored = hi) /\
       (status o' = Parsed -> stored = d)) /\
  (forall d n lo hi,
     index (value o) = 5 ->
     min o = VFloat lo -> max o = VFloat hi -> SFleb lo hi = true ->
     strtod v = (d, n) -> String.length v <= n ->
     is_nan d = false -> in_range Tdouble d ->
     exists stored p' o',
       Parse strtod p o = Some (status o', p', o') /\
       value o' = VFloat stored /\
       SFleb lo stored = true /\ SFleb stored hi = true /\
       (status o' = ClampedMin <->
        SFltb d (convert Tfloat Tdouble lo) = true) /\
       (status o' = ClampedMax <->
        SFltb (convert Tfloat Tdouble hi) d = true) /\
       (status o' = Parsed <->
        SFleb (convert Tfloat Tdouble lo) d = true /\
        SFleb d (convert Tfloat Tdouble hi) = true) /\
       (status o' = ClampedMin -> stored = lo) /\
       (status o' = ClampedMax -> stored = hi) /\
       (status o' = Parsed -> stored = convert Tdouble Tfloat d)).
Proof.
  intros Hwf Hf Hv. split_and!.
  - intros x n lo hi Hk Hlo Hhi Hle Hx Hn.
    by eapply Parse_clamps_integer.
  - intros d n lo hi Hk Hlo Hhi Hle Hd Hn Hnan Hr.
    by eapply Parse_clamps_double.
  - intros d n lo hi Hk Hlo Hhi Hle Hd Hn Hnan Hr.
    by eapply Parse_clamps_float.
Qed.

(** *** Texts, flags and locality *)

Lemma texts_insert_flag (l : list Arg) i (a : Arg) b :
  l !! i = Some a -> texts (<[i := (b, a.2)]> l) = texts l.
Proof.
  intros Ha. unfold texts. rewrite list_fmap_insert. simpl.
  apply list_insert_id. by rewrite list_lookup_fmap, Ha.
Qed.

(** The body of the match changes flags only. *)
Lemma Parse_matched_texts type i a l o l' o' :
  l !! i = Some a ->
  Parse_matched strtod type i a l o = Some (l', o') -> texts l' = texts l.
Proof.
  intros Ha H.
  pose proof (texts_insert_flag l i a true Ha) as E1.
  apply Parse_matched_args in H as [->|(v & Hv & ->)]; [done|].
  rewrite texts_insert_flag; [done|].
  by rewrite list_lookup_insert_ne by lia.
Qed.

(** The descriptor it leaves depends on the text of token [i] and on the
    text of token [i + 1] only. *)
Lemma Parse_matched_descriptor type i (a b : Arg) l1 l2 o :
  a.2 = b.2 -> snd <$> l1 !! S i = snd <$> l2 !! S i ->
  snd <$> Parse_matched strtod type i a l1 o =
  snd <$> Parse_matched strtod type i b l2 o.
Proof.
  intros Hab Hv. unfold Parse_matched.
  rewrite !list_lookup_insert_ne by lia.
  destruct (Nat.eqb 0 type), (Nat.eqb 1 type),
           (Nat.leb 2 type && Nat.leb type 4);
    try (by destruct (update_numeric_value_n_status Tbool true o));
    destruct (l1 !! S i) as [[g1 v1]|], (l2 !! S i) as [[g2 v2]|];
    simplify_eq/=; try done;
    try (by destruct (deal_integer o v2));
    by destruct (deal_floating strtod o v2).
Qed.

Lemma Parse_texts p o st p' o' :
  Parse strtod p o = Some (st, p', o') ->
  texts (args p') = texts (args p) /\ exec_name p' = exec_name p.
Proof.
  rewrite Parse_first.
  destruct (first_occurrence o (args p)) as [[i a]|] eqn:Hf.
  - apply first_occurrence_Some in Hf as (Ha & _).
    destruct (Parse_matched _ _ _ _ _ _) as [[l1 o1]|] eqn:E; [|done].
    intros [= <- <- <-]. simpl. split; [|done].
    by eapply Parse_matched_texts.
  - by intros [= <- <- <-].
Qed.

Lemma first_occurrence_texts o (l : list Arg) :
  list_find (names o) (texts l) = prod_map id snd <$> first_occurrence o l.
Proof. apply (list_find_fmap snd (names o)). Qed.

(** Status and descriptor after [Parse] are a function of the texts of
    the tokens: the consumed flags play no part. *)
Lemma Parse_flags_irrelevant p q o :
  texts (args q) = texts (args p) ->
  (fun r => (r.1.1, r.2)) <$> Parse strtod q o =
  (fun r => (r.1.1, r.2)) <$> Parse strtod p o.
Proof.
  intros Ht.
  pose proof (first_occurrence_texts o (args p)) as Hp.
  pose proof (first_occurrence_texts o (args q)) as Hq.
  rewrite Ht, Hp in Hq. rewrite !Parse_first.
  destruct (first_occurrence o (args p)) as [[i a]|],
           (first_occurrence o (args q)) as [[j b]|]; simplify_eq/=; [|done].
  assert (snd <$> args q !! S j = snd <$> args p !! S j) as Hv.
  { unfold texts in Ht. by rewrite <- !list_lookup_fmap, Ht. }
  pose proof (Parse_matched_descriptor (index (value o)) j b a (args q)
                (args p) (set_matched_name (which_name o b.2) o)) as E.
  specialize (E (eq_sym H0) Hv). rewrite H0.
  destruct (Parse_matched _ _ _ _ (args q) _) as [[l1 o1]|],
           (Parse_matched _ _ _ _ (args p) _) as [[l2 o2]|];
    by simplify_eq/=.
Qed.

Lemma GetLastMatchedName_frame o o' t :
  names o t -> matched_name o' = which_name o t ->
  name o' = name o -> alt_name o' = alt_name o ->
  GetLastMatchedName o' = t.
Proof.
  unfold GetLastMatchedName, which_name, names. intros Hn -> -> ->.
  destruct (String.eqb_spec (name o) t); [done|].
  destruct Hn; congruence.
Qed.

(** What [Parse] does at the first occurrence. *)
Lemma Parse_first_occurrence p o i a st p' o' :
  first_occurrence o (args p) = Some (i, a) ->
  Parse strtod p o = Some (st, p', o') ->
  st = status o' /\ st <> NotFound /\ st <> NotParsed /\
  args p' !! i = Some (true, a.2) /\
  GetLastMatchedName o' = a.2 /\
  forall k, k <> i -> k <> S i -> args p' !! k = args p !! k.
Proof.
  intros Hf. rewrite Parse_first, Hf.
  destruct (Parse_matched _ _ _ _ _ _) as [[l1 o1]|] eqn:E; [|done].
  intros [= <- <- <-]. simpl.
  apply first_occurrence_Some in Hf as (Ha & Hn & _).
  pose proof (Parse_matched_frame _ _ _ _ _ _ _ E)
    as (H1 & H2 & H3 & H4 & H5 & _).
  split; [done|]. split; [done|]. split; [done|].
  apply lookup_lt_Some in Ha.
  apply Parse_matched_args in E as [->|(v & Hv & ->)].
  - split; [by rewrite list_lookup_insert_eq|].
    split; [by eapply GetLastMatchedName_frame|].
    intros k ? ?. by rewrite list_lookup_insert_ne.
  - split.
    { rewrite list_lookup_insert_ne by lia. by rewrite list_lookup_insert_eq. }
    split; [by eapply GetLastMatchedName_frame|].
    intros k ? ?. by rewrite !list_lookup_insert_ne.
Qed.

(** ** C3: the scan compares texts in index order *)

(** C3.  For every scan of one descriptor against the token list: the
    tokens are compared by text against the two names in index order, and
    the first token whose text is one of the names is the match point,
    whether its consumed flag is set or not — it is marked, the matched
    name is its text, and no token other than it and its successor is
    touched; the status and the descriptor that result are the same for
    every token list with the same texts, whatever the flags; when no
    token's text is one of the names the result is [NotFound] and the
    parser is unchanged. *)
Theorem Parse_scans_texts_in_order p o :
  wf o ->
  exists st p' o',
    Parse strtod p o = Some (st, p', o') /\ st = status o' /\
    texts (args p') = texts (args p) /\
    ((forall j b, args p !! j = Some b -> ~ names o b.2) ->
     st = NotFound /\ p' = p) /\
    (forall i f t,
       args p !! i = Some (f, t) -> names o t ->
       (forall j b, j < i -> args p !! j = Some b -> ~ names o b.2) ->
       st <> NotFound /\ args p' !! i = Some (true, t) /\
       GetLastMatchedName o' = t /\
       forall k, k <> i -> k <> S i -> args p' !! k = args p !! k) /\
    (forall q, texts (args q) = texts (args p) ->
               exists q', Parse strtod q o = Some (st, q', o')).
Proof.
  intros Hwf.
  destruct (Parse_total p o Hwf) as [[[st p'] o'] E].
  exists st, p', o'. split; [done|].
  split; [by eapply Parse_status_stored|].
  split; [by eapply Parse_texts|].
  split; [|split].
  - intros Hnone. apply first_occurrence_None in Hnone.
    rewrite (Parse_no_occurrence _ _ Hnone) in E. by simplify_eq.
  - intros i f t Ha Hn Hbefore.
    assert (first_occurrence o (args p) = Some (i, (f, t))) as Hf
      by (by apply first_occurrence_Some).
    by destruct (Parse_first_occurrence _ _ _ _ _ _ _ Hf E)
      as (_ & ? & _ & ? & ? & ?).
  - intros q Hq.
    pose proof (Parse_flags_irrelevant p q o Hq) as Eq.
    destruct (Parse_total q o Hwf) as [[[st2 q'] o2] E2].
    rewrite E, E2 in Eq. simplify_eq/=. by exists q'.
Qed.

(** ** C10: token 0 takes part in the scan *)

Lemma OptionParser_new_token_0 argv q :
  OptionParser_new argv = Some q ->
  exists t0 rest0, args q = (true, t0) :: rest0.
Proof.
  unfold OptionParser_new. intros H.
  destruct (foldl push_arg [] argv) as [|a l]; [done|]. simpl in H.
  injection H as <-. by eexists _, _.
Qed.

(** C10.  The scan starts at index 0, the token every constructed parser
    has marked consumed: for every descriptor one of whose names is the
    text of token 0, the first occurrence is token 0; [Parse] takes it as
    the match point, leaves every token from index 2 on as it was, and
    gives the status and the descriptor that any token list with the same
    first two texts gives, whatever occurs later. *)
Theorem Parse_matches_token_0 p o f t rest :
  wf o -> args p = (f, t) :: rest -> names o t ->
  first_occurrence o (args p) = Some (0, (f, t)) /\
  (exists st p' o',
     Parse strtod p o = Some (st, p', o') /\ st = status o' /\
     st <> NotFound /\ args p' !! 0 = Some (true, t) /\
     GetLastMatchedName o' = t /\
     (forall k, 2 <= k -> args p' !! k = args p !! k) /\
     forall q, take 2 (texts (args q)) = take 2 (texts (args p)) ->
               exists q', Parse strtod q o = Some (st, q', o')) /\
  forall argv q, OptionParser_new argv = Some q ->
                 exists t0 rest0, args q = (true, t0) :: rest0.
Proof.
  intros Hwf Hp Hn.
  assert (first_occurrence o (args p) = Some (0, (f, t))) as Hf.
  { apply first_occurrence_Some. rewrite Hp. split; [done|].
    split; [done|]. intros; lia. }
  split; [done|]. split; [|apply OptionParser_new_token_0].
  destruct (Parse_total p o Hwf) as [[[st p'] o'] E].
  exists st, p', o'. split; [done|].
  destruct (Parse_first_occurrence _ _ _ _ _ _ _ Hf E)
    as (Hst & Hnf & _ & H0 & Hm & Hk).
  split_and!; try done.
  - intros k ?. apply Hk; lia.
  - intros q Hq.
    destruct (args q) as [|[f' t'] rest'] eqn:Eq;
      [by rewrite Hp in Hq|].
    rewrite Hp in Hq. simpl in Hq.
    assert (t' = t) as -> by congruence.
    assert (first_occurrence o (args q) = Some (0, (f', t))) as Hfq.
    { apply first_occurrence_Some. rewrite Eq. split; [done|].
      split; [done|]. intros; lia. }
    assert (snd <$> args q !! 1 = snd <$> args p !! 1) as Hv.
    { rewrite Eq, Hp. simpl.
      destruct rest as [|[]], rest' as [|[]]; by simplify_eq/=. }
    pose proof (Parse_matched_descriptor (index (value o)) 0 (f', t) (f, t)
                  (args q) (args p) (set_matched_name (which_name o t) o)
                  eq_refl Hv) as Ed.
    destruct (Parse_total q o Hwf) as [[[st2 q'] o2] E2].
    exists q'. rewrite E2.
    rewrite Parse_first, Hf in E. rewrite Parse_first, Hfq in E2.
    simpl in E, E2.
    destruct (Parse_matched _ _ _ _ (args q) _) as [[l1 o1]|],
             (Parse_matched _ _ _ _ (args p) _) as [[l2 o3]|];
      by simplify_eq/=.
Qed.

End ParseFacts.

(** ** C7: the queries over unparsed arguments *)

Lemma first_unparsed_find (l : list Arg) :
  first_unparsed l =
  match list_find (fun a : Arg => a.1 = false) l with
  | Some (_, a) => a.2
  | None => ""
  end.
Proof.
  induction l as [|[f t] l IH]; [done|]. simpl.
  destruct f; simpl.
  - rewrite IH. by destruct (list_find _ l) as [[]|].
  - done.
Qed.

Lemma push_unparsed_filter (l : list Arg) rtn :
  push_unparsed l rtn = (rtn ++ (filter (fun a : Arg => a.1 = false) l).*2)%list.
Proof.
  revert rtn. induction l as [|[f t] l IH]; intros rtn; simpl.
  - by rewrite app_nil_r.
  - rewrite IH. destruct f; simpl; [done|]. by rewrite <- app_assoc.
Qed.

(** C7.  [FirstUnparsedArg] returns the text of the first token, in index
    order, whose consumed flag is false, and the empty string when every
    token is consumed; [GetAllUnparsedArgs] returns the texts of the
    unconsumed tokens in index order (so the former is the head of the
    latter); after either call the parser is what it was. *)
Theorem unparsed_queries p :
  (forall i t,
     args p !! i = Some (false, t) ->
     (forall j b, j < i -> args p !! j = Some b -> b.1 = true) ->
     FirstUnparsedArg p = t) /\
  ((forall j b, args p !! j = Some b -> b.1 = true) ->
   FirstUnparsedArg p = "") /\
  GetAllUnparsedArgs p = (filter (fun a : Arg => a.1 = false) (args p)).*2 /\
  FirstUnparsedArg p = default "" (head (GetAllUnparsedArgs p)) /\
  (call FirstUnparsedArg p).2 = p /\
  (call GetAllUnparsedArgs p).2 = p.
Proof.
  unfold FirstUnparsedArg, GetAllUnparsedArgs.
  rewrite first_unparsed_find, push_unparsed_filter. simpl.
  split_and!; try done.
  - intros i t Hi Hbefore.
    assert (list_find (fun a : Arg => a.1 = false) (args p) = Some (i, (false, t)))
      as ->; [|done].
    apply list_find_Some. split; [done|]. split; [done|].
    intros j b Hb Hj. rewrite (Hbefore j b Hj Hb). done.
  - intros Hall.
    assert (list_find (fun a : Arg => a.1 = false) (args p) = None) as ->; [|done].
    apply list_find_None, Forall_lookup. intros j b Hb.
    rewrite (Hall j b Hb). done.
  - induction (args p) as [|[f t] l IH]; [done|]. simpl.
    destruct f; simpl; [|done].
    rewrite filter_cons_False by done.
    rewrite <- IH. by destruct (list_find _ l) as [[]|].
Qed.

(** ** C1: the tokenizer *)

Lemma is_merged_spec a : is_merged a = spec_is_cluster a.
Proof.
  unfold is_merged, spec_is_cluster, char_at.
  destruct a as [|c0 [|c [|c2 r]]]; simpl;
    try (by rewrite ?andb_false_r); by rewrite andb_true_r.
Qed.

Lemma char_at_lookup s j :
  j < String.length s -> list_ascii_of_string s !! j = Some (char_at s j).
Proof.
  revert j. induction s as [|c s IH]; intros j Hj; simpl in *; [lia|].
  destruct j as [|j]; [done|]. simpl. unfold char_at. simpl.
  apply IH. lia.
Qed.

Lemma length_list_ascii_of_string s :
  length (list_ascii_of_string s) = String.length s.
Proof. induction s; simpl; congruence. Qed.

(** The inner loop appends the letters [j .. j + n - 1] of the token. *)
Lemma push_letters_spec c0 rest n j args :
  j + n <= String.length rest ->
  push_letters (String c0 rest) n (S j) args =
  (args ++ ((fun c => (false, flag_token c)) <$>
              take n (drop j (list_ascii_of_string rest))))%list.
Proof.
  revert j args. induction n as [|n IH]; intros j args Hn; simpl.
  - by rewrite app_nil_r.
  - rewrite IH by lia.
    assert (list_ascii_of_string rest !! j = Some (char_at rest j)) as Hj
      by (apply char_at_lookup; lia).
    rewrite (drop_S _ _ _ Hj). simpl. rewrite <- app_assoc. simpl.
    do 3 f_equal.
Qed.

Lemma push_arg_spec args a :
  push_arg args a = (args ++ (pair false <$> spec_expand a))%list.
Proof.
  unfold push_arg, spec_expand. rewrite is_merged_spec.
  destruct (spec_is_cluster a) eqn:E; [|done].
  destruct a as [|c0 rest]; [done|].
  simpl. rewrite Nat.sub_0_r.
  rewrite (push_letters_spec c0 rest (String.length rest) 0) by lia.
  rewrite drop_0, firstn_all2 by (by rewrite length_list_ascii_of_string).
  by rewrite <- list_fmap_compose.
Qed.

Lemma foldl_push_arg acc argv :
  foldl push_arg acc argv =
  (acc ++ (pair false <$> (argv ≫= spec_expand)))%list.
Proof.
  revert acc. induction argv as [|a argv IH]; intros acc; simpl.
  - by rewrite app_nil_r.
  - rewrite IH, push_arg_spec. rewrite <- app_assoc. f_equal.
    by rewrite fmap_app.
Qed.

Lemma flags_unconsumed (l : list string) :
  flags (pair false <$> l) = replicate (length l) false.
Proof. induction l; simpl; [done|]. f_equal. apply IHl. Qed.

Lemma spec_expand_nonempty a : spec_expand a <> [].
Proof.
  unfold spec_expand, spec_is_cluster.
  destruct a as [|c0 [|c [|c2 r]]]; try done.
  by destruct (_ && _).
Qed.

(** The tokenizer on every argument vector.  The constructor applies the
    cluster-splitting rule once per input token, and makes no exception of
    index 0: a token of length at least 3 that begins with a single [-]
    and whose second character is not [-], [.] or a decimal digit becomes
    one [-]-prefixed one-character token per character after the leading
    [-]; every other token is kept verbatim; the tokens come out in the
    order of the input, and only the first of them is marked consumed.  So
    token 0 is kept verbatim exactly when it is not itself such a cluster.
    With no argument at all the constructor has no defined result. *)
Theorem tokenizer_expands_every_token argv :
  (forall a, is_merged a = spec_is_cluster a) /\
  texts (foldl push_arg [] argv) = argv ≫= spec_expand /\
  (forall l1 l2,
     texts (foldl push_arg [] (l1 ++ l2)) =
     (texts (foldl push_arg [] l1) ++ texts (foldl push_arg [] l2))%list) /\
  match argv with
  | [] => OptionParser_new argv = None
  | exe :: _ =>
      exists p, OptionParser_new argv = Some p /\
                texts (args p) = argv ≫= spec_expand /\
                flags (args p) = true :: replicate (length (args p) - 1) false /\
                (spec_is_cluster exe = false ->
                 texts (args p) = spec_tokenize argv)
  end.
Proof.
  assert (forall l, texts (foldl push_arg [] l) = l ≫= spec_expand) as Ht.
  { intros l. rewrite foldl_push_arg. unfold texts. simpl.
    rewrite <- list_fmap_compose. apply list_fmap_id. }
  split; [apply is_merged_spec|]. split; [apply Ht|]. split.
  - intros l1 l2. rewrite !Ht. apply bind_app.
  - destruct argv as [|a argv]; [done|].
    unfold OptionParser_new. rewrite foldl_push_arg. simpl.
    pose proof (spec_expand_nonempty a) as Hne.
    destruct (spec_expand a) as [|t0 ts] eqn:Ea; [done|]. simpl.
    eexists. split; [done|]. simpl.
    assert (forall l : list string, texts (pair false <$> l) = l) as Etexts.
    { intros l. unfold texts. rewrite <- list_fmap_compose.
      apply list_fmap_id. }
    split_and!.
    + by rewrite Etexts.
    + f_equal. rewrite Nat.sub_0_r, length_fmap. apply flags_unconsumed.
    + intros Hexe. rewrite Etexts. unfold spec_expand in Ea.
      rewrite Hexe in Ea. by injection Ea as <- <-.
Qed.

(** ** The constructors build well-formed descriptors *)

Lemma in_range_lowest T : in_range T (lowest T).
Proof. destruct T; simpl; first [lia | done]. Qed.

Lemma in_range_max_value T : in_range T (max_value T).
Proof. destruct T; simpl; first [lia | done]. Qed.

Lemma Val_ok_inj T x : in_range T x -> Val_ok (inj T x).
Proof. by destruct T. Qed.

Lemma index_inj T x y : index (inj T x) = index (inj T y).
Proof. by destruct T. Qed.

Lemma clamp_base_range b : (2 <= clamp_base b <= 36)%Z.
Proof.
  unfold clamp_base.
  destruct (Z.ltb_spec b 2); [lia|]. destruct (Z.ltb_spec 36 b); lia.
Qed.

Lemma wf_Option_bool nm alt : wf (Option_bool nm alt).
Proof. constructor; simpl; first [lia | done]. Qed.

Lemma wf_Option_string d nm alt : wf (Option_string d nm alt).
Proof. constructor; simpl; first [lia | done]. Qed.

Lemma wf_Option_default T d nm alt : wf (Option_default T d nm alt).
Proof.
  constructor; simpl; try lia; try apply index_inj;
    apply Val_ok_inj; [apply in_range_lowest | apply in_range_max_value].
Qed.

Lemma wf_Option_range T d lo hi nm alt :
  in_range T lo -> in_range T hi -> wf (Option_range T d lo hi nm alt).
Proof.
  intros Hlo Hhi.
  constructor; simpl; try lia; try apply index_inj; by apply Val_ok_inj.
Qed.

Lemma wf_Option_base T d b nm alt : wf (Option_base T d b nm alt).
Proof.
  constructor; simpl; try apply clamp_base_range; try apply index_inj;
    apply Val_ok_inj; [apply in_range_lowest | apply in_range_max_value].
Qed.

Lemma wf_Option_base_range T d b lo hi nm alt :
  in_range T lo -> in_range T hi -> wf (Option_base_range T d b lo hi nm alt).
Proof.
  intros Hlo Hhi.
  constructor; simpl; try apply clamp_base_range; try apply index_inj;
    by apply Val_ok_inj.
Qed.

(** [Parse] keeps a descriptor well formed. *)
Lemma wf_update_numeric U x o o' :
  wf o -> 2 <= index (value o) ->
  update_numeric_value_n_status U x o = Some o' -> wf o'.
Proof.
  intros [] Hk E.
  pose proof (update_numeric_value_n_status_frame _ _ _ _ E)
    as (_ & _ & _ & _ & Eb & _ & Emin & Emax).
  unfold update_numeric_value_n_status in E.
  constructor; rewrite ?Eb, ?Emin, ?Emax; try done;
    destruct (value o), (min o), (max o); simplify_eq/=; try done; lia.
Qed.

Lemma wf_Parse strtod p o st p' o' :
  wf o -> Parse strtod p o = Some (st, p', o') -> wf o'.
Proof.
  intros Hwf. rewrite Parse_first.
  destruct (first_occurrence o (args p)) as [[i a]|];
    [|intros [= <- <- <-]; by destruct Hwf].
  pose proof (wf_set_matched_name (which_name o a.2) o Hwf) as Hwf1.
  unfold Parse_matched.
  destruct (Nat.eqb_spec 0 (index (value o))) as [E0|E0].
  - rewrite update_numeric_value_n_status_bool by done.
    intros [= <- <- <-]. destruct Hwf. constructor; simpl; try done;
      [destruct (min o)|destruct (max o)]; simplify_eq/=; congruence.
  - destruct (_ !! S i) as [v|]; [|intros [= <- <- <-]; by destruct Hwf].
    destruct (Nat.eqb_spec 1 (index (value o))) as [E1|E1].
    { intros [= <- <- <-]. destruct Hwf. constructor; simpl; try done;
        [destruct (min o)|destruct (max o)]; simplify_eq/=; congruence. }
    assert (2 <= index (value (set_matched_name (which_name o a.2) o)))
      as Hk by (simpl; lia).
    destruct (Nat.leb 2 (index (value o)) && Nat.leb (index (value o)) 4).
    + unfold deal_integer.
      destruct (strtoll _ _) as [[x n]|]; [|done]. simpl.
      destruct (Nat.ltb n _); [intros [= <- <- <-]; by destruct Hwf|].
      destruct (update_numeric_value_n_status _ _ _) as [o1|] eqn:E; [|done].
      intros [= <- <- <-]. by eapply wf_update_numeric.
    + unfold deal_floating. destruct (strtod v.2) as [d n].
      destruct (_ || _); [intros [= <- <- <-]; by destruct Hwf|].
      destruct (update_numeric_value_n_status _ _ _) as [o1|] eqn:E; [|done].
      intros [= <- <- <-]. by eapply wf_update_numeric.
Qed.

(** * The demonstration program, run *)

(** The constructor on the typical command line: [-ab] becomes [-a], [-b]. *)
Example typical_tokens : OptionParser_new Test.argv = Some Test.op.
Proof. reflexivity. Qed.

(** The statuses, matched names and values that the comment at the end of
    [testLoyOpt.cc] reports, and the two unparsed arguments. *)
Example typical_test_case :
  Test.main Strtod.strtod Test.argv Test.options =
  Some (Test.expected, ["--string_d_typo"; "opps"], "--string_d_typo").
Proof. vm_compute. reflexivity. Qed.

(** The end-to-end scenario of the specification. *)
Example end_to_end_scenario :
  Test.main Strtod.strtod ["prog"; "-ab"; "-c"; "hello"; "-g"; "1000"]
    [Option_bool "-a" ""; Option_bool "-b" "";
     Option_string "" "-c" ""; Option_range Tint32 50%Z 0%Z 100%Z "-g" ""] =
  Some ([(Parsed, "-a", VBool true); (Parsed, "-b", VBool true);
         (Parsed, "-c", VString "hello"); (ClampedMax, "-g", VInt32 100)],
        [], "").
Proof. vm_compute. reflexivity. Qed.

(** The floating kinds: [--float_m] has range [[-10, 100]].  A value in
    range is narrowed to [float]; one below is clamped; NaN and a literal
    with trailing text are invalid and leave the default. *)
Example float_m_cases :
  (fun v =>
     (fun r : Status * OptionParser * OptionBase => (r.1.1, value r.2)) <$>
       Parse Strtod.strtod
         (mkParser [(true, "prog"); (false, "--float_m"); (false, v)] "prog")
         Test.opt_float_m)
    <$> ["0.1"; "-20"; "1e40"; "nan"; "3.5e"; ""] =
  [Some (Parsed, VFloat (S754_finite false 13421773 (-27)));
   Some (ClampedMin, VFloat (S754_finite true 10485760 (-20)));
   Some (ClampedMax, VFloat (S754_finite false 13107200 (-17)));
   Some (ValueInvalid, VFloat (S754_zero false));
   Some (ValueInvalid, VFloat (S754_zero false));
   Some (Parsed, VFloat (S754_zero false))].
Proof. vm_compute. reflexivity. Qed.

(** * The theorems at concrete inputs *)

Ltac wf_by_computation :=
  constructor; vm_compute; repeat split;
  first [reflexivity | discriminate | exact I].

Ltac no_earlier_occurrence :=
  let j := fresh "j" in let b := fresh "b" in
  let Hj := fresh "Hj" in let Hb := fresh "Hb" in
  intros j b Hj Hb;
  repeat (destruct j as [|j]; [injection Hb as <-; vm_compute; intros [?|?]; discriminate|]);
  simpl in Hj; lia.

(** C1 at the argument vector [-abc -x], a program invoked under a name
    that looks like merged flags.  The claim keeps the token at index 0
    verbatim; the constructor's loop starts at index 0 and splits it: the
    parser holds [-a] (consumed), [-b], [-c] and [-x], the executable name
    is [-a] where the comment on [ExecName] promises the name of the
    executable, and [-b] and [-c] are reported as unparsed arguments. *)
Theorem token_0_is_split :
  OptionParser_new ["-abc"; "-x"] =
    Some (mkParser [(true, "-a"); (false, "-b"); (false, "-c"); (false, "-x")]
                   "-a") /\
  ExecName <$> OptionParser_new ["-abc"; "-x"] = Some "-a" /\
  GetAllUnparsedArgs <$> OptionParser_new ["-abc"; "-x"]
    = Some ["-b"; "-c"; "-x"] /\
  spec_tokenize ["-abc"; "-x"] = ["-abc"; "-x"].
Proof. split_and!; reflexivity. Qed.

(** C1 fails at index 0: a first argument that looks like merged flags is
    split like any other, where the specification keeps it verbatim. *)
Lemma tokenizer_splits_token_0 :
  (fun p => texts (args p)) <$> OptionParser_new ["-abc"; "-x"]
    = Some ["-a"; "-b"; "-c"; "-x"] /\
  spec_tokenize ["-abc"; "-x"] = ["-abc"; "-x"] /\
  (fun p => texts (args p)) <$> OptionParser_new ["-abc"; "-x"]
    <> Some (spec_tokenize ["-abc"; "-x"]).
Proof. split; [reflexivity|]. split; [reflexivity|]. vm_compute. discriminate. Qed.

(** The tokenizer on the typical command line, whose first argument is no
    cluster. *)
Lemma tokenizer_expands_every_token_witness :
  spec_is_cluster "./test_loyopt" = false /\
  exists p, OptionParser_new Test.argv = Some p /\
            texts (args p) = spec_tokenize Test.argv.
Proof.
  split; [reflexivity|].
  destruct (tokenizer_expands_every_token Test.argv)
    as (_ & _ & _ & p & HP & _ & _ & Hverbatim).
  exists p. split; [exact HP|]. apply Hverbatim. reflexivity.
Defined.

(** C2 fails when the converted value is a bound: [-g 0] with range
    [[0, 100]] stores [0], the lower bound, with status [Parsed]. *)
Lemma stored_bound_not_clamped :
  match Parse Strtod.strtod Test.op_bound Test.opt_int32_g with
  | Some (st, _, o') =>
      st = Parsed /\ status o' = Parsed /\
      value o' = VInt32 0 /\ min o' = VInt32 0 /\
      ~ (value o' = min o' <-> status o' = ClampedMin)
  | None => False
  end.
Proof.
  vm_compute. split_and!; try reflexivity.
  intros [H _]. specialize (H eq_refl). discriminate.
Qed.

(** C2 at [-g 1000] with range [[0, 100]], and at [--float_m -20] with
    range [[-10, 100]]. *)
Lemma Parse_clamps_witness :
  (wf Test.opt_int32_g /\
   first_occurrence Test.opt_int32_g (args Test.op) = Some (9, (false, "-g")) /\
   strtoll "1000" (base Test.opt_int32_g) = Some (1000%Z, 4) /\
   exists stored p' o',
     Parse Strtod.strtod Test.op Test.opt_int32_g = Some (status o', p', o') /\
     int_value (value o') = Some stored /\ (0 <= stored <= 100)%Z /\
     (status o' = ClampedMax <-> (100 < 1000)%Z)) /\
  (wf Test.opt_float_m /\
   first_occurrence Test.opt_float_m (args Test.op_float)
     = Some (1, (false, "--float_m")) /\
   exists p' o',
     Parse Strtod.strtod Test.op_float Test.opt_float_m
       = Some (ClampedMin, p', o') /\
     value o' = min Test.opt_float_m).
Proof.
  split.
  - assert (wf Test.opt_int32_g) as Hwf by wf_by_computation.
    split; [exact Hwf|]. split; [reflexivity|]. split; [reflexivity|].
    destruct (Parse_clamps Strtod.strtod Test.op Test.opt_int32_g
                9 false "-g" false "1000") as [Hint _];
      [exact Hwf | reflexivity | reflexivity |].
    destruct (Hint 1000%Z 4 0%Z 100%Z)
      as (stored & p' & o' & HP & Hv & _ & Hr & _ & HM & _);
      [unfold is_integer_kind; simpl; lia | reflexivity | reflexivity | lia
      | reflexivity | simpl; lia |].
    exists stored, p', o'. auto.
  - assert (wf Test.opt_float_m) as Hwf by wf_by_computation.
    split; [exact Hwf|]. split; [reflexivity|].
    destruct (Parse_clamps Strtod.strtod Test.op_float Test.opt_float_m
                1 false "--float_m" false "-20") as (_ & _ & Hflt);
      [exact Hwf | reflexivity | reflexivity |].
    destruct (Hflt (Strtod.strtod "-20").1 (Strtod.strtod "-20").2
                (convert Tint32 Tfloat (-10)%Z) (convert Tint32 Tfloat 100%Z))
      as (stored & p' & o' & HP & Hv & _ & _ & Hmin & _ & _ & Hlo & _);
      [reflexivity | reflexivity | reflexivity | vm_compute; reflexivity
      | vm_compute; reflexivity | vm_compute; lia | vm_compute; reflexivity
      | vm_compute; reflexivity |].
    assert (status o' = ClampedMin) as Hst
      by (apply Hmin; vm_compute; reflexivity).
    exists p', o'. split; [by rewrite <- Hst|].
    rewrite Hv, (Hlo Hst). reflexivity.
Defined.

(** C3 where the first occurrence of [-a] was consumed as the value of
    [-c]: it is the match point all the same. *)
Lemma Parse_scans_texts_in_order_witness :
  wf Test.opt_bool_a /\
  exists st p' o',
    Parse Strtod.strtod Test.op_consumed Test.opt_bool_a = Some (st, p', o') /\
    st <> NotFound /\ args p' !! 2 = Some (true, "-a") /\
    GetLastMatchedName o' = "-a".
Proof.
  assert (wf Test.opt_bool_a) as Hwf by wf_by_computation.
  split; [exact Hwf|].
  destruct (Parse_scans_texts_in_order Strtod.strtod Test.op_consumed
              Test.opt_bool_a Hwf)
    as (st & p' & o' & HP & _ & _ & _ & Hfirst & _).
  destruct (Hfirst 2 true "-a") as (Hnf & H2 & Hm & _);
    [reflexivity | left; reflexivity | no_earlier_occurrence |].
  exists st, p', o'. auto.
Defined.

(** C4 at [--int32_i 0x5x5x], base 16: [strtoll] stops at the first [x]
    after the prefix. *)
Lemma Parse_malformed_literal_witness :
  wf Test.opt_int32_i /\
  first_occurrence Test.opt_int32_i (args Test.op)
    = Some (13, (false, "--int32_i")) /\
  strtoll "0x5x5x" (base Test.opt_int32_i) = Some (5%Z, 3) /\
  exists p' o',
    Parse Strtod.strtod Test.op Test.opt_int32_i = Some (ValueInvalid, p', o') /\
    value o' = value Test.opt_int32_i.
Proof.
  assert (wf Test.opt_int32_i) as Hwf by wf_by_computation.
  split; [exact Hwf|]. split; [reflexivity|]. split; [reflexivity|].
  destruct (Parse_malformed_literal Strtod.strtod Test.op Test.opt_int32_i
              13 false "--int32_i" false "0x5x5x")
    as (p' & o' & HP & _ & Hv & _);
    [exact Hwf | reflexivity | reflexivity | |].
  - left. split; [unfold is_integer_kind; simpl; lia|].
    exists 5%Z, 3. split; [reflexivity|simpl; lia].
  - exists p', o'. auto.
Defined.

(** C5 at [-n], the last token of the typical command line. *)
Lemma Parse_value_token_witness :
  wf Test.opt_double_n /\ index (value Test.opt_double_n) <> 0 /\
  first_occurrence Test.opt_double_n (args Test.op) = Some (20, (false, "-n")) /\
  exists p' o',
    Parse Strtod.strtod Test.op Test.opt_double_n
      = Some (ValueNotFound, p', o') /\
    value o' = value Test.opt_double_n.
Proof.
  assert (wf Test.opt_double_n) as Hwf by wf_by_computation.
  split; [exact Hwf|]. split; [simpl; lia|]. split; [reflexivity|].
  destruct (Parse_value_token Strtod.strtod Test.op Test.opt_double_n
              20 false "-n")
    as (st & p' & o' & HP & _ & Hlast);
    [exact Hwf | simpl; lia | reflexivity |].
  change (args Test.op !! 21) with (@None Arg) in Hlast.
  destruct Hlast as (_ & -> & Hv & _).
  exists p', o'. auto.
Defined.

(** C6 at [-a] on the typical command line. *)
Lemma Parse_boolean_witness :
  value Test.opt_bool_a = VBool false /\
  exists p' o',
    Parse Strtod.strtod Test.op Test.opt_bool_a = Some (Parsed, p', o') /\
    value o' = VBool true /\ args p' !! 3 = Some (false, "-b").
Proof.
  split; [reflexivity|].
  destruct (Parse_boolean Strtod.strtod Test.op Test.opt_bool_a false)
    as [(st & p' & o' & HP & _ & Hcase) _]; [reflexivity|].
  change (first_occurrence Test.opt_bool_a (args Test.op))
    with (Some (2, (false, "-a"))) in Hcase.
  destruct Hcase as (-> & Hv & _ & Hnext & _).
  exists p', o'. auto.
Defined.

(** C7 on the typical command line, before any descriptor is parsed. *)
Lemma unparsed_queries_witness :
  args Test.op !! 1 = Some (false, "-?") /\ FirstUnparsedArg Test.op = "-?".
Proof.
  split; [reflexivity|].
  destruct (unparsed_queries Test.op) as (Hfirst & _).
  apply (Hfirst 1); [reflexivity|].
  intros j b Hj Hb.
  destruct j as [|j]; [by injection Hb as <-|simpl in Hj; lia].
Defined.

(** C8 at [-g 1000]. *)
Lemma Parse_returns_stored_status_witness :
  wf Test.opt_int32_g /\
  exists st p' o',
    Parse Strtod.strtod Test.op Test.opt_int32_g = Some (st, p', o') /\
    status o' <> NotParsed /\ st = status o'.
Proof.
  assert (wf Test.opt_int32_g) as Hwf by wf_by_computation.
  split; [exact Hwf|].
  destruct (Parse_returns_stored_status Strtod.strtod Test.op Test.opt_int32_g)
    as [Htotal Hstatus].
  destruct (Htotal Hwf) as [[[st p'] o'] HP].
  destruct (Hstatus st p' o' HP) as (Hne & Hst & _).
  exists st, p', o'. auto.
Defined.

(** C9 at [-e] followed by the empty string, with the full [int32_t]
    range: the value becomes [0] and the status is [Parsed]. *)
Lemma Parse_empty_integer_literal_witness :
  wf Test.opt_int32_e /\
  first_occurrence Test.opt_int32_e (args Test.op_empty)
    = Some (1, (false, "-e")) /\
  exists p' o',
    Parse Strtod.strtod Test.op_empty Test.opt_int32_e = Some (Parsed, p', o') /\
    int_value (value o') = Some 0%Z.
Proof.
  assert (wf Test.opt_int32_e) as Hwf by wf_by_computation.
  split; [exact Hwf|]. split; [reflexivity|].
  destruct (Parse_empty_integer_literal Strtod.strtod Test.op_empty
              Test.opt_int32_e 1 false "-e" false)
    as (_ & lo & hi & p' & o' & Hlo & Hhi & HP & _ & _ & Hs & Hv & _);
    [exact Hwf | unfold is_integer_kind; simpl; lia | reflexivity
    | reflexivity |].
  injection Hlo as <-. injection Hhi as <-.
  exists p', o'. split; [|exact Hv].
  rewrite HP. by rewrite Hs.
Defined.

(** C10 for a program invoked under the name [-a]. *)
Lemma Parse_matches_token_0_witness :
  wf Test.opt_bool_a /\
  OptionParser_new ["-a"; "x"; "-a"] = Some Test.op_named_a /\
  exists p' o',
    Parse Strtod.strtod Test.op_named_a Test.opt_bool_a = Some (Parsed, p', o') /\
    args p' !! 2 = Some (false, "-a").
Proof.
  assert (wf Test.opt_bool_a) as Hwf by wf_by_computation.
  split; [exact Hwf|]. split; [reflexivity|].
  destruct (Parse_matches_token_0 Strtod.strtod Test.op_named_a Test.opt_bool_a
              true "-a" [(false, "x"); (false, "-a")])
    as (_ & (st & p' & o' & HP & Hst & _ & _ & _ & Hlater & _) & _);
    [exact Hwf | reflexivity | left; reflexivity |].
  exists p', o'. split.
  - assert (Parse Strtod.strtod Test.op_named_a Test.opt_bool_a
            = Some (Parsed, p', o')) as ->; [|done].
    rewrite HP. f_equal. f_equal. f_equal.
    revert HP. vm_compute. by intros [= <- _ _].
  - by rewrite (Hlater 2) by lia.
Defined.

(** * Further properties of the parser *)

(** ** Which tokens [Parse] marks *)

Section Marks.

Variable strtod : string -> spec_float * nat.

(** The token list after the body of the match. *)
Lemma Parse_matched_args_exact type i a args o args' o' :
  Parse_matched strtod type i a args o = Some (args', o') ->
  args' =
  if Nat.eqb 0 type then <[i := (true, a.2)]> args
  else match args !! S i with
       | Some v => <[S i := (true, v.2)]> (<[i := (true, a.2)]> args)
       | None => <[i := (true, a.2)]> args
       end.
Proof.
  unfold Parse_matched. intros H.
  destruct (Nat.eqb 0 type).
  - destruct (update_numeric_value_n_status Tbool true o); by simplify_eq/=.
  - rewrite list_lookup_insert_ne in H by lia.
    destruct (args !! S i) as [v|]; [|by simplify_eq/=].
    destruct (Nat.eqb 1 type); [by simplify_eq/=|].
    destruct (Nat.leb 2 type && Nat.leb type 4).
    + destruct (deal_integer o v.2); by simplify_eq/=.
    + destruct (deal_floating strtod o v.2); by simplify_eq/=.
Qed.

Lemma mark_lookup ks (l : list Arg) k :
  mark ks l !! k = (fun a : Arg => (a.1 || bool_decide (k ∈ ks), a.2)) <$> l !! k.
Proof. unfold mark. by rewrite list_lookup_imap. Qed.

Lemma mark_nil (l : list Arg) : mark [] l = l.
Proof.
  apply list_eq. intros k. rewrite mark_lookup.
  destruct (l !! k) as [[f t]|]; simpl; [|done].
  by rewrite orb_false_r.
Qed.

Lemma mark_one (l : list Arg) i a :
  l !! i = Some a -> mark [i] l = <[i := (true, a.2)]> l.
Proof.
  intros Ha. apply list_eq. intros k. rewrite mark_lookup.
  destruct (decide (k = i)) as [->|Hk].
  - rewrite list_lookup_insert_eq by (by eapply lookup_lt_Some).
    rewrite Ha. cbn [fmap option_fmap option_map].
    rewrite bool_decide_eq_true_2 by (rewrite elem_of_cons; auto).
    by rewrite orb_true_r.
  - rewrite list_lookup_insert_ne by done.
    destruct (l !! k) as [[f t]|]; cbn [fmap option_fmap option_map]; [|done].
    rewrite bool_decide_eq_false_2; [by rewrite orb_false_r|].
    rewrite elem_of_cons, elem_of_nil. tauto.
Qed.

Lemma mark_two (l : list Arg) i a v :
  l !! i = Some a -> l !! S i = Some v ->
  mark [i; S i] l = <[S i := (true, v.2)]> (<[i := (true, a.2)]> l).
Proof.
  intros Ha Hv. apply list_eq. intros k. rewrite mark_lookup.
  pose proof (lookup_lt_Some _ _ _ Ha). pose proof (lookup_lt_Some _ _ _ Hv).
  destruct (decide (k = S i)) as [->|Hk1].
  - rewrite list_lookup_insert_eq by (by rewrite length_insert).
    rewrite Hv. cbn [fmap option_fmap option_map].
    rewrite bool_decide_eq_true_2 by (rewrite !elem_of_cons; auto).
    by rewrite orb_true_r.
  - rewrite list_lookup_insert_ne by done.
    destruct (decide (k = i)) as [->|Hk2].
    + rewrite list_lookup_insert_eq by done. rewrite Ha.
      cbn [fmap option_fmap option_map].
      rewrite bool_decide_eq_true_2 by (rewrite !elem_of_cons; auto).
      by rewrite orb_true_r.
    + rewrite list_lookup_insert_ne by done.
      destruct (l !! k) as [[f t]|]; cbn [fmap option_fmap option_map]; [|done].
      rewrite bool_decide_eq_false_2; [by rewrite orb_false_r|].
      rewrite !elem_of_cons, elem_of_nil. tauto.
Qed.

(** [Parse] marks the claimed tokens and nothing else. *)
Lemma Parse_marks p o st p' o' :
  Parse strtod p o = Some (st, p', o') ->
  args p' = mark (claimed o (args p)) (args p) /\ exec_name p' = exec_name p.
Proof.
  rewrite Parse_first. unfold claimed.
  destruct (first_occurrence o (args p)) as [[i a]|] eqn:Hf.
  - apply first_occurrence_Some in Hf as (Ha & _).
    destruct (Parse_matched _ _ _ _ _ _) as [[l1 o1]|] eqn:E; [|done].
    intros [= <- <- <-]. cbn [args exec_name]. split; [|done].
    apply Parse_matched_args_exact in E. rewrite E.
    destruct (Nat.eqb 0 (index (value o))); [by rewrite (mark_one _ _ a)|].
    destruct (args p !! S i) as [v|] eqn:Hv.
    + destruct (Nat.ltb_spec (S i) (length (args p))) as [_|Hl];
        [by rewrite (mark_two _ _ a v)|].
      apply lookup_lt_Some in Hv. lia.
    + destruct (Nat.ltb_spec (S i) (length (args p))) as [Hl|_];
        [|by rewrite (mark_one _ _ a)].
      apply lookup_ge_None in Hv. lia.
  - intros [= <- <- <-]. by rewrite mark_nil.
Qed.

(** ** What [Parse] leaves alone *)

Lemma update_numeric_value_n_status_shape U x o o' :
  update_numeric_value_n_status U x o = Some o' ->
  exists s v, o' = set_value v (set_status s o).
Proof.
  unfold update_numeric_value_n_status. intros H.
  destruct (index (value o)) as [|[|[|[|[|[|[|k]]]]]]];
    try (injection H as <-; by eexists _, _);
    match type of H with
    | (get ?T _ ≫= _) = _ =>
        destruct (get T (min o)) as [lo|]; [|done];
        destruct (get T (max o)) as [hi|]; [|done];
        injection H as <-; by eexists _, _
    end.
Qed.

Lemma Parse_matched_shape type i a l o l' o' :
  Parse_matched strtod type i a l o = Some (l', o') ->
  exists s v, o' = set_value v (set_status s o).
Proof.
  unfold Parse_matched. intros H.
  destruct (Nat.eqb 0 type).
  - destruct (update_numeric_value_n_status Tbool true o) as [o1|] eqn:E;
      simplify_eq/=. by eapply update_numeric_value_n_status_shape.
  - destruct (_ !! S i) as [v|].
    + destruct (Nat.eqb 1 type); [injection H as <- <-; by eexists _, _|].
      destruct (Nat.leb 2 type && Nat.leb type 4).
      * unfold deal_integer in H.
        destruct (strtoll _ _) as [[x n]|]; [|done]. simpl in H.
        destruct (Nat.ltb n _).
        { injection H as <- <-. exists ValueInvalid, (value o). by destruct o. }
        destruct (update_numeric_value_n_status _ _ _) as [o1|] eqn:E;
          simplify_eq/=. by eapply update_numeric_value_n_status_shape.
      * unfold deal_floating in H. destruct (strtod v.2) as [d n].
        destruct (_ || _).
        { injection H as <- <-. exists ValueInvalid, (value o). by destruct o. }
        destruct (update_numeric_value_n_status _ _ _) as [o1|] eqn:E;
          simplify_eq/=. by eapply update_numeric_value_n_status_shape.
    + injection H as <- <-. exists ValueNotFound, (value o). by destruct o.
Qed.

Lemma get_is_Some_index T v v' :
  index v = index v' -> is_Some (get T v) -> is_Some (get T v').
Proof. destruct T, v, v'; simpl; intros; simplify_eq; eauto; by apply is_Some_None in H0. Qed.

(** X1.  [Parse] writes the status, the value and the matched name of the
    descriptor and nothing else: names, base, default and bounds are what
    they were.  For a well-formed descriptor the value keeps its
    alternative, so the descriptor stays well formed and [Value()] keeps
    returning. *)
Theorem Parse_keeps_configuration p o st p' o' :
  Parse strtod p o = Some (st, p', o') ->
  (name o' = name o /\ alt_name o' = alt_name o /\ base o' = base o /\
   default_val o' = default_val o /\ min o' = min o /\ max o' = max o /\
   HelpLines o' = HelpLines o) /\
  (wf o ->
   wf o' /\ index (value o') = index (value o) /\
   forall T, is_Some (Value T o) -> is_Some (Value T o')).
Proof.
  intros HP. split.
  - revert HP. rewrite Parse_first.
    destruct (first_occurrence o (args p)) as [[i a]|].
    + destruct (Parse_matched _ _ _ _ _ _) as [[l1 o1]|] eqn:E; [|done].
      intros [= <- <- <-].
      apply Parse_matched_shape in E as (s & v & ->). by simpl.
    + by intros [= <- <- <-].
  - intros Hwf.
    pose proof (wf_Parse _ _ _ _ _ _ Hwf HP) as Hwf'.
    assert (min o' = min o) as Emin.
    { revert HP. rewrite Parse_first.
      destruct (first_occurrence o (args p)) as [[i a]|].
      - destruct (Parse_matched _ _ _ _ _ _) as [[l1 o1]|] eqn:E; [|done].
        intros [= <- <- <-].
        apply Parse_matched_shape in E as (s & v & ->). by simpl.
      - by intros [= <- <- <-]. }
    assert (index (value o') = index (value o)) as Eidx.
    { rewrite <- (wf_min _ Hwf'), Emin. apply (wf_min _ Hwf). }
    split; [done|]. split; [done|].
    intros T. unfold Value. by apply get_is_Some_index.
Qed.

(** ** Consumed flags only grow *)

Lemma unparsed_imap_sublist (g : nat -> bool) (l : list Arg) :
  sublist
    (filter (fun a : Arg => a.1 = false)
       (imap (fun k (a : Arg) => (a.1 || g k, a.2)) l)).*2
    (filter (fun a : Arg => a.1 = false) l).*2.
Proof.
  revert g. induction l as [|[f t] l IH]; intros g; [done|].
  rewrite imap_cons.
  destruct f; simpl.
  - rewrite !filter_cons_False by done. apply (IH (g ∘ S)).
  - destruct (g 0).
    + rewrite filter_cons_False by done.
      apply sublist_cons, (IH (g ∘ S)).
    + rewrite filter_cons_True by done.
      rewrite fmap_cons. apply sublist_skip, (IH (g ∘ S)).
Qed.

Lemma claimed_length o (l : list Arg) : length (claimed o l) <= 2.
Proof.
  unfold claimed. repeat case_match; simpl; lia.
Qed.

(** X2.  [Parse] never changes the number of tokens, their texts or the
    executable name, and never clears a consumed flag: token [k] is
    consumed afterwards exactly when it was before or is one of the at most
    two tokens the descriptor claims.  So the unparsed arguments afterwards
    are a subsequence of those before. *)
Theorem Parse_only_marks p o st p' o' :
  Parse strtod p o = Some (st, p', o') ->
  NumArgs p' = NumArgs p /\ texts (args p') = texts (args p) /\
  ExecName p' = ExecName p /\
  length (claimed o (args p)) <= 2 /\
  (forall k f t,
     args p !! k = Some (f, t) ->
     args p' !! k = Some (f || bool_decide (k ∈ claimed o (args p)), t)) /\
  sublist (GetAllUnparsedArgs p') (GetAllUnparsedArgs p).
Proof.
  intros HP.
  destruct (Parse_marks _ _ _ _ _ HP) as [Hargs Hexec].
  destruct (Parse_texts _ _ _ _ _ _ HP) as [Htexts _].
  split_and!; try done.
  - unfold NumArgs. rewrite Hargs. unfold mark. by rewrite length_imap.
  - apply claimed_length.
  - intros k f t Hk. by rewrite Hargs, mark_lookup, Hk.
  - unfold GetAllUnparsedArgs. rewrite !push_unparsed_filter. simpl.
    rewrite Hargs. apply unparsed_imap_sublist.
Qed.

(** ** The order of [Parse] calls *)

Lemma mark_texts ks (l : list Arg) : texts (mark ks l) = texts l.
Proof.
  apply list_eq. intros k. unfold texts.
  rewrite !list_lookup_fmap, mark_lookup. by destruct (l !! k).
Qed.

Lemma mark_mark ks1 ks2 (l : list Arg) :
  mark ks2 (mark ks1 l) = mark (ks1 ++ ks2)%list l.
Proof.
  apply list_eq. intros k. rewrite !mark_lookup.
  destruct (l !! k) as [[f t]|]; cbn [fmap option_fmap option_map fst snd];
    [|done].
  do 2 f_equal. rewrite <- orb_assoc. f_equal.
  destruct (bool_decide_reflect (k ∈ ks1)), (bool_decide_reflect (k ∈ ks2)),
    (bool_decide_reflect (k ∈ (ks1 ++ ks2)%list)) as [H|H];
    try done; rewrite elem_of_app in H; tauto.
Qed.

Lemma mark_ext ks1 ks2 (l : list Arg) :
  (forall k, k ∈ ks1 <-> k ∈ ks2) -> mark ks1 l = mark ks2 l.
Proof.
  intros H. apply list_eq. intros k. rewrite !mark_lookup.
  destruct (l !! k) as [[f t]|]; cbn [fmap option_fmap option_map fst snd];
    [|done].
  do 3 f_equal. apply bool_decide_ext, H.
Qed.

(** The claimed indices depend on the names, on whether the descriptor is
    boolean, and on the texts. *)
Lemma claimed_ext o o' (l l' : list Arg) :
  name o' = name o -> alt_name o' = alt_name o ->
  index (value o') = index (value o) -> texts l' = texts l ->
  claimed o' l' = claimed o l.
Proof.
  intros En Ea Ei Et. unfold claimed.
  assert (length l' = length l) as ->.
  { unfold texts in Et. by rewrite <- (length_fmap snd l'), Et, length_fmap. }
  assert (fst <$> first_occurrence o' l' = fst <$> first_occurrence o l) as Ef.
  { pose proof (first_occurrence_texts o' l') as H1.
    pose proof (first_occurrence_texts o l) as H2.
    rewrite Et in H1.
    rewrite (list_find_ext (names o') (names o)) in H1
      by (intros t; unfold names; by rewrite En, Ea).
    rewrite H2 in H1.
    destruct (first_occurrence o' l') as [[]|], (first_occurrence o l) as [[]|];
      by simplify_eq/=. }
  rewrite Ei.
  destruct (first_occurrence o' l') as [[i a]|],
           (first_occurrence o l) as [[j b]|]; by simplify_eq/=.
Qed.

Lemma Parse_by_texts p q o st p' o' :
  texts (args q) = texts (args p) ->
  Parse strtod p o = Some (st, p', o') ->
  exists q', Parse strtod q o = Some (st, q', o').
Proof.
  intros Ht HP. pose proof (Parse_flags_irrelevant strtod p q o Ht) as E.
  rewrite HP in E.
  destruct (Parse strtod q o) as [[[st2 q'] o2]|]; simplify_eq/=. by exists q'.
Qed.

(** X3.  The order in which two descriptors are parsed is irrelevant: the
    status and the descriptor each one ends with, and the parser after
    both, are the same either way. *)
Theorem Parse_order_irrelevant p o1 o2 s1 p1 o1' s2 p12 o2' :
  Parse strtod p o1 = Some (s1, p1, o1') ->
  Parse strtod p1 o2 = Some (s2, p12, o2') ->
  exists p2,
    Parse strtod p o2 = Some (s2, p2, o2') /\
    Parse strtod p2 o1 = Some (s1, p12, o1').
Proof.
  intros H1 H12.
  destruct (Parse_texts _ _ _ _ _ _ H1) as [Ht1 _].
  destruct (Parse_by_texts p1 p o2 _ _ _ (eq_sym Ht1) H12) as [p2 H2].
  destruct (Parse_texts _ _ _ _ _ _ H2) as [Ht2 _].
  destruct (Parse_by_texts p p2 o1 _ _ _ Ht2 H1) as [p21 H21].
  exists p2. split; [done|]. rewrite H21. do 3 f_equal.
  destruct (Parse_marks _ _ _ _ _ H1) as [A1 E1].
  destruct (Parse_marks _ _ _ _ _ H12) as [A12 E12].
  destruct (Parse_marks _ _ _ _ _ H2) as [A2 E2].
  destruct (Parse_marks _ _ _ _ _ H21) as [A21 E21].
  rewrite (claimed_ext o2 o2 (args p) (args p1)) in A12 by done.
  rewrite (claimed_ext o1 o1 (args p) (args p2)) in A21 by done.
  rewrite A1, mark_mark in A12. rewrite A2, mark_mark in A21.
  destruct p21 as [a21 e21], p12 as [a12 e12]. simpl in *. subst.
  f_equal; [|congruence].
  apply mark_ext. intros k. rewrite !elem_of_app. tauto.
Qed.

(** ** Parsing again *)

Lemma set_matched_name_id o : set_matched_name (matched_name o) o = o.
Proof. by destruct o. Qed.

Lemma update_numeric_value_n_status_again U x o o' :
  2 <= index (value o) ->
  update_numeric_value_n_status U x o = Some o' ->
  update_numeric_value_n_status U x o' = Some o'.
Proof.
  intros Hk H.
  unfold update_numeric_value_n_status in *.
  destruct o as [s nm alt m b dv v lo hi hl]. cbn -[clamp] in *.
  destruct v; cbn -[clamp] in *; try lia;
    destruct lo; try discriminate H;
    destruct hi; try discriminate H;
    cbn -[clamp] in *; by injection H as <-.
Qed.

Lemma update_numeric_value_n_status_index U x o o' :
  2 <= index (value o) ->
  update_numeric_value_n_status U x o = Some o' ->
  index (value o') = index (value o).
Proof.
  intros Hk H.
  unfold update_numeric_value_n_status in *.
  destruct o as [s nm alt m b dv v lo hi hl]. cbn -[clamp] in *.
  destruct v; cbn -[clamp] in *; try lia;
    destruct lo; try discriminate H;
    destruct hi; try discriminate H;
    cbn -[clamp] in *; by injection H as <-.
Qed.

(** The body of the match, run again on what it produced. *)
Lemma Parse_matched_again i a l o l' o' :
  l !! i = Some a ->
  Parse_matched strtod (index (value o)) i a l o = Some (l', o') ->
  Parse_matched strtod (index (value o')) i (true, a.2) l' o' = Some (l', o').
Proof.
  intros Ha H.
  pose proof (lookup_lt_Some _ _ _ Ha) as Hi.
  destruct (Nat.eqb_spec 0 (index (value o))) as [E0|E0].
  { rewrite Parse_matched_bool in H by done. injection H as <- <-.
    rewrite Parse_matched_bool by done.
    by rewrite list_insert_insert_eq. }
  destruct (l !! S i) as [[g v]|] eqn:Hv.
  - rewrite (Parse_matched_value _ _ _ _ _ _ g v) in H by done.
    cbv zeta in H. cbn [snd] in H.
    set (l2 := <[S i:=(true, v)]> (<[i:=(true, a.2)]> l)) in *.
    assert (l2 !! i = Some (true, a.2)) as H2i.
    { unfold l2. rewrite list_lookup_insert_ne by lia.
      by rewrite list_lookup_insert_eq. }
    assert (l2 !! S i = Some (true, v)) as H2v.
    { unfold l2. apply lookup_lt_Some in Hv.
      by rewrite list_lookup_insert_eq by (by rewrite length_insert). }
    assert (<[S i:=(true, v)]> (<[i:=(true, a.2)]> l2) = l2) as Hl2.
    { rewrite (list_insert_id l2 i) by done. by apply list_insert_id. }
    assert (forall o2 : OptionBase,
              index (value o2) = index (value o) ->
              Parse_matched strtod (index (value o2)) i (true, a.2) l2 o2 =
              if Nat.eqb 1 (index (value o)) then
                Some (l2, set_status Parsed (set_value (VString v) o2))
              else if Nat.leb 2 (index (value o)) && Nat.leb (index (value o)) 4
                   then o3 ← deal_integer o2 v; Some (l2, o3)
                   else o3 ← deal_floating strtod o2 v; Some (l2, o3)) as Hagain.
    { intros o2 E2.
      rewrite (Parse_matched_value _ _ _ _ _ _ true v) by (done || congruence).
      cbv zeta. cbn [snd]. by rewrite Hl2, E2. }
    destruct (Nat.eqb_spec 1 (index (value o))) as [E1|E1].
    { injection H as <- <-. rewrite Hagain by done.
      done. }
    assert (2 <= index (value o)) as Hk by lia.
    destruct (Nat.leb 2 (index (value o)) && Nat.leb (index (value o)) 4).
    + unfold deal_integer in H.
      destruct (strtoll v (base o)) as [[x n]|] eqn:Ex; [|done].
      cbn [mbind option_bind] in H.
      destruct (Nat.ltb n (String.length v)) eqn:En.
      * injection H as <- <-. rewrite Hagain by done.
        unfold deal_integer. cbn [base set_status]. rewrite Ex.
        cbn [mbind option_bind]. rewrite En. simpl. done.
      * destruct (update_numeric_value_n_status Tint64 x o) as [o1|] eqn:Eu;
          [|done].
        injection H as <- <-.
        destruct (update_numeric_value_n_status_frame _ _ _ _ Eu)
          as (_ & _ & _ & _ & Eb & _).
        assert (index (value o1) = index (value o)) as Eidx.
        { by eapply update_numeric_value_n_status_index. }
        rewrite Hagain by done.
        unfold deal_integer. rewrite Eb, Ex. cbn [mbind option_bind].
        rewrite En.
        by rewrite (update_numeric_value_n_status_again _ _ _ _ Hk Eu).
    + unfold deal_floating in H. destruct (strtod v) as [d n] eqn:Ed.
      destruct (Nat.ltb n (String.length v) || is_nan d) eqn:En.
      * injection H as <- <-. rewrite Hagain by done.
        unfold deal_floating. rewrite Ed, En. simpl. done.
      * destruct (update_numeric_value_n_status Tdouble d o) as [o1|] eqn:Eu;
          [|done].
        injection H as <- <-.
        assert (index (value o1) = index (value o)) as Eidx.
        { by eapply update_numeric_value_n_status_index. }
        rewrite Hagain by done.
        unfold deal_floating. rewrite Ed, En.
        by rewrite (update_numeric_value_n_status_again _ _ _ _ Hk Eu).
  - apply lookup_ge_None in Hv.
    rewrite Parse_matched_last in H by (done || lia).
    injection H as <- <-.
    rewrite Parse_matched_last by (simpl; rewrite ?length_insert; done || lia).
    rewrite list_insert_insert_eq. done.
Qed.

(** X4.  Parsing a descriptor again, against the parser the first call
    left, changes nothing: it returns the same status and leaves the same
    parser and the same descriptor. *)
Theorem Parse_idempotent p o st p' o' :
  Parse strtod p o = Some (st, p', o') ->
  Parse strtod p' o' = Some (st, p', o').
Proof.
  intros HP. pose proof HP as HP0.
  rewrite Parse_first in HP.
  destruct (first_occurrence o (args p)) as [[i a]|] eqn:Hf.
  - destruct (Parse_matched _ _ _ _ _ _) as [[l1 o1]|] eqn:E; [|done].
    injection HP as <- <- <-.
    pose proof Hf as (Ha & Hn & Hbefore)%first_occurrence_Some.
    pose proof (Parse_matched_frame _ _ _ _ _ _ _ _ E)
      as (_ & Hnf & Hm & Hname & Halt & _).
    destruct (Parse_first_occurrence _ _ _ _ _ _ _ _ Hf HP0)
      as (_ & _ & _ & Hi & _ & _).
    destruct (Parse_texts _ _ _ _ _ _ HP0) as [Ht _].
    cbn [args] in Hi, Ht.
    assert (first_occurrence o1 l1 = Some (i, (true, a.2))) as Hf1.
    { apply first_occurrence_Some. split; [done|]. split.
      - unfold names. rewrite Hname, Halt. exact Hn.
      - intros j b Hj Hb. unfold names. rewrite Hname, Halt.
        assert (exists b0, args p !! j = Some b0 /\ b0.2 = b.2) as (b0 & Hb0 & <-).
        { assert (texts l1 !! j = Some b.2) as Hjt
            by (unfold texts; by rewrite list_lookup_fmap, Hb).
          rewrite Ht in Hjt. unfold texts in Hjt.
          rewrite list_lookup_fmap in Hjt.
          destruct (args p !! j) as [b0|]; simplify_eq/=. by exists b0. }
        by eapply Hbefore. }
    rewrite Parse_first. cbn [args exec_name]. rewrite Hf1.
    assert (set_matched_name (which_name o1 (true, a.2).2) o1 = o1) as ->.
    { cbn [snd]. simpl in Hm, Hname.
      replace (which_name o1 a.2) with (matched_name o1);
        [apply set_matched_name_id|].
      rewrite Hm. unfold which_name. by rewrite Hname. }
    change (index (value o)) with
      (index (value (set_matched_name (which_name o a.2) o))) in E.
    rewrite (Parse_matched_again _ _ _ _ _ _ Ha E). by simpl.
  - injection HP as <- <- <-.
    rewrite Parse_first.
    assert (first_occurrence (set_status NotFound o) (args p) = None) as ->
      by exact Hf.
    by destruct o.
Qed.

(** ** String descriptors *)

(** X5.  For every string descriptor whose name first occurs at index [i]
    with a token after it: [Parse] gives [Parsed], the value is the text of
    that token, whatever it is, and the token is marked consumed. *)
Theorem Parse_string p o s i f t g v :
  value o = VString s ->
  first_occurrence o (args p) = Some (i, (f, t)) ->
  args p !! S i = Some (g, v) ->
  exists p' o',
    Parse strtod p o = Some (Parsed, p', o') /\
    value o' = VString v /\ status o' = Parsed /\
    args p' !! i = Some (true, t) /\ args p' !! S i = Some (true, v).
Proof.
  intros Hs Hf Hv.
  assert (index (value o) <> 0) as Ht by (by rewrite Hs).
  rewrite (Parse_with_value _ _ _ _ _ _ _ _ Ht Hf Hv). cbv zeta.
  rewrite Hs. cbn [index Nat.eqb mbind option_bind].
  eexists _, _. split; [done|]. cbn [args value status set_status set_value].
  pose proof (lookup_lt_Some _ _ _ Hv).
  apply first_occurrence_Some in Hf as (Ha%lookup_lt_Some & _).
  split_and!; try done.
  - rewrite list_lookup_insert_ne by lia. by rewrite list_lookup_insert_eq.
  - by rewrite list_lookup_insert_eq by (by rewrite length_insert).
Qed.

(** ** The two queries on a descriptor *)

Lemma IsValueUpdated_status o :
  IsValueUpdated o = true <->
  status o = Parsed \/ status o = ClampedMax \/ status o = ClampedMin.
Proof.
  unfold IsValueUpdated. destruct (status o); simpl;
    split; intros; try done; intuition discriminate.
Qed.

Lemma IsNameExist_status o :
  IsNameExist o = true <-> status o <> NotParsed /\ status o <> NotFound.
Proof.
  unfold IsNameExist. destruct (status o); simpl;
    split; intros; try done; intuition discriminate.
Qed.

Lemma Parse_matched_value_kept type i a l o l' o' :
  Parse_matched strtod type i a l o = Some (l', o') ->
  IsValueUpdated o' = true \/ value o' = value o.
Proof.
  assert (forall U x o1, update_numeric_value_n_status U x o = Some o1 ->
            IsValueUpdated o1 = true) as Hupd.
  { intros U x o1 E. apply IsValueUpdated_status.
    apply update_numeric_value_n_status_frame in E as (? & _). tauto. }
  unfold Parse_matched. intros H.
  destruct (Nat.eqb 0 type).
  - destruct (update_numeric_value_n_status Tbool true o) as [o1|] eqn:E;
      simplify_eq/=. left. by eapply Hupd.
  - destruct (_ !! S i) as [v|]; [|injection H as <- <-; by right].
    destruct (Nat.eqb 1 type); [injection H as <- <-; by left|].
    destruct (Nat.leb 2 type && Nat.leb type 4).
    + unfold deal_integer in H.
      destruct (strtoll _ _) as [[x n]|]; [|done]. simpl in H.
      destruct (Nat.ltb n _); [injection H as <- <-; by right|].
      destruct (update_numeric_value_n_status _ _ _) as [o1|] eqn:E;
        simplify_eq/=. left. by eapply Hupd.
    + unfold deal_floating in H. destruct (strtod v.2) as [d n].
      destruct (_ || _); [injection H as <- <-; by right|].
      destruct (update_numeric_value_n_status _ _ _) as [o1|] eqn:E;
        simplify_eq/=. left. by eapply Hupd.
Qed.

(** X6.  After [Parse], [IsNameExist] tells whether some token's text is
    one of the descriptor's names; [IsValueUpdated] implies [IsNameExist];
    and when [IsValueUpdated] is false the value is the one the descriptor
    had before the call. *)
Theorem Parse_queries p o st p' o' :
  Parse strtod p o = Some (st, p', o') ->
  (IsNameExist o' = true <->
   exists i a, args p !! i = Some a /\ names o a.2) /\
  (IsValueUpdated o' = true -> IsNameExist o' = true) /\
  (IsValueUpdated o' = false -> value o' = value o).
Proof.
  rewrite Parse_first.
  destruct (first_occurrence o (args p)) as [[i a]|] eqn:Hf.
  - destruct (Parse_matched _ _ _ _ _ _) as [[l1 o1]|] eqn:E; [|done].
    intros [= <- <- <-].
    pose proof (Parse_matched_frame _ _ _ _ _ _ _ _ E) as (H1 & H2 & _).
    assert (IsNameExist o1 = true) as Hex by (by apply IsNameExist_status).
    apply first_occurrence_Some in Hf as (Ha & Hn & _).
    split; [split; [by eauto|done]|]. split; [done|].
    intros Hno. apply Parse_matched_value_kept in E as [E|E]; [congruence|done].
  - intros [= <- <- <-].
    pose proof (proj1 (first_occurrence_None _ _) Hf) as Hnone.
    split; [|by split].
    split; [done|]. intros (i & a & Ha & Hn). by destruct (Hnone i a Ha).
Qed.

(** ** Integer descriptors never wrap *)

Lemma Parse_integer_cases p o st p' o' :
  wf o -> is_integer_kind (value o) ->
  Parse strtod p o = Some (st, p', o') ->
  value o' = value o \/
  exists x lo hi,
    int_value (min o) = Some lo /\ int_value (max o) = Some hi /\
    int_value (value o') = Some (int_clamp x lo hi).2 /\
    status o' = (int_clamp x lo hi).1 /\
    index (value o') = index (value o).
Proof.
  intros Hwf Hk.
  destruct (integer_kind_type _ Hk) as (Ht & E1 & E2).
  rewrite Parse_first.
  destruct (first_occurrence o (args p)) as [[i [f t]]|] eqn:Hf;
    [|intros [= <- <- <-]; by left].
  destruct (args p !! S i) as [[g v]|] eqn:Hv.
  - rewrite (Parse_matched_value _ _ _ _ _ _ g v) by done. cbv zeta.
    cbn [value set_matched_name snd]. rewrite E1, E2.
    destruct (strtoll_defined v (base o) (wf_base _ Hwf)) as (x & n & Hx & Hr).
    destruct (Nat.ltb_spec n (String.length v)).
    + rewrite (deal_integer_invalid _ _ x n) by done.
      intros [= <- <- <-]. by left.
    + rewrite (deal_integer_converted _ _ x n) by done.
      destruct (update_integer (set_matched_name (which_name o t) o) x)
        as (lo & hi & o1 & Hlo & Hhi & -> & Hs & Hval & Hidx);
        [by apply wf_set_matched_name|done|done|].
      intros [= <- <- <-]. right. by exists x, lo, hi.
  - apply lookup_ge_None in Hv.
    rewrite Parse_matched_last by (done || lia).
    intros [= <- <- <-]. by left.
Qed.

(** X7.  An integer descriptor never holds a wrapped or out-of-range
    number: after [Parse] the value is still of the descriptor's integer
    type and within that type's range, and a value that was within bounds
    [lo <= hi] before the call is within them after it, whatever the
    arguments were. *)
Theorem Parse_integer_in_range p o st p' o' :
  wf o -> is_integer_kind (value o) -> Val_ok (value o) ->
  Parse strtod p o = Some (st, p', o') ->
  Val_ok (value o') /\ index (value o') = index (value o) /\
  forall lo hi x0,
    int_value (min o) = Some lo -> int_value (max o) = Some hi ->
    (lo <= hi)%Z ->
    int_value (value o) = Some x0 -> (lo <= x0 <= hi)%Z ->
    exists x1, int_value (value o') = Some x1 /\ (lo <= x1 <= hi)%Z.
Proof.
  intros Hwf Hk Hok HP.
  destruct (Parse_integer_cases _ _ _ _ _ Hwf Hk HP)
    as [->|(x & lo & hi & Hlo & Hhi & Hval & _ & Hidx)].
  { split; [done|]. split; [done|]. intros lo hi x0 _ _ _ Hx0 Hr. by exists x0. }
  pose proof (int_clamp_cases x lo hi) as Hc.
  destruct Hwf as [_ Hmin Hmax Hmin_ok Hmax_ok].
  split; [|split; [done|]].
  - unfold is_integer_kind in Hk.
    destruct (value o'), (value o), (min o), (max o);
      simpl in *; simplify_eq/=; try lia.
  - intros lo' hi' x0 Hlo' Hhi' Hle _ _.
    assert (lo' = lo) as -> by congruence.
    assert (hi' = hi) as -> by congruence.
    eexists. split; [done|]. lia.
Qed.

(** ** The empty string as a name *)

(** X8.  A descriptor whose alternative name is the empty string — what
    every constructor gives when none is passed — takes an empty-string
    argument for an occurrence of its name: [Parse] does not answer
    [NotFound]; and when no earlier token is its name or empty, the empty
    token is the match point, so a boolean descriptor becomes [true]. *)
Theorem Parse_empty_token_is_a_name p o i f :
  wf o -> alt_name o = "" -> args p !! i = Some (f, "") ->
  exists st p' o',
    Parse strtod p o = Some (st, p', o') /\
    st <> NotFound /\ IsNameExist o' = true /\
    ((forall j b, j < i -> args p !! j = Some b -> ~ names o b.2) ->
     args p' !! i = Some (true, "") /\
     (name o <> "" -> GetLastMatchedName o' = "" /\ matched_name o' = by_alt_name) /\
     (index (value o) = 0 -> st = Parsed /\ value o' = VBool true)).
Proof.
  intros Hwf Halt Hi.
  destruct (Parse_total strtod p o Hwf) as [[[st p'] o'] HP].
  exists st, p', o'. split; [done|].
  assert (names o "") as Hn by (right; by rewrite Halt).
  destruct (first_occurrence o (args p)) as [[k a]|] eqn:Hf;
    [|by destruct (proj1 (first_occurrence_None _ _) Hf i _ Hi)].
  destruct (Parse_first_occurrence _ _ _ _ _ _ _ _ Hf HP)
    as (Hst & Hnf & Hnp & _).
  split; [done|]. split; [apply IsNameExist_status; by rewrite <- Hst|].
  intros Hbefore.
  assert (first_occurrence o (args p) = Some (i, (f, ""))) as Hf'
    by (by apply first_occurrence_Some).
  rewrite Hf in Hf'. injection Hf' as -> ->.
  destruct (Parse_first_occurrence _ _ _ _ _ _ _ _ Hf HP)
    as (_ & _ & _ & Hmark & Hlast & _).
  split; [done|]. split.
  - intros Hname. split; [done|].
    revert HP. rewrite Parse_first, Hf.
    destruct (Parse_matched _ _ _ _ _ _) as [[l1 o1]|] eqn:E; [|done].
    intros [= <- <- <-].
    apply Parse_matched_frame in E as (_ & _ & -> & _). simpl.
    unfold which_name. by destruct (String.eqb_spec (name o) "").
  - intros Hbool. revert HP. rewrite Parse_first, Hf.
    change (index (value o)) with
      (index (value (set_matched_name (which_name o (f, "").2) o))).
    rewrite Parse_matched_bool by done. by intros [= <- <- <-].
Qed.

(** ** Parsing every descriptor in turn *)

(** X9.  The loop of [main] over well-formed descriptors always runs to
    the end, and each descriptor comes out exactly as [Parse] alone would
    leave it on the parser the loop started with: no descriptor's result
    depends on the ones parsed before it.  The parser at the end has the
    same texts, and a token is consumed in it exactly when it was consumed
    at the start or some descriptor claims it. *)
Theorem ParseAll_independent p os :
  Forall wf os ->
  exists p' os',
    Test.ParseAll strtod p os = Some (p', os') /\
    Forall2 (fun o o' => exists st q, Parse strtod p o = Some (st, q, o'))
            os os' /\
    texts (args p') = texts (args p) /\ exec_name p' = exec_name p /\
    forall k f t,
      args p !! k = Some (f, t) ->
      args p' !! k =
      Some (f || bool_decide (k ∈ os ≫= fun o => claimed o (args p)), t).
Proof.
  intros Hwf.
  enough (exists p' os',
    Test.ParseAll strtod p os = Some (p', os') /\
    Forall2 (fun o o' => exists st q, Parse strtod p o = Some (st, q, o'))
            os os' /\
    exec_name p' = exec_name p /\
    args p' = mark (os ≫= fun o => claimed o (args p)) (args p))
    as (p' & os' & HP & HF & He & Ha).
  { exists p', os'. split; [done|]. split; [done|].
    split; [by rewrite Ha, mark_texts|]. split; [done|].
    intros k f t Hk. by rewrite Ha, mark_lookup, Hk. }
  revert p. induction Hwf as [|o rest Ho Hrest IH]; intros p.
  - exists p, []. split; [done|]. split; [constructor|]. split; [done|].
    by rewrite mark_nil.
  - destruct (Parse_total strtod p o Ho) as [[[st p1] o1] HP1].
    destruct (IH p1) as (p2 & rest' & HP2 & HF & He & Ha).
    destruct (Parse_texts _ _ _ _ _ _ HP1) as [Ht1 _].
    destruct (Parse_marks _ _ _ _ _ HP1) as [Ha1 He1].
    exists p2, (o1 :: rest'). split; [|split; [|split]].
    + simpl. rewrite HP1. simpl. by rewrite HP2.
    + constructor; [by eauto|].
      eapply Forall2_impl; [exact HF|].
      intros o2 o2' (st2 & q & Hq).
      destruct (Parse_by_texts p1 p o2 _ _ _ (eq_sym Ht1) Hq) as [q' Hq'].
      by eauto.
    + congruence.
    + rewrite Ha, Ha1, mark_mark, bind_cons. f_equal. f_equal.
      apply list_bind_ext; [|done].
      intros o2. apply claimed_ext; try done. by rewrite <- Ha1.
Qed.

End Marks.

(** ** The tokens of a parser are final *)

Lemma flag_token_not_cluster c : spec_expand (flag_token c) = [flag_token c].
Proof. done. Qed.

Lemma spec_expand_idem a : spec_expand a ≫= spec_expand = spec_expand a.
Proof.
  unfold spec_expand at 2 3. destruct (spec_is_cluster a) eqn:E.
  - unfold spec_split. destruct a as [|c0 rest]; [done|].
    induction (list_ascii_of_string rest) as [|c l IH]; [done|].
    rewrite fmap_cons, bind_cons, IH. by rewrite flag_token_not_cluster.
  - rewrite bind_cons. unfold spec_expand. rewrite E. done.
Qed.

Lemma spec_expand_bind_idem argv :
  (argv ≫= spec_expand) ≫= spec_expand = argv ≫= spec_expand.
Proof.
  induction argv as [|a argv IH]; [done|].
  by rewrite bind_cons, bind_app, IH, spec_expand_idem.
Qed.

Lemma spec_expand_not_cluster a t :
  t ∈ spec_expand a -> spec_is_cluster t = false.
Proof.
  unfold spec_expand. destruct (spec_is_cluster a) eqn:E.
  - unfold spec_split. destruct a as [|c0 rest]; [by intros ?%elem_of_nil|].
    intros (c & -> & _)%list_elem_of_fmap. done.
  - by intros ->%list_elem_of_singleton.
Qed.

(** The constructor is a function of the expansion of its arguments. *)
Lemma OptionParser_new_expansion argv argv' :
  argv ≫= spec_expand = argv' ≫= spec_expand ->
  OptionParser_new argv = OptionParser_new argv'.
Proof. intros H. unfold OptionParser_new. by rewrite !foldl_push_arg, H. Qed.

Lemma OptionParser_new_texts argv p :
  OptionParser_new argv = Some p -> texts (args p) = argv ≫= spec_expand.
Proof.
  unfold OptionParser_new. rewrite foldl_push_arg. simpl.
  destruct (argv ≫= spec_expand) as [|t0 ts]; [done|]. simpl.
  intros [= <-]. simpl. f_equal. unfold texts.
  rewrite <- list_fmap_compose. apply list_fmap_id.
Qed.

Lemma length_bind_spec_expand argv :
  length argv <= length (argv ≫= spec_expand).
Proof.
  induction argv as [|a argv IH]; [done|].
  rewrite bind_cons, length_app. simpl.
  pose proof (spec_expand_nonempty a). destruct (spec_expand a); [done|].
  simpl. lia.
Qed.

(** X10.  In a constructed parser no token is a merged cluster any more,
    there are at least as many tokens as arguments, and the constructor run
    on the parser's own token texts builds the same parser again. *)
Theorem tokens_are_final argv p :
  OptionParser_new argv = Some p ->
  (forall t, t ∈ texts (args p) -> is_merged t = false) /\
  length argv <= NumArgs p /\
  OptionParser_new (texts (args p)) = Some p.
Proof.
  intros HP. pose proof (OptionParser_new_texts _ _ HP) as Ht. split_and!.
  - intros t. rewrite Ht, is_merged_spec.
    intros (a & Ha & _)%list_elem_of_bind. by eapply spec_expand_not_cluster.
  - unfold NumArgs. rewrite <- (length_fmap snd (args p)).
    fold (texts (args p)). rewrite Ht. apply length_bind_spec_expand.
  - rewrite <- HP. apply OptionParser_new_expansion.
    by rewrite Ht, spec_expand_bind_idem.
Qed.

(** X11.  Merged flags and separate flags are the same command line: a
    cluster [-c1c2...] anywhere among the arguments builds the parser that
    the separate arguments [-c1], [-c2], ... in its place build. *)
Theorem merged_flags_are_separate_flags pre cs post :
  spec_is_cluster (String "-" cs) = true ->
  OptionParser_new (pre ++ String "-" cs :: post) =
  OptionParser_new (pre ++ (flag_token <$> list_ascii_of_string cs) ++ post).
Proof.
  intros Hc. apply OptionParser_new_expansion.
  rewrite !bind_app, bind_cons. f_equal. f_equal.
  unfold spec_expand at 1. rewrite Hc. unfold spec_split.
  induction (list_ascii_of_string cs) as [|c l IH]; [done|].
  rewrite fmap_cons, bind_cons, flag_token_not_cluster. simpl. by f_equal.
Qed.

(** ** The executable name *)

Lemma list_ascii_of_string_inj a b :
  list_ascii_of_string a = list_ascii_of_string b -> a = b.
Proof.
  intros H. rewrite <- (string_of_list_ascii_of_string a),
    <- (string_of_list_ascii_of_string b). by rewrite H.
Qed.

Lemma list_ascii_of_string_app a b :
  list_ascii_of_string (a ++ b) =
  (list_ascii_of_string a ++ list_ascii_of_string b)%list.
Proof. induction a as [|c a IH]; simpl; [done|]. by rewrite IH. Qed.

Lemma list_ascii_of_substring k m s :
  list_ascii_of_string (substring k m s) =
  take m (drop k (list_ascii_of_string s)).
Proof.
  revert k m. induction s as [|c s IH]; intros [|k] [|m]; simpl; try done.
  by rewrite IH.
Qed.

Lemma last_sep_le s n : last_sep s n <= n.
Proof.
  induction n as [|i IH]; simpl; [done|].
  destruct (_ || _); lia.
Qed.

Lemma last_sep_is_sep s n :
  last_sep s n = 0 \/
  exists i, last_sep s n = S i /\ is_sep (char_at s i) = true.
Proof.
  induction n as [|i IH]; simpl; [by left|].
  destruct (Ascii.eqb (char_at s i) "/" || Ascii.eqb (char_at s i) "\") eqn:E;
    [|done].
  right. by exists i.
Qed.

Lemma last_sep_after s n j :
  last_sep s n <= j < n -> is_sep (char_at s j) = false.
Proof.
  induction n as [|i IH]; simpl; [lia|].
  destruct (Ascii.eqb (char_at s i) "/" || Ascii.eqb (char_at s i) "\") eqn:E;
    [lia|].
  intros Hj. destruct (decide (j = i)) as [->|]; [exact E|].
  apply IH. lia.
Qed.

(** X12.  The executable name of a constructed parser is what follows the
    last path separator of token 0: token 0 is a directory part followed by
    the name, the name holds no [/] and no backslash, and the directory part
    is empty or ends with one of the two. *)
Theorem ExecName_is_basename argv p :
  OptionParser_new argv = Some p ->
  exists dir rest,
    args p = (true, dir ++ ExecName p) :: rest /\
    (forall c, c ∈ list_ascii_of_string (ExecName p) -> is_sep c = false) /\
    (dir = "" \/ exists d c, dir = d ++ String c "" /\ is_sep c = true).
Proof.
  unfold OptionParser_new, ExecName.
  destruct (foldl push_arg [] argv) as [|[f s] l]; [done|].
  cbn. intros [= <-]. cbn.
  set (k := last_sep s (String.length s)).
  assert (Hk : k <= String.length s) by apply last_sep_le.
  exists (substring 0 k s), l. split_and!.
  - do 2 f_equal. apply list_ascii_of_string_inj.
    rewrite list_ascii_of_string_app, !list_ascii_of_substring, drop_0.
    rewrite (take_ge (drop k _)).
    + by rewrite take_drop.
    + rewrite length_drop, length_list_ascii_of_string. lia.
  - intros c. rewrite list_ascii_of_substring.
    intros (j & Hj & _)%elem_of_take. rewrite lookup_drop in Hj.
    pose proof (lookup_lt_Some _ _ _ Hj) as Hlt.
    rewrite length_list_ascii_of_string in Hlt.
    rewrite char_at_lookup in Hj by done. injection Hj as <-.
    apply (last_sep_after s (String.length s)). fold k. lia.
  - destruct (last_sep_is_sep s (String.length s)) as [E|(i & E & Hi)];
      fold k in E; rewrite E.
    + left. by destruct s.
    + right. exists (substring 0 i s), (char_at s i). split; [|done].
      apply list_ascii_of_string_inj.
      rewrite list_ascii_of_string_app, !list_ascii_of_substring, drop_0.
      cbn. apply take_S_r, char_at_lookup. lia.
Qed.

(** ** Freshly constructed descriptors *)

Lemma get_inj T x : get T (inj T x) = Some x.
Proof. by destruct T. Qed.

(** X13.  A numeric descriptor as its constructor leaves it: the base is the
    argument clamped into 2..36, the status is [NotParsed], both queries
    answer no, no name has matched, the value is the default; [Parse] always
    returns on it, and against arguments that hold neither of its names it
    answers [NotFound] with the default still in place.  The three shorter
    constructors are the full one at base 10 and at the whole range of the
    type. *)
Theorem constructed_descriptor T d b lo hi nm alt :
  T <> Tbool -> in_range T lo -> in_range T hi ->
  let o := Option_base_range T d b lo hi nm alt in
  ((2 <= Base o <= 36)%Z /\ (Base o = b <-> (2 <= b <= 36)%Z) /\
   ((b < 2)%Z -> Base o = 2%Z) /\ ((36 < b)%Z -> Base o = 36%Z)) /\
  (GetStatus o = NotParsed /\ IsNameExist o = false /\
   IsValueUpdated o = false /\ GetLastMatchedName o = "" /\
   Value T o = Some d) /\
  (forall strtod p, exists st p' o',
     Parse strtod p o = Some (st, p', o') /\
     (first_occurrence o (args p) = None ->
      st = NotFound /\ p' = p /\ Value T o' = Some d /\
      IsNameExist o' = false)) /\
  (Option_default T d nm alt =
     Option_base_range T d 10 (lowest T) (max_value T) nm alt /\
   Option_range T d lo hi nm alt = Option_base_range T d 10 lo hi nm alt /\
   Option_base T d b nm alt =
     Option_base_range T d b (lowest T) (max_value T) nm alt).
Proof.
  intros _ Hlo Hhi o. split_and!; try done.
  - apply clamp_base_range.
  - apply clamp_base_range.
  - unfold o, Base; simpl; unfold clamp_base.
    destruct (Z.ltb_spec b 2), (Z.ltb_spec 36 b); lia.
  - unfold o, Base; simpl; unfold clamp_base. intros H.
    by destruct (Z.ltb_spec b 2); [|lia].
  - unfold o, Base; simpl; unfold clamp_base. intros H.
    destruct (Z.ltb_spec b 2); [lia|]. by destruct (Z.ltb_spec 36 b); [|lia].
  - apply get_inj.
  - intros strtod p.
    destruct (Parse_total strtod p o) as [[[st p'] o'] E].
    { by apply wf_Option_base_range. }
    exists st, p', o'. split; [done|]. intros Hf.
    rewrite (Parse_no_occurrence strtod _ _ Hf) in E. injection E as <- <- <-.
    split_and!; try done. apply get_inj.
Qed.

(** ** Double descriptors with finite bounds *)

Lemma double_clamp_finite d lo hi :
  is_nan d = false -> is_finite lo = true -> is_finite hi = true ->
  is_finite (double_clamp d lo hi).2 = true /\
  (d = S754_infinity false ->
   double_clamp d lo hi = (ClampedMax, hi)) /\
  (d = S754_infinity true ->
   double_clamp d lo hi = (ClampedMin, lo)).
Proof.
  intros Hn Hlo Hhi. unfold double_clamp. split_and!.
  - cbn [snd]. destruct (SFltb d lo) eqn:E1; [done|].
    destruct (SFltb hi d) eqn:E2; [done|].
    destruct d as [|[]| |]; try done.
    + by destruct lo as [|[]| |[]]; vm_compute in E1.
    + by destruct hi as [|[]| |[]]; vm_compute in E2.
  - intros ->. by destruct lo as [|[]| |[]], hi as [|[]| |[]].
  - intros ->. by destruct lo as [|[]| |[]].
Qed.

(** X14.  A double descriptor whose bounds are numbers never takes up an
    infinity: when its name is followed by a token, the value after [Parse]
    is again a number, a token converted in full to plus infinity gives
    [ClampedMax] and the upper bound, and one converted to minus infinity
    [ClampedMin] and the lower bound. *)
Theorem Parse_double_stays_finite (strtod : string -> spec_float * nat)
    p o i f t g v v0 lo hi :
  wf o ->
  value o = VDouble v0 -> min o = VDouble lo -> max o = VDouble hi ->
  is_finite v0 = true -> is_finite lo = true -> is_finite hi = true ->
  first_occurrence o (args p) = Some (i, (f, t)) ->
  args p !! S i = Some (g, v) ->
  in_range Tdouble (strtod v).1 ->
  exists st p' o' v1,
    Parse strtod p o = Some (st, p', o') /\
    value o' = VDouble v1 /\ is_finite v1 = true /\
    (String.length v <= (strtod v).2 ->
     ((strtod v).1 = S754_infinity false -> st = ClampedMax /\ v1 = hi) /\
     ((strtod v).1 = S754_infinity true -> st = ClampedMin /\ v1 = lo)).
Proof.
  intros Hwf Hval Hmin Hmax Hv0 Hlo Hhi Hf Hv Hr.
  rewrite (Parse_with_value strtod _ _ _ _ _ _ _ ltac:(by rewrite Hval) Hf Hv).
  cbv zeta. rewrite Hval. cbn [index Nat.eqb Nat.leb andb].
  unfold deal_floating. destruct (strtod v) as [d n] eqn:Ed. cbn [fst snd] in *.
  destruct (Nat.ltb_spec n (String.length v)) as [Hn|Hn]; cbn [orb].
  { cbn. eexists _, _, _, v0. split; [done|]. split; [done|]. split; [done|].
    lia. }
  destruct (is_nan d) eqn:En.
  { cbn. eexists _, _, _, v0. split; [done|]. split; [done|]. split; [done|].
    intros _. split; intros ->; done. }
  destruct (update_double (set_matched_name (which_name o t) o) d)
    as (lo' & hi' & Hlo' & Hhi' & ->);
    [by apply wf_set_matched_name|by cbn; rewrite Hval|done|].
  cbn [min max set_matched_name] in Hlo', Hhi'.
  assert (lo' = lo) as -> by congruence.
  assert (hi' = hi) as -> by congruence.
  destruct (double_clamp_finite d lo hi En Hlo Hhi) as (H1 & H2 & H3).
  destruct (double_clamp d lo hi) as [s x].
  cbn. eexists _, _, _, _. split; [done|]. split; [done|]. split; [done|].
  intros _. split; intros E.
  - by injection (H2 E) as -> ->.
  - by injection (H3 E) as -> ->.
Qed.

(** ** The further properties on the test program's command line *)

(** X1 at [-g 1000]: the bounds 0 and 100 and the base survive the call. *)
Lemma Parse_keeps_configuration_witness :
  wf Test.opt_int32_g /\
  exists st p' o',
    Parse Strtod.strtod Test.op Test.opt_int32_g = Some (st, p', o') /\
    base o' = 10%Z /\ min o' = VInt32 0 /\ max o' = VInt32 100 /\
    wf o' /\ is_Some (Value Tint32 o').
Proof.
  assert (wf Test.opt_int32_g) as Hwf by wf_by_computation.
  split; [exact Hwf|].
  destruct (Parse_total Strtod.strtod Test.op Test.opt_int32_g Hwf)
    as [[[st p'] o'] HP].
  destruct (Parse_keeps_configuration Strtod.strtod _ _ _ _ _ HP)
    as [(_ & _ & Hb & _ & Hmin & Hmax & _) Hk].
  destruct (Hk Hwf) as (Hwf' & _ & Hv).
  exists st, p', o'. split; [exact HP|]. split; [exact Hb|].
  split; [exact Hmin|]. split; [exact Hmax|]. split; [exact Hwf'|].
  apply Hv. by eexists.
Defined.

(** X2 at [-g 1000]: tokens 9 and 10 are claimed, token 11 keeps its
    flag. *)
Lemma Parse_only_marks_witness :
  wf Test.opt_int32_g /\
  exists st p' o',
    Parse Strtod.strtod Test.op Test.opt_int32_g = Some (st, p', o') /\
    NumArgs p' = 21 /\
    args p' !! 10 = Some (true, "1000") /\
    args p' !! 11 = Some (false, "-h").
Proof.
  assert (wf Test.opt_int32_g) as Hwf by wf_by_computation.
  split; [exact Hwf|].
  destruct (Parse_total Strtod.strtod Test.op Test.opt_int32_g Hwf)
    as [[[st p'] o'] HP].
  destruct (Parse_only_marks Strtod.strtod _ _ _ _ _ HP)
    as (Hn & _ & _ & _ & Hk & _).
  exists st, p', o'. split; [exact HP|]. split; [exact Hn|].
  split; [exact (Hk 10 false "1000" eq_refl)|exact (Hk 11 false "-h" eq_refl)].
Defined.

(** X3 at [-a] and [-b], which come from one merged argument. *)
Lemma Parse_order_irrelevant_witness :
  wf Test.opt_bool_a /\ wf Test.opt_bool_b /\
  exists s1 p1 o1' s2 p12 o2' p2,
    Parse Strtod.strtod Test.op Test.opt_bool_a = Some (s1, p1, o1') /\
    Parse Strtod.strtod p1 Test.opt_bool_b = Some (s2, p12, o2') /\
    Parse Strtod.strtod Test.op Test.opt_bool_b = Some (s2, p2, o2') /\
    Parse Strtod.strtod p2 Test.opt_bool_a = Some (s1, p12, o1').
Proof.
  assert (wf Test.opt_bool_a) as Ha by wf_by_computation.
  assert (wf Test.opt_bool_b) as Hb by wf_by_computation.
  split; [exact Ha|]. split; [exact Hb|].
  destruct (Parse_total Strtod.strtod Test.op Test.opt_bool_a Ha)
    as [[[s1 p1] o1'] H1].
  destruct (Parse_total Strtod.strtod p1 Test.opt_bool_b Hb)
    as [[[s2 p12] o2'] H2].
  destruct (Parse_order_irrelevant Strtod.strtod _ _ _ _ _ _ _ _ _ H1 H2)
    as (p2 & H3 & H4).
  exists s1, p1, o1', s2, p12, o2', p2. auto.
Defined.

(** X4 at [-g 1000]. *)
Lemma Parse_idempotent_witness :
  wf Test.opt_int32_g /\
  exists st p' o',
    Parse Strtod.strtod Test.op Test.opt_int32_g = Some (st, p', o') /\
    Parse Strtod.strtod p' o' = Some (st, p', o').
Proof.
  assert (wf Test.opt_int32_g) as Hwf by wf_by_computation.
  split; [exact Hwf|].
  destruct (Parse_total Strtod.strtod Test.op Test.opt_int32_g Hwf)
    as [[[st p'] o'] HP].
  exists st, p', o'. split; [exact HP|].
  exact (Parse_idempotent Strtod.strtod _ _ _ _ _ HP).
Defined.

(** X5 at [-c] and the path after it. *)
Lemma Parse_string_witness :
  value Test.opt_string_c = VString "./path/file_c" /\
  first_occurrence Test.opt_string_c (args Test.op) = Some (4, (false, "-c")) /\
  args Test.op !! 5 = Some (false, "~/Documents/Work Files/foo.txt") /\
  exists p' o',
    Parse Strtod.strtod Test.op Test.opt_string_c = Some (Parsed, p', o') /\
    value o' = VString "~/Documents/Work Files/foo.txt" /\
    args p' !! 5 = Some (true, "~/Documents/Work Files/foo.txt").
Proof.
  split; [reflexivity|]. split; [reflexivity|]. split; [reflexivity|].
  destruct (Parse_string Strtod.strtod Test.op Test.opt_string_c
              "./path/file_c" 4 false "-c" false
              "~/Documents/Work Files/foo.txt" eq_refl eq_refl eq_refl)
    as (p' & o' & HP & Hv & _ & _ & Hk).
  exists p', o'. auto.
Defined.

(** X6 at [--int32_i 0x5x5x]. *)
Lemma Parse_queries_witness :
  wf Test.opt_int32_i /\
  exists st p' o',
    Parse Strtod.strtod Test.op Test.opt_int32_i = Some (st, p', o') /\
    (IsNameExist o' = true <->
     exists i a, args Test.op !! i = Some a /\ names Test.opt_int32_i a.2) /\
    (IsValueUpdated o' = true -> IsNameExist o' = true) /\
    (IsValueUpdated o' = false -> value o' = value Test.opt_int32_i).
Proof.
  assert (wf Test.opt_int32_i) as Hwf by wf_by_computation.
  split; [exact Hwf|].
  destruct (Parse_total Strtod.strtod Test.op Test.opt_int32_i Hwf)
    as [[[st p'] o'] HP].
  exists st, p', o'. split; [exact HP|].
  exact (Parse_queries Strtod.strtod _ _ _ _ _ HP).
Defined.

(** X7 at [-g 1000] with bounds 0 and 100 and default 50. *)
Lemma Parse_integer_in_range_witness :
  wf Test.opt_int32_g /\ is_integer_kind (value Test.opt_int32_g) /\
  Val_ok (value Test.opt_int32_g) /\
  exists st p' o',
    Parse Strtod.strtod Test.op Test.opt_int32_g = Some (st, p', o') /\
    Val_ok (value o') /\
    exists x1, int_value (value o') = Some x1 /\ (0 <= x1 <= 100)%Z.
Proof.
  assert (wf Test.opt_int32_g) as Hwf by wf_by_computation.
  assert (is_integer_kind (value Test.opt_int32_g)) as Hk
    by (unfold is_integer_kind; simpl; lia).
  assert (Val_ok (value Test.opt_int32_g)) as Hok by (simpl; lia).
  split; [exact Hwf|]. split; [exact Hk|]. split; [exact Hok|].
  destruct (Parse_total Strtod.strtod Test.op Test.opt_int32_g Hwf)
    as [[[st p'] o'] HP].
  destruct (Parse_integer_in_range Strtod.strtod _ _ _ _ _ Hwf Hk Hok HP)
    as (Hok' & _ & Hb).
  exists st, p', o'. split; [exact HP|]. split; [exact Hok'|].
  apply (Hb 0%Z 100%Z 50%Z); [reflexivity|reflexivity|lia|reflexivity|lia].
Defined.

(** X8 at the boolean [-a], whose alternative name is empty, on
    [prog -e ""]. *)
Lemma Parse_empty_token_is_a_name_witness :
  wf Test.opt_bool_a /\ alt_name Test.opt_bool_a = "" /\
  args Test.op_empty !! 2 = Some (false, "") /\
  exists st p' o',
    Parse Strtod.strtod Test.op_empty Test.opt_bool_a = Some (st, p', o') /\
    st <> NotFound /\ IsNameExist o' = true.
Proof.
  assert (wf Test.opt_bool_a) as Hwf by wf_by_computation.
  split; [exact Hwf|]. split; [reflexivity|]. split; [reflexivity|].
  destruct (Parse_empty_token_is_a_name Strtod.strtod Test.op_empty
              Test.opt_bool_a 2 false Hwf eq_refl eq_refl)
    as (st & p' & o' & HP & Hne & Hex & _).
  exists st, p', o'. auto.
Defined.

(** X9 at the fifteen descriptors of the test program. *)
Lemma ParseAll_independent_witness :
  Forall wf Test.options /\
  exists p' os',
    Test.ParseAll Strtod.strtod Test.op Test.options = Some (p', os') /\
    Forall2 (fun o o' =>
               exists st q, Parse Strtod.strtod Test.op o = Some (st, q, o'))
            Test.options os' /\
    texts (args p') = texts (args Test.op).
Proof.
  assert (Forall wf Test.options) as Hwf
    by (unfold Test.options; repeat constructor; vm_compute; repeat split;
        first [reflexivity | discriminate | exact I]).
  split; [exact Hwf|].
  destruct (ParseAll_independent Strtod.strtod Test.op Test.options Hwf)
    as (p' & os' & HP & HF & Ht & _).
  exists p', os'. auto.
Defined.

(** X10 at the arguments of the test program. *)
Lemma tokens_are_final_witness :
  OptionParser_new Test.argv = Some Test.op /\
  length Test.argv <= NumArgs Test.op /\
  OptionParser_new (texts (args Test.op)) = Some Test.op.
Proof.
  assert (OptionParser_new Test.argv = Some Test.op) as HP by reflexivity.
  split; [exact HP|].
  exact (proj2 (tokens_are_final Test.argv Test.op HP)).
Defined.

(** X11 at [-ab] between [-?] and [-c]. *)
Lemma merged_flags_are_separate_flags_witness :
  spec_is_cluster "-ab" = true /\
  OptionParser_new ["./test_loyopt"; "-?"; "-ab"; "-c"] =
  OptionParser_new ["./test_loyopt"; "-?"; "-a"; "-b"; "-c"].
Proof.
  split; [reflexivity|].
  exact (merged_flags_are_separate_flags ["./test_loyopt"; "-?"] "ab" ["-c"]
           eq_refl).
Defined.

(** X12 at [./test_loyopt]. *)
Lemma ExecName_is_basename_witness :
  OptionParser_new Test.argv = Some Test.op /\
  exists dir rest,
    args Test.op = (true, dir ++ ExecName Test.op) :: rest /\
    (forall c, c ∈ list_ascii_of_string (ExecName Test.op) -> is_sep c = false) /\
    (dir = "" \/ exists d c, dir = d ++ String c "" /\ is_sep c = true).
Proof.
  assert (OptionParser_new Test.argv = Some Test.op) as HP by reflexivity.
  split; [exact HP|].
  exact (ExecName_is_basename Test.argv Test.op HP).
Defined.

(** X13 at the descriptor [--int32_i] of the test program, and at a base
    beyond 36. *)
Lemma constructed_descriptor_witness :
  Tint32 <> Tbool /\ in_range Tint32 0%Z /\ in_range Tint32 65535%Z /\
  Base Test.opt_int32_i = 16%Z /\
  Base (Option_base_range Tint32 0%Z 40 0%Z 65535%Z "--int32_i" "") = 36%Z /\
  Value Tint32 Test.opt_int32_i = Some 0%Z.
Proof.
  assert (Tint32 <> Tbool) as HT by discriminate.
  assert (in_range Tint32 0%Z) as Hlo by (simpl; lia).
  assert (in_range Tint32 65535%Z) as Hhi by (simpl; lia).
  split; [exact HT|]. split; [exact Hlo|]. split; [exact Hhi|].
  destruct (constructed_descriptor Tint32 0%Z 16 0%Z 65535%Z "--int32_i" ""
              HT Hlo Hhi) as ((_ & Hb & _) & (_ & _ & _ & _ & Hv) & _).
  destruct (constructed_descriptor Tint32 0%Z 40 0%Z 65535%Z "--int32_i" ""
              HT Hlo Hhi) as ((_ & _ & _ & Hb') & _).
  split; [apply Hb; lia|]. split; [apply Hb'; lia|]. exact Hv.
Defined.

(** X14 at [-n inf]: the value becomes the largest double. *)
Lemma Parse_double_stays_finite_witness :
  wf Test.opt_double_n /\
  first_occurrence Test.opt_double_n (args Test.op_inf)
    = Some (1, (false, "-n")) /\
  args Test.op_inf !! 2 = Some (false, "inf") /\
  in_range Tdouble (Strtod.strtod "inf").1 /\
  exists p' o',
    Parse Strtod.strtod Test.op_inf Test.opt_double_n
      = Some (ClampedMax, p', o') /\
    value o' = VDouble (max_value Tdouble).
Proof.
  assert (wf Test.opt_double_n) as Hwf by wf_by_computation.
  split; [exact Hwf|]. split; [reflexivity|]. split; [reflexivity|].
  split; [reflexivity|].
  destruct (Parse_double_stays_finite Strtod.strtod Test.op_inf
              Test.opt_double_n 1 false "-n" false "inf"
              (S754_zero false) (lowest Tdouble) (max_value Tdouble)
              Hwf eq_refl eq_refl eq_refl eq_refl eq_refl eq_refl
              eq_refl eq_refl eq_refl)
    as (st & p' & o' & v1 & HP & Hv & _ & Hinf).
  destruct Hinf as [Hmax _]; [vm_compute; lia|].
  destruct Hmax as [-> ->]; [reflexivity|].
  exists p', o'. auto.
Defined.
